(** * csvutil: tag-driven mapping between CSV rows and Go structs

    A shallow embedding of [csvutil.go] (package [csvutil]) together with
    the parts of the Go standard library it calls ([strconv], [reflect],
    [encoding/csv], [os]), and the properties of the specification
    checked against it.

    Conventions.
    - Go [string]s are byte sequences: [string] of 8-bit [ascii].
    - Go's three ways of leaving a function are kept apart: a normal
      return ([Ok]), a returned [error] ([Err]) and a run-time panic
      ([Panic]); see [outcome].
    - Go maps are [gmap]s; a [for ... range m] statement visits the
      entries of [m] in an unspecified order, so every function that
      ranges over a map takes the visiting order from a [range_oracle].
    - Slice indices and lengths are [nat]; integer field values are [Z]
      with the wrap-around of the destination width written out. *)

From Stdlib Require Import ZArith NArith PArith List String Ascii Lia Permutation.
From Stdlib Require Import DecimalString DecimalPos DecimalN DecimalZ.
From stdpp Require Import base option list gmap strings.

Local Open Scope string_scope.
Local Open Scope list_scope.
Local Open Scope nat_scope.

#[local] Set Warnings "-clear-no-such-hyp".

(* ===================================================================== *)
(** * Outcomes of a Go call                                                *)
(* ===================================================================== *)

(** A run-time panic: a slice index out of range, or a panic raised by
    package reflect (named by the method that raises it). *)
Inductive panic :=
| IndexOutOfRange (i len : nat)
| ReflectPanic (method : string).

(** How a call ends: with a value, with a returned error of type [E], or
    by panicking. *)
Inductive outcome (E A : Type) :=
| Ok (a : A)
| Err (e : E)
| Panic (p : panic).
Arguments Ok {E A} a.
Arguments Err {E A} e.
Arguments Panic {E A} p.

Definition outcome_bind {E A B} (f : A → outcome E B) (x : outcome E A) : outcome E B :=
  match x with
  | Ok a => f a
  | Err e => Err e
  | Panic p => Panic p
  end.

#[global] Instance outcome_mbind E : MBind (outcome E) := @outcome_bind E.
#[global] Instance outcome_mret E : MRet (outcome E) := @Ok E.

Definition is_Ok {E A} (x : outcome E A) : Prop := ∃ a, x = Ok a.
Definition is_Err {E A} (x : outcome E A) : Prop := ∃ e, x = Err e.
Definition is_Panic {E A} (x : outcome E A) : Prop := ∃ p, x = Panic p.

(** [l[i]]: the element, or the index-out-of-range panic of the runtime. *)
Definition index {E A} (l : list A) (i : nat) : outcome E A :=
  match l !! i with
  | Some x => Ok x
  | None => Panic (IndexOutOfRange i (length l))
  end.

(** [l[i] = x]: the updated slice, or the index-out-of-range panic. *)
Definition setIndex {E A} (l : list A) (i : nat) (x : A) : outcome E (list A) :=
  if decide (i < length l) then Ok (<[i := x]> l)
  else Panic (IndexOutOfRange i (length l)).

(** A loop [for _, x := range xs { st = body(st, x) }] whose body may
    return an error or panic, which ends the loop. *)
Fixpoint forRange {E A S} (body : S → A → outcome E S) (xs : list A) (st : S) : outcome E S :=
  match xs with
  | [] => Ok st
  | x :: rest => st' ← body st x; forRange body rest st'
  end.

(** The order in which the [n]-th [range] statement over a map visits the
    entries of that map. Go leaves the order unspecified; it is a
    permutation of the entries. *)
Definition range_oracle (K V : Type) `{Countable K} : Type := nat → gmap K V → list (K * V).

Definition fair {K V} `{Countable K} (o : range_oracle K V) : Prop :=
  ∀ n m, o n m ≡ₚ map_to_list m.

(** One possible order: the one of [map_to_list]. *)
Definition in_key_order {K V} `{Countable K} : range_oracle K V := λ _ m, map_to_list m.

(* ===================================================================== *)
(** * Package strconv (the functions csvutil calls)                       *)
(* ===================================================================== *)

(** csvutil converts cells with [strconv.ParseBool], [ParseInt],
    [ParseFloat], [FormatBool], [FormatInt] and [FormatFloat]. They belong
    to the Go standard library, not to the repository; the definitions
    below follow the library's documentation and source for the arguments
    csvutil passes (base 10; format 'f'). *)

Module strconv.

(** [strconv.ErrSyntax] and [strconv.ErrRange]. *)
Inductive cause := ErrSyntax | ErrRange.

(** [*strconv.NumError]: the failing function, the input and the cause. *)
Record NumError := mkNumError { Func : string; Num : string; Cause : cause }.

Definition syntaxError (fn str : string) : NumError := mkNumError fn str ErrSyntax.
Definition rangeError (fn str : string) : NumError := mkNumError fn str ErrRange.

(** ** ParseBool / FormatBool *)

Definition ParseBool (str : string) : bool * option NumError :=
  if decide (str = "1" ∨ str = "t" ∨ str = "T" ∨ str = "TRUE" ∨ str = "true" ∨ str = "True")
  then (true, None)
  else if decide (str = "0" ∨ str = "f" ∨ str = "F" ∨ str = "FALSE" ∨ str = "false" ∨ str = "False")
  then (false, None)
  else (false, Some (syntaxError "ParseBool" str)).

Definition FormatBool (b : bool) : string := if b then "true" else "false".

(** ** ParseUint / ParseInt, base 10

    csvutil only ever passes base 10, so the base argument is fixed: no
    base prefix and no underscores are accepted (Go accepts those for
    base 0 only) and a digit is one of the bytes '0'..'9'. *)

Definition maxUint64 : N := 18446744073709551615.

(** The value of a decimal digit byte, [None] for any other byte. *)
Definition digit (c : ascii) : option N :=
  let n := N_of_ascii c in
  if ((48 <=? n) && (n <=? 57))%N then Some (n - 48)%N else None.

(** The loop of [ParseUint]: [n] is the value read so far. A byte that is
    not a digit is a syntax error; [n*10] or [n*10+d] exceeding [maxVal]
    is a range error that returns [maxVal]. *)
Fixpoint parseUintLoop (cutoff maxVal : N) (s0 : string) (n : N) (s : string)
  : N * option NumError :=
  match s with
  | EmptyString => (n, None)
  | String c rest =>
      match digit c with
      | None => (0%N, Some (syntaxError "ParseUint" s0))
      | Some d =>
          if (cutoff <=? n)%N then (maxVal, Some (rangeError "ParseUint" s0))
          else
            let n1 := (n * 10 + d)%N in
            if (maxVal <? n1)%N then (maxVal, Some (rangeError "ParseUint" s0))
            else parseUintLoop cutoff maxVal s0 n1 rest
      end
  end.

(** [ParseUint(s, 10, bitSize)] for [0 < bitSize <= 64]. *)
Definition ParseUint (s : string) (bitSize : N) : N * option NumError :=
  match s with
  | EmptyString => (0%N, Some (syntaxError "ParseUint" s))
  | _ =>
      let cutoff := (maxUint64 / 10 + 1)%N in
      let maxVal := (2 ^ bitSize - 1)%N in
      parseUintLoop cutoff maxVal s 0%N s
  end.

(** [ParseInt(s, 10, bitSize)] for [0 < bitSize <= 64]: an optional sign,
    then [ParseUint] at [bitSize] bits, whose syntax error is returned
    under the name of [ParseInt] and whose range error is passed over,
    then the range check for a signed value of [bitSize] bits. *)
Definition ParseInt (s : string) (bitSize : N) : Z * option NumError :=
  match s with
  | EmptyString => (0%Z, Some (syntaxError "ParseInt" s))
  | String c rest =>
      let '(neg, body) :=
        if decide (c = "+"%char) then (false, rest)
        else if decide (c = "-"%char) then (true, rest)
        else (false, s) in
      let '(un, err) := ParseUint body bitSize in
      match err with
      | Some (mkNumError _ _ ErrSyntax) => (0%Z, Some (syntaxError "ParseInt" s))
      | _ =>
          let cutoff := (2 ^ (bitSize - 1))%N in
          if negb neg && (cutoff <=? un)%N
          then (Z.of_N cutoff - 1, Some (rangeError "ParseInt" s))%Z
          else if neg && (cutoff <? un)%N
          then (- Z.of_N cutoff, Some (rangeError "ParseInt" s))%Z
          else (if neg then - Z.of_N un else Z.of_N un, None)%Z
      end
  end.

(** [FormatInt(i, 10)]: the decimal digits of [i], with a leading '-'
    when [i] is negative. *)
Definition FormatInt (i : Z) : string := NilZero.string_of_int (Z.to_int i).

(** ** Floating-point values

    A float is kept by its value: a NaN, a signed infinity, a signed
    zero, or [± m · 2^e] with [m] odd, which names every nonzero binary
    float exactly once. A [format] bounds the mantissa width and the
    exponent range; every binary32 value is also a binary64 value, so
    [float64(x)] of a [float32] is the identity on this representation. *)

Inductive float :=
| FNaN
| FInf (neg : bool)
| FZero (neg : bool)
| FFinite (neg : bool) (m : positive) (e : Z).

(** [mant_bits]: width of the mantissa with its leading bit; [e_min]: the
    exponent of the smallest subnormal; every finite value is below
    [2^e_top]. *)
Record format := mkFormat { mant_bits : Z; e_min : Z; e_top : Z }.
Definition binary64 : format := mkFormat 53 (-1074) 1024.
Definition binary32 : format := mkFormat 24 (-149) 128.

(** Number of bits of [m]. *)
Definition bitlen (m : positive) : Z := (Z.log2 (Zpos m) + 1)%Z.

Definition is_odd (m : positive) : bool := match m with xO _ => false | _ => true end.

(** [x] is a value of format [fmt]. *)
Definition representable (fmt : format) (x : float) : bool :=
  match x with
  | FFinite _ m e =>
      is_odd m && (bitlen m <=? mant_bits fmt)%Z && (e_min fmt <=? e)%Z
      && (e + bitlen m <=? e_top fmt)%Z
  | _ => true
  end.

(** [m · 2^e] with the factors of two moved from [m] into [e]. *)
Fixpoint odd_part (m : positive) (e : Z) : positive * Z :=
  match m with
  | xO p => odd_part p (e + 1)%Z
  | _ => (m, e)
  end.

(** The integer nearest to [p/q] ([0 <= p], [0 < q]), ties to even. *)
Definition rne (p q : Z) : Z :=
  let n := (p / q)%Z in
  match (2 * (p mod q) ?= q)%Z with
  | Lt => n
  | Gt => (n + 1)%Z
  | Eq => if Z.even n then n else (n + 1)%Z
  end.

(** [p / (q · 2^e)] as a fraction of integers. *)
Definition scale2 (p q e : Z) : Z * Z :=
  if (0 <=? e)%Z then (p, q * 2 ^ e)%Z else (p * 2 ^ (- e), q)%Z.

(** [⌊log2 (p/q)⌋] for [0 < p], [0 < q]. *)
Definition floor_log2 (p q : Z) : Z :=
  let l := (Z.log2 p - Z.log2 q)%Z in
  let '(a, b) := scale2 p q l in
  if (b <=? a)%Z then l else (l - 1)%Z.

(** IEEE 754 round-to-nearest-even of [± p/q] ([0 < p], [0 < q]) into
    [fmt]; the flag reports overflow (the result is then an infinity). *)
Definition roundFloat (fmt : format) (neg : bool) (p q : Z) : float * bool :=
  let e := Z.max (e_min fmt) (floor_log2 p q - (mant_bits fmt - 1)) in
  let '(a, b) := scale2 p q e in
  match rne a b with
  | Zpos m =>
      if (e_top fmt <? e + bitlen m)%Z then (FInf neg, true)
      else let '(m', e') := odd_part m e in (FFinite neg m' e', false)
  | _ => (FZero neg, false)
  end.

(** The conversion [float32(x)] of a [float64], as a value. *)
Definition toFloat32 (x : float) : float :=
  match x with
  | FFinite neg m e => fst (let '(a, b) := scale2 (Zpos m) 1 (- e) in roundFloat binary32 neg a b)
  | _ => x
  end.

(** ** FormatFloat(f, 'f', prec, bitSize), [0 <= prec]

    Format 'f' is "-ddd.ddd": the exact decimal expansion of the value
    rounded (ties to even) to [prec] digits after the point; no point is
    written when [prec = 0]. NaN and the infinities are written as
    "NaN", "+Inf" and "-Inf" for every format. With [bitSize = 32] the
    value is converted to [float32] first. *)

Definition decimal (n : N) : string := NilZero.string_of_uint (N.to_uint n).

Definition zeros (k : nat) : string := string_of_list_ascii (repeat "0"%char k).

(** The digits of [n / 10^prec] with [prec] digits after the point. *)
Definition fixed (n : N) (prec : nat) : string :=
  match prec with
  | O => decimal n
  | S _ =>
      let ds := decimal n in
      let ds := zeros (S prec - String.length ds) +:+ ds in
      let k := (String.length ds - prec)%nat in
      substring 0 k ds +:+ "." +:+ substring k prec ds
  end.

Definition signText (neg : bool) : string := if neg then "-" else "".

Definition FormatFloat_f (f : float) (prec : nat) (bitSize : N) : string :=
  let f := if decide (bitSize = 32%N) then toFloat32 f else f in
  match f with
  | FNaN => "NaN"
  | FInf neg => if neg then "-Inf" else "+Inf"
  | FZero neg => signText neg +:+ fixed 0 prec
  | FFinite neg m e =>
      let '(a, b) := scale2 (Zpos m * 10 ^ Z.of_nat prec) 1 (- e) in
      signText neg +:+ fixed (Z.to_N (rne a b)) prec
  end.

(** ** ParseFloat(s, bitSize)

    Accepted texts: an optionally signed "inf" or "infinity" and an
    unsigned "nan" (letters in either case); and the decimal and
    hexadecimal floating-point literals of Go, optionally signed, with
    underscores between digits. The result is the value of the text
    rounded to nearest-even in the format chosen by [bitSize]; a value too
    large for the format gives an infinity and [ErrRange]. *)

Definition lower (c : ascii) : ascii := ascii_of_N (N.lor (N_of_ascii c) 32).

(** [c] with an upper-case ASCII letter replaced by its lower-case one. *)
Definition foldUpper (c : ascii) : ascii :=
  let n := N_of_ascii c in
  if ((65 <=? n) && (n <=? 90))%N then ascii_of_N (n + 32) else c.

Fixpoint commonPrefixLenIgnoreCase (s pre : string) : nat :=
  match s, pre with
  | String c s', String p pre' =>
      if decide (foldUpper c = p) then S (commonPrefixLenIgnoreCase s' pre') else O
  | _, _ => O
  end.

Definition dropString (n : nat) (s : string) : string :=
  substring n (String.length s - n) s.

(** [special]: the value and the unread rest when [s] starts with an
    infinity or a NaN. *)
Definition special (s : string) : option (float * string) :=
  let inf (neg : bool) (t : string) : option (float * string) :=
    let n := commonPrefixLenIgnoreCase t "infinity" in
    let n := if ((3 <? n) && (n <? 8))%nat then 3%nat else n in
    if ((n =? 3) || (n =? 8))%nat then Some (FInf neg, dropString n t) else None in
  match s with
  | EmptyString => None
  | String c rest =>
      if decide (c = "+"%char) then inf false rest
      else if decide (c = "-"%char) then inf true rest
      else if decide (c = "i"%char ∨ c = "I"%char) then inf false s
      else if decide (c = "n"%char ∨ c = "N"%char) then
        if (commonPrefixLenIgnoreCase s "nan" =? 3)%nat then Some (FNaN, dropString 3 s) else None
      else None
  end.

(** The value of a hexadecimal digit byte. *)
Definition hexDigit (c : ascii) : option N :=
  match digit c with
  | Some d => Some d
  | None =>
      let n := N_of_ascii (lower c) in
      if ((97 <=? n) && (n <=? 102))%N then Some (n - 97 + 10)%N else None
  end.

(** What the mantissa scan has seen. [frac] counts the digits read after
    the point. *)
Record mantissa := mkMantissa {
  mant : N; frac : Z; sawdot : bool; sawdigits : bool; underscores : bool }.

Fixpoint readMantissa (hex : bool) (st : mantissa) (s : string) : mantissa * string :=
  match s with
  | EmptyString => (st, s)
  | String c rest =>
      if decide (c = "_"%char) then
        readMantissa hex (mkMantissa (mant st) (frac st) (sawdot st) (sawdigits st) true) rest
      else if decide (c = "."%char) then
        if sawdot st then (st, s)
        else readMantissa hex (mkMantissa (mant st) (frac st) true (sawdigits st) (underscores st)) rest
      else
        match (if hex then hexDigit c else digit c) with
        | Some d =>
            let base := if hex then 16%N else 10%N in
            readMantissa hex
              (mkMantissa (mant st * base + d) (if sawdot st then frac st + 1 else frac st)%Z
                          (sawdot st) true (underscores st)) rest
        | None => (st, s)
        end
  end.

(** The digits of the exponent: the value saturates once it has reached
    10000; the flag reports an underscore. *)
Fixpoint readExpDigits (e : Z) (us : bool) (s : string) : Z * bool * string :=
  match s with
  | EmptyString => (e, us, s)
  | String c rest =>
      if decide (c = "_"%char) then readExpDigits e true rest
      else match digit c with
           | Some d => readExpDigits (if (e <? 10000)%Z then e * 10 + Z.of_N d else e)%Z us rest
           | None => (e, us, s)
           end
  end.

(** The exponent part after the mantissa, [None] when it is malformed (or
    missing from a hexadecimal literal, which requires one). *)
Definition readExponent (hex : bool) (s : string) : option (Z * bool * string) :=
  let expChar := if hex then "p"%char else "e"%char in
  match s with
  | String c rest =>
      if decide (lower c = expChar) then
        match rest with
        | EmptyString => None
        | String c1 rest1 =>
            let '(esign, body) :=
              if decide (c1 = "+"%char) then (1%Z, rest1)
              else if decide (c1 = "-"%char) then ((-1)%Z, rest1)
              else (1%Z, rest) in
            match body with
            | String d _ =>
                match digit d with
                | Some _ =>
                    let '(e, us, rest2) := readExpDigits 0 false body in
                    Some ((e * esign)%Z, us, rest2)
                | None => None
                end
            | EmptyString => None
            end
        end
      else if hex then None else Some (0%Z, false, s)
  | EmptyString => if hex then None else Some (0%Z, false, s)
  end.

(** [underscoreOK]: every underscore stands between two digits (the base
    prefix counts as a digit). [saw] is the class of the last byte: 0 for
    the start, 1 for a digit, 2 for an underscore, 3 for anything else. *)
Fixpoint underscoreLoop (hex : bool) (saw : nat) (s : string) : bool :=
  match s with
  | EmptyString => negb (saw =? 2)%nat
  | String c rest =>
      match (if hex then hexDigit c else digit c) with
      | Some _ => underscoreLoop hex 1 rest
      | None =>
          if decide (c = "_"%char) then
            if (saw =? 1)%nat then underscoreLoop hex 2 rest else false
          else if (saw =? 2)%nat then false
          else underscoreLoop hex 3 rest
      end
  end.

Definition stripSign (s : string) : bool * string :=
  match s with
  | String c rest =>
      if decide (c = "+"%char) then (false, rest)
      else if decide (c = "-"%char) then (true, rest)
      else (false, s)
  | EmptyString => (false, s)
  end.

Definition underscoreOK (s : string) : bool :=
  let s := snd (stripSign s) in
  match s with
  | String "0"%char (String c rest) =>
      let l := lower c in
      if decide (l = "b"%char ∨ l = "o"%char ∨ l = "x"%char)
      then underscoreLoop (bool_decide (l = "x"%char)) 1 rest
      else underscoreLoop false 0 s
  | _ => underscoreLoop false 0 s
  end.

(** The base prefix "0x" or "0X", which must be followed by at least one
    more byte: whether it is there, and the text after it. *)
Definition hexPrefix (body : string) : bool * string :=
  match body with
  | String "0"%char (String c (String c' rest)) =>
      if decide (lower c = "x"%char) then (true, String c' rest) else (false, body)
  | _ => (false, body)
  end.

(** [readFloat]: sign, base-16 flag, mantissa digits as a number, and the
    power of the base (10, or 2 for a hexadecimal literal) it is scaled
    by; [None] when [s] is not a well-formed literal in full. *)
Definition readFloat (s : string) : option (bool * bool * N * Z) :=
  let '(neg, body) := stripSign s in
  let '(hex, digits) := hexPrefix body in
  let '(st, rest) := readMantissa hex (mkMantissa 0 0 false false false) digits in
  if sawdigits st then
    match readExponent hex rest with
    | Some (e, us, EmptyString) =>
        if (underscores st || us) && negb (underscoreOK s) then None
        else Some (neg, hex, mant st, (if hex then e - 4 * frac st else e - frac st)%Z)
    | _ => None
    end
  else None.

Definition ParseFloat (s : string) (bitSize : N) : float * option NumError :=
  let fmt := if decide (bitSize = 32%N) then binary32 else binary64 in
  match special s with
  | Some (f, EmptyString) => (f, None)
  | Some _ => (FZero false, Some (syntaxError "ParseFloat" s))
  | None =>
      match readFloat s with
      | None => (FZero false, Some (syntaxError "ParseFloat" s))
      | Some (neg, hex, 0%N, _) => (FZero neg, None)
      | Some (neg, hex, Npos m, e) =>
          let '(a, b) :=
            if hex then scale2 (Zpos m) 1 (- e)
            else if (0 <=? e)%Z then (Zpos m * 10 ^ e, 1)%Z else (Zpos m, 10 ^ (- e))%Z in
          let '(f, overflow) := roundFloat fmt neg a b in
          (f, if overflow then Some (rangeError "ParseFloat" s) else None)
      end
  end.

End strconv.

(* ===================================================================== *)
(** * Package reflect (the part csvutil uses)                             *)
(* ===================================================================== *)

(** Type descriptors, struct fields and their tags, and the getters and
    setters of [reflect.Value], after the Go standard library. A struct
    value is the list of the contents of its fields. *)

Module reflect.

(** [reflect.Kind]. *)
Inductive Kind :=
| KInvalid | KBool
| KInt | KInt8 | KInt16 | KInt32 | KInt64
| KUint | KUint8 | KUint16 | KUint32 | KUint64 | KUintptr
| KFloat32 | KFloat64 | KComplex64 | KComplex128
| KArray | KChan | KFunc | KInterface | KMap | KPointer | KSlice
| KString | KStruct | KUnsafePointer.

#[global] Instance Kind_eq_dec : EqDecision Kind.
Proof. solve_decision. Defined.

(** [Kind.String()]. *)
Definition Kind_String (k : Kind) : string :=
  match k with
  | KInvalid => "invalid" | KBool => "bool"
  | KInt => "int" | KInt8 => "int8" | KInt16 => "int16" | KInt32 => "int32" | KInt64 => "int64"
  | KUint => "uint" | KUint8 => "uint8" | KUint16 => "uint16" | KUint32 => "uint32"
  | KUint64 => "uint64" | KUintptr => "uintptr"
  | KFloat32 => "float32" | KFloat64 => "float64"
  | KComplex64 => "complex64" | KComplex128 => "complex128"
  | KArray => "array" | KChan => "chan" | KFunc => "func" | KInterface => "interface"
  | KMap => "map" | KPointer => "ptr" | KSlice => "slice"
  | KString => "string" | KStruct => "struct" | KUnsafePointer => "unsafe.Pointer"
  end.

(** [reflect.StructField]: the name, the package path (empty exactly for
    an exported field), the kind of the field's type, and the struct tag
    as its key/value pairs in the order they are written. *)
Record StructField := mkField {
  Name : string;
  PkgPath : string;
  FieldKind : Kind;
  Tag : list (string * string)
}.

(** [StructTag.Get(key)]: the value of the first pair with that key, the
    empty string when there is none. *)
Fixpoint Tag_Get (tag : list (string * string)) (key : string) : string :=
  match tag with
  | [] => ""
  | (k, v) :: rest => if decide (k = key) then v else Tag_Get rest key
  end.

Definition IsExported (f : StructField) : bool := bool_decide (PkgPath f = "").

(** [reflect.Type]: its printed name, its kind and, for a struct type,
    its fields in declaration order. *)
Record rtype := mkType {
  TypeName : string;
  TypeKind : Kind;
  Fields : list StructField
}.

(** [Type.NumField()] panics for a type that is not a struct. *)
Definition NumField {E} (T : rtype) : outcome E nat :=
  if decide (TypeKind T = KStruct) then Ok (length (Fields T))
  else Panic (ReflectPanic "NumField").

(** The contents of one field of a struct value. Integers of every
    signed width are kept as their value, floats of both widths as theirs;
    [VOther] stands for a value of a kind csvutil does not look into. *)
Inductive Value :=
| VBool (b : bool)
| VInt (n : Z)
| VFloat (f : strconv.float)
| VString (s : string)
| VOther.

(** Width of the signed integer kinds ([int] is 64 bits wide). *)
Definition intBits (k : Kind) : option Z :=
  match k with
  | KInt => Some 64%Z | KInt8 => Some 8%Z | KInt16 => Some 16%Z
  | KInt32 => Some 32%Z | KInt64 => Some 64%Z
  | _ => None
  end.

(** The conversion of an [int64] to a signed integer of [bits] bits. *)
Definition wrap (bits : Z) (x : Z) : Z :=
  ((x + 2 ^ (bits - 1)) mod 2 ^ bits - 2 ^ (bits - 1))%Z.

Definition inRange (bits : Z) (x : Z) : bool :=
  ((- 2 ^ (bits - 1) <=? x) && (x <? 2 ^ (bits - 1)))%Z.

(** The zero value of a field of kind [k]. *)
Definition Zero (k : Kind) : Value :=
  match k with
  | KBool => VBool false
  | KInt | KInt8 | KInt16 | KInt32 | KInt64 => VInt 0
  | KFloat32 | KFloat64 => VFloat (strconv.FZero false)
  | KString => VString ""
  | _ => VOther
  end.

(** [v] is a value a field of kind [k] can hold. *)
Definition hasKind (k : Kind) (v : Value) : bool :=
  match k, v with
  | KBool, VBool _ => true
  | (KInt | KInt8 | KInt16 | KInt32 | KInt64), VInt n =>
      match intBits k with Some b => inRange b n | None => false end
  | KFloat32, VFloat f => strconv.representable strconv.binary32 f
  | KFloat64, VFloat f => strconv.representable strconv.binary64 f
  | KString, VString _ => true
  | (KBool | KInt | KInt8 | KInt16 | KInt32 | KInt64 | KFloat32 | KFloat64 | KString), _ => false
  | _, VOther => true
  | _, _ => false
  end.

(** A struct value: the contents of its fields in declaration order. *)
Definition hasType (T : rtype) (r : list Value) : Prop :=
  Forall2 (λ f v, hasKind (FieldKind f) v = true) (Fields T) r.

(** [new(T)] for a struct type: every field at its zero value. *)
Definition New (T : rtype) : list Value := map (λ f, Zero (FieldKind f)) (Fields T).

(** A [reflect.Value] that stands for field [Index] of a struct. *)
Record FieldRef := mkFieldRef { Index : nat; Field_ : StructField }.

Fixpoint findField (name : string) (i : nat) (fs : list StructField) : option FieldRef :=
  match fs with
  | [] => None
  | f :: rest => if decide (Name f = name) then Some (mkFieldRef i f) else findField name (S i) rest
  end.

(** [Value.FieldByName(name)]: the first field with that name; [None]
    stands for the zero Value (of kind Invalid) returned when there is
    none. *)
Definition FieldByName (T : rtype) (name : string) : option FieldRef :=
  findField name 0 (Fields T).

(** [Value.Field(i)] panics when [i] is not the index of a field. *)
Definition Field {E} (T : rtype) (i : nat) : outcome E FieldRef :=
  match Fields T !! i with
  | Some f => Ok (mkFieldRef i f)
  | None => Panic (ReflectPanic "Field")
  end.

Definition Kind_of (fld : FieldRef) : Kind := FieldKind (Field_ fld).

(** The setters panic on a field reached through an unexported name, and
    on a field of another kind than theirs. *)
Definition assign {E} (method : string) (ok : bool) (fld : FieldRef) (v : Value)
    (str : list Value) : outcome E (list Value) :=
  if IsExported (Field_ fld) && ok then Ok (<[Index fld := v]> str)
  else Panic (ReflectPanic method).

Definition SetBool {E} (fld : FieldRef) (x : bool) (str : list Value) : outcome E (list Value) :=
  assign "SetBool" (bool_decide (Kind_of fld = KBool)) fld (VBool x) str.

(** [SetInt] converts to the width of the field: [int8(x)], [int16(x)], ... *)
Definition SetInt {E} (fld : FieldRef) (x : Z) (str : list Value) : outcome E (list Value) :=
  match intBits (Kind_of fld) with
  | Some bits => assign "SetInt" true fld (VInt (wrap bits x)) str
  | None => Panic (ReflectPanic "SetInt")
  end.

(** [SetFloat] converts to [float32] for a field of that kind. *)
Definition SetFloat {E} (fld : FieldRef) (x : strconv.float) (str : list Value)
    : outcome E (list Value) :=
  match Kind_of fld with
  | KFloat32 => assign "SetFloat" true fld (VFloat (strconv.toFloat32 x)) str
  | KFloat64 => assign "SetFloat" true fld (VFloat x) str
  | _ => Panic (ReflectPanic "SetFloat")
  end.

Definition SetString {E} (fld : FieldRef) (x : string) (str : list Value) : outcome E (list Value) :=
  assign "SetString" (bool_decide (Kind_of fld = KString)) fld (VString x) str.

(** The getters [Bool()], [Int()], [Float()], [String()] of a field of a
    struct value (they may be used on unexported fields). *)
Definition contents (str : list Value) (fld : FieldRef) : Value :=
  default VOther (str !! Index fld).

Definition Bool_ (str : list Value) (fld : FieldRef) : bool :=
  match contents str fld with VBool b => b | _ => false end.
Definition Int_ (str : list Value) (fld : FieldRef) : Z :=
  match contents str fld with VInt n => n | _ => 0%Z end.
Definition Float_ (str : list Value) (fld : FieldRef) : strconv.float :=
  match contents str fld with VFloat f => f | _ => strconv.FZero false end.
Definition String_ (str : list Value) (fld : FieldRef) : string :=
  match contents str fld with VString s => s | _ => "" end.

End reflect.

(* ===================================================================== *)
(** * Package csvutil                                                     *)
(* ===================================================================== *)

Module csvutil.
Import reflect.

(** The errors csvutil returns, one constructor for each [fmt.Errorf]
    format; the arguments are the values formatted into the message.
    Failures of [os] and [encoding/csv] are carried as their message. *)
Inductive error :=
| ErrReadFile (cause : error)                      (* "read file error %s" *)
| ErrUnableToReadFile (cause : string)             (* "unable to read file %s" *)
| ErrUnableToParse (cause : string)                (* "unable to parse file as CSV %s" *)
| ErrIsNotStruct (T : string)                      (* "%s is not struct" *)
| ErrReadingColumnTag (cause : error)              (* "error during reading column tag %s" *)
| ErrFieldTypeNotSupported (what : string)         (* "field type not supported %s" *)
| ErrFieldBoolInvalid (k : string) (cause : strconv.NumError)  (* "field bool %s invalid: %s" *)
| ErrFieldIntInvalid (k : string) (cause : strconv.NumError)   (* "field int %s invalid: %s" *)
| ErrUnsupportType (what : string)                 (* "unsupport type %s" *)
| ErrIsNotAStruct (T : string)                     (* "%s is not a struct" *)
| ErrColumnNotExist (col : string).                (* "column %s does not exist" *)

Abbreviation result := (outcome error).

(** ** getStructTags *)

(** [for i, v := range colHeader { colNum[v] = i }], from index [i]. *)
Fixpoint rangeHeader (i : nat) (colHeader : list string) (colNum : gmap string nat)
  : gmap string nat :=
  match colHeader with
  | [] => colNum
  | v :: rest => rangeHeader (S i) rest (<[v := i]> colNum)
  end.

(** The loop over the fields of [T]: a field with a non-empty [col] tag
    is bound to the index of that column, or ends the loop with an error
    when the header has no such column. *)
Fixpoint bindFields (colNum : gmap string nat) (flds : list StructField)
    (m : gmap string nat) : result (gmap string nat) :=
  match flds with
  | [] => Ok m
  | fld :: rest =>
      let col := Tag_Get (Tag fld) "col" in
      if decide (col ≠ "") then
        match colNum !! col with
        | None => Err (ErrColumnNotExist col)
        | Some n => bindFields colNum rest (<[Name fld := n]> m)
        end
      else bindFields colNum rest m
  end.

Definition getStructTags (T : rtype) (colHeader : list string) : result (gmap string nat) :=
  if decide (TypeKind T ≠ KStruct ∧ TypeKind T ≠ KInterface)
  then Err (ErrIsNotAStruct (TypeName T))
  else
    let colNum := rangeHeader 0 colHeader ∅ in
    n ← NumField T;
    bindFields colNum (take n (Fields T)) ∅.

(** ** getStructTagForHeader *)

(** The loop over the fields of the type, from field index [i]. *)
Fixpoint headerFields (i : nat) (flds : list StructField) (out : gmap nat string)
  : gmap nat string :=
  match flds with
  | [] => out
  | fld :: rest =>
      let col := Tag_Get (Tag fld) "col" in
      headerFields (S i) rest (if decide (col ≠ "") then <[i := col]> out else out)
  end.

Definition getStructTagForHeader (T : rtype) : result (gmap nat string) :=
  if decide (TypeKind T ≠ KStruct) then Err (ErrIsNotStruct (TypeName T))
  else if decide (TypeKind T ≠ KStruct ∧ TypeKind T ≠ KInterface)
  then Err (ErrIsNotAStruct (TypeName T))
  else
    n ← NumField T;
    Ok (headerFields 0 (take n (Fields T)) ∅).

(** ** readColumnDefCreateStruct *)

(** One iteration of the loop of the closure: field [k] of the struct
    under construction [str] is set from [row[v]]. *)
Definition decodeField (T : rtype) (row : list string) (str : list Value)
    (kv : string * nat) : result (list Value) :=
  let '(k, v) := kv in
  match FieldByName T k with
  | None => Err (ErrFieldTypeNotSupported k)
  | Some field =>
      match Kind_of field with
      | KInvalid => Err (ErrFieldTypeNotSupported k)
      | KBool =>
          cell ← index row v;
          match strconv.ParseBool cell with
          | (_, Some err) => Err (ErrFieldBoolInvalid k err)
          | (out, None) => SetBool field out str
          end
      | KInt32 | KInt8 | KInt16 | KInt64 | KInt =>
          cell ← index row v;
          match strconv.ParseInt cell 32 with
          | (_, Some err) => Err (ErrFieldIntInvalid k err)
          | (out, None) => SetInt field out str
          end
      | KFloat32 =>
          cell ← index row v;
          match strconv.ParseFloat cell 32 with
          | (_, Some err) => Err (ErrFieldBoolInvalid k err)
          | (out, None) => SetFloat field out str
          end
      | KFloat64 =>
          cell ← index row v;
          match strconv.ParseFloat cell 64 with
          | (_, Some err) => Err (ErrFieldBoolInvalid k err)
          | (out, None) => SetFloat field out str
          end
      | KString =>
          cell ← index row v;
          SetString field cell str
      | _ => Err (ErrUnsupportType k)
      end
  end.

(** The closure returned by [readColumnDefCreateStruct], with the order
    in which its [range colDef] visits the binding: a fresh [T], then one
    [decodeField] for each entry. *)
Definition decodeRow (T : rtype) (order : list (string * nat)) (row : list string)
  : result (list Value) :=
  forRange (decodeField T row) order (New T).

(** The closure is returned as a function of the number of the call (which
    selects the visiting order of that call) and of the row. *)
Definition readColumnDefCreateStruct (T : rtype) (o : range_oracle string nat)
    (colHeader : list string) : result (nat → list string → result (list Value)) :=
  if decide (TypeKind T ≠ KStruct) then Err (ErrIsNotStruct (TypeName T))
  else
    match getStructTags T colHeader with
    | Err outErr => Err (ErrReadingColumnTag outErr)
    | Panic p => Panic p
    | Ok colDef => Ok (λ n row, decodeRow T (o n colDef) row)
    end.

(** ** ReadToStruct

    [readFileToArr] belongs to the I/O side: its outcome (the rows of the
    file, or its error) is the input here. *)

(** The loop over [records], at record index [i]: the first record is
    skipped, every other one is decoded and appended. *)
Fixpoint decodeRecords (convToInterface : nat → list string → result (list Value))
    (i : nat) (records : list (list string)) (str : list (list Value))
  : result (list (list Value)) :=
  match records with
  | [] => Ok str
  | r :: rest =>
      if decide (i = 0) then decodeRecords convToInterface (S i) rest str
      else
        match convToInterface i r with
        | Err err => Err err
        | Panic p => Panic p
        | Ok elem => decodeRecords convToInterface (S i) rest (str ++ [elem])
        end
  end.

Definition ReadToStruct (T : rtype) (o : range_oracle string nat)
    (readFileToArr : result (list (list string))) : result (list (list Value)) :=
  match readFileToArr with
  | Err err => Err (ErrReadFile err)
  | Panic p => Panic p
  | Ok records =>
      header ← index records 0;
      convToInterface ← readColumnDefCreateStruct T o header;
      decodeRecords convToInterface 0 records []
  end.

(** ** WriteFromStruct

    The model ends with the rows [out] handed to [csv.Writer.WriteAll];
    creating and writing the file belongs to the I/O side. *)

(** The text of one field of the record [str]. *)
Definition encodeField (str : list Value) (field : FieldRef) : result string :=
  match Kind_of field with
  | KInvalid => Err (ErrFieldTypeNotSupported (Kind_String (Kind_of field)))
  | KBool => Ok (strconv.FormatBool (Bool_ str field))
  | KInt32 | KInt8 | KInt16 | KInt64 | KInt => Ok (strconv.FormatInt (Int_ str field))
  | KFloat32 => Ok (strconv.FormatFloat_f (Float_ str field) 0 32)
  | KFloat64 => Ok (strconv.FormatFloat_f (Float_ str field) 0 64)
  | KString => Ok (String_ str field)
  | _ => Err (ErrUnsupportType (Kind_String (Kind_of field)))
  end.

(** [for i, v := range header { headRow[i] = v }]. *)
Definition fillHeader (order : list (nat * string)) (headRow : list string)
  : result (list string) :=
  forRange (λ headRow '(i, v), setIndex headRow i v) order headRow.

(** [for i := range header { ...; row[i] = <text of field i> }]. *)
Definition encodeRow (T : rtype) (order : list (nat * string)) (str : list Value)
    (row : list string) : result (list string) :=
  forRange (λ row '(i, _),
              field ← Field T i;
              cell ← encodeField str field;
              setIndex row i cell) order row.

(** The loop over the records [in], at record number [j]. *)
Fixpoint encodeRecords (T : rtype) (o : range_oracle nat string) (header : gmap nat string)
    (width : nat) (j : nat) (records : list (list Value)) (out : list (list string))
  : result (list (list string)) :=
  match records with
  | [] => Ok out
  | r :: rest =>
      row ← encodeRow T (o (S j) header) r (replicate width "");
      encodeRecords T o header width (S j) rest (out ++ [row])
  end.

Definition WriteFromStruct (T : rtype) (o : range_oracle nat string)
    (records : list (list Value)) : result (list (list string)) :=
  header ← getStructTagForHeader T;
  headRow ← fillHeader (o 0 header) (replicate (size header) "");
  encodeRecords T o header (length headRow) 0 records [headRow].

End csvutil.

(* ===================================================================== *)
(** * Package encoding/csv (as csvutil configures it)                     *)
(* ===================================================================== *)

(** csvutil reads with [csv.NewReader(f).ReadAll()] and writes with
    [csv.NewWriter(f).WriteAll(rows)]: the field separator is a comma,
    there is no comment character, quotes are strict, leading space is
    kept, records end with a line feed, and the number of fields of the
    first record is required of every record. The package belongs to
    the Go standard library; the definitions follow its source for these
    settings. Lines and buffers are byte slices. The [io.Reader] the CSV
    reader reads from is given by the bytes it delivers and by the error
    that ends them: [io.EOF], or an error of reading. *)

Module csv.

Definition bytes := list ascii.

Definition quote : ascii := "034"%char.
Definition LF : ascii := "010"%char.
Definition CR : ascii := "013"%char.
Definition Comma : ascii := ","%char.

(** ** Writer *)

Definition RuneError : N := 65533.

(** A continuation byte within [lo..hi]: its six payload bits. *)
Definition continuation (lo hi : N) (c : ascii) : option N :=
  let n := N_of_ascii c in
  if ((lo <=? n) && (n <=? hi))%N then Some (N.land n 63) else None.

(** [utf8.DecodeRune]: the first rune of [s], [RuneError] when [s] is
    empty or does not start with a well-formed UTF-8 sequence. *)
Definition DecodeRune (s : bytes) : N :=
  match s with
  | [] => RuneError
  | c0 :: rest =>
      let s0 := N_of_ascii c0 in
      if (s0 <? 128)%N then s0
      else if ((s0 <? 194) || (244 <? s0))%N then RuneError
      else if (s0 <? 224)%N then
        match rest with
        | s1 :: _ =>
            match continuation 128 191 s1 with
            | Some x1 => N.lor (N.shiftl (N.land s0 31) 6) x1
            | None => RuneError
            end
        | _ => RuneError
        end
      else if (s0 <? 240)%N then
        let lo := if (s0 =? 224)%N then 160%N else 128%N in
        let hi := if (s0 =? 237)%N then 159%N else 191%N in
        match rest with
        | s1 :: s2 :: _ =>
            match continuation lo hi s1, continuation 128 191 s2 with
            | Some x1, Some x2 =>
                N.lor (N.shiftl (N.land s0 15) 12) (N.lor (N.shiftl x1 6) x2)
            | _, _ => RuneError
            end
        | _ => RuneError
        end
      else
        let lo := if (s0 =? 240)%N then 144%N else 128%N in
        let hi := if (s0 =? 244)%N then 143%N else 191%N in
        match rest with
        | s1 :: s2 :: s3 :: _ =>
            match continuation lo hi s1, continuation 128 191 s2, continuation 128 191 s3 with
            | Some x1, Some x2, Some x3 =>
                N.lor (N.shiftl (N.land s0 7) 18)
                  (N.lor (N.shiftl x1 12) (N.lor (N.shiftl x2 6) x3))
            | _, _, _ => RuneError
            end
        | _ => RuneError
        end
  end.

(** [unicode.IsSpace]. *)
Definition IsSpace (r : N) : bool :=
  if (r <=? 255)%N then
    bool_decide (r ∈ [9; 10; 11; 12; 13; 32; 133; 160]%N)
  else
    bool_decide (r = 5760%N) || ((8192 <=? r) && (r <=? 8202))%N
    || bool_decide (r ∈ [8232; 8233; 8239; 8287; 12288]%N).

(** [Writer.fieldNeedsQuotes]. *)
Definition fieldNeedsQuotes (field : string) : bool :=
  if decide (field = "") then false
  else if decide (field = "\.") then true
  else if existsb (λ c, bool_decide (c = LF ∨ c = CR ∨ c = quote ∨ c = Comma))
            (list_ascii_of_string field) then true
  else IsSpace (DecodeRune (list_ascii_of_string field)).

(** The bytes written between the quotes of a quoted field: a quote is
    doubled, every other byte is written as it is. *)
Fixpoint quoteBody (field : bytes) : bytes :=
  match field with
  | [] => []
  | c :: rest => if decide (c = quote) then quote :: quote :: quoteBody rest
                 else c :: quoteBody rest
  end.

Definition writeField (field : string) : bytes :=
  if fieldNeedsQuotes field then quote :: quoteBody (list_ascii_of_string field) ++ [quote]
  else list_ascii_of_string field.

(** The fields of a record from field [n] on, a comma before every field
    but the first. *)
Fixpoint writeFields (n : nat) (record : list string) : bytes :=
  match record with
  | [] => []
  | field :: rest =>
      (if decide (0 < n) then [Comma] else []) ++ writeField field ++ writeFields (S n) rest
  end.

(** [Writer.Write]: the bytes of one record. *)
Definition Write (record : list string) : bytes := writeFields 0 record ++ [LF].

(** [Writer.WriteAll]: the bytes of all records, flushed. *)
Definition WriteAll (records : list (list string)) : bytes := concat (Write <$> records).

(** ** Reader *)

Inductive csvError := ErrBareQuote | ErrQuote | ErrFieldCount.

(** [csv.ParseError]. *)
Record ParseError := mkParseError {
  StartLine : nat;
  Line : nat;
  Column : nat;
  Err_ : csvError
}.

Definition csvError_Error (e : csvError) : string :=
  match e with
  | ErrBareQuote => "bare " +:+ String quote " in non-quoted-field"
  | ErrQuote => "extraneous or missing " +:+ String quote " in quoted-field"
  | ErrFieldCount => "wrong number of fields"
  end.

Definition itoa (n : nat) : string := strconv.decimal (N.of_nat n).

(** [ParseError.Error()]. *)
Definition ParseError_Error (e : ParseError) : string :=
  match Err_ e with
  | ErrFieldCount => "record on line " +:+ itoa (Line e) +:+ ": " +:+ csvError_Error (Err_ e)
  | _ =>
      if decide (StartLine e ≠ Line e) then
        "record on line " +:+ itoa (StartLine e) +:+ "; parse error on line "
        +:+ itoa (Line e) +:+ ", column " +:+ itoa (Column e) +:+ ": " +:+ csvError_Error (Err_ e)
      else
        "parse error on line " +:+ itoa (Line e) +:+ ", column " +:+ itoa (Column e)
        +:+ ": " +:+ csvError_Error (Err_ e)
  end.

(** The errors the reader meets: [io.EOF], a [*ParseError] of its own,
    and any other error of the [io.Reader] it reads from, which it
    passes on as it is; that one is carried as its message. *)
Inductive error :=
| EOF
| Parse (e : ParseError)
| Other (msg : string).

(** [err.Error()]. *)
Definition Error (e : error) : string :=
  match e with
  | EOF => "EOF"
  | Parse e => ParseError_Error e
  | Other msg => msg
  end.

Definition isEOF (err : option error) : bool :=
  match err with
  | Some EOF => true
  | _ => false
  end.

(** The reader: the bytes the [io.Reader] has yet to deliver, the error
    that ends them ([None]: [io.EOF]), the number of lines read, and the
    number of fields required of a record (0: not set yet). *)
Record Reader := mkReader {
  input : bytes;
  fault : option string;
  numLine : nat;
  FieldsPerRecord : nat
}.

(** [NewReader] on an [io.Reader] that delivers [f] and then ends with
    [fault]. *)
Definition NewReader (f : bytes) (fault : option string) : Reader := mkReader f fault 0 0.

(** [bufio.Reader.ReadSlice('\n')]: the bytes up to and including the
    first line feed, the bytes after it, and whether there was one. When
    there is none the bytes left are returned with the error that ends
    the input. *)
Fixpoint ReadSlice (s : bytes) : bytes * bytes * bool :=
  match s with
  | [] => ([], [], false)
  | c :: rest =>
      if decide (c = LF) then ([c], rest, true)
      else let '(line, rest', found) := ReadSlice rest in (c :: line, rest', found)
  end.

(** [lengthNL]: 1 when the line ends with a line feed. *)
Definition lengthNL (b : bytes) : nat :=
  match last b with
  | Some c => if decide (c = LF) then 1 else 0
  | None => 0
  end.

(** [Reader.readLine]: the next line, the error ([io.EOF] at the end of
    the input, or the error that ends it), and the reader afterwards. A
    last line without a line feed before [io.EOF] is no error yet, and a
    carriage return at its end is dropped; a line ending [\r\n] is made
    to end [\n]. *)
Definition readLine (r : Reader) : bytes * option error * Reader :=
  let '(line, rest, found) := ReadSlice (input r) in
  let err : option error :=
    if found then None
    else Some (match fault r with Some msg => Other msg | None => EOF end) in
  let readSize := length line in
  let '(line, err) :=
    if decide (0 < readSize ∧ isEOF err = true) then
      (if decide (last line = Some CR) then take (readSize - 1) line else line, None)
    else (line, err) in
  let r := mkReader rest (fault r) (S (numLine r)) (FieldsPerRecord r) in
  let n := length line in
  let line :=
    if decide (2 ≤ n ∧ line !! (n - 2) = Some CR ∧ line !! (n - 1) = Some LF)
    then take (n - 2) line ++ [LF] else line in
  (line, err, r).

(** [bytes.IndexByte]. *)
Fixpoint IndexByte (b : bytes) (c : ascii) : option nat :=
  match b with
  | [] => None
  | x :: rest => if decide (x = c) then Some 0 else S <$> IndexByte rest c
  end.

Record position := mkPosition { line_ : nat; col : nat }.

(** How the loop over a quoted field ends: at a comma (the record goes
    on), at the end of the line or of the input (the record ends with
    this field), at a read error met before (the record ends, and the
    bytes of the field are left out), or with a parse error. [errRead]
    is the read error met so far. *)
Inductive quoted :=
| NextField (line : bytes) (pos : position) (r : Reader) (errRead : option error)
    (field : bytes)
| EndRecord (r : Reader) (errRead : option error) (field : bytes)
| Abandoned (r : Reader) (errRead : option error)
| BadQuote (r : Reader) (e : ParseError).

(** The loop of [readRecord] over a quoted field, after its opening
    quote. [fuel] bounds the number of iterations. *)
Fixpoint quotedField (fuel : nat) (recLine : nat) (r : Reader) (errRead : option error)
    (line : bytes) (pos : position) (buf : bytes) : option quoted :=
  match fuel with
  | 0 => None
  | S fuel =>
      match IndexByte line quote with
      | Some i =>
          (* Hit next quote. *)
          let buf := buf ++ take i line in
          let line := drop (i + 1) line in
          let pos := mkPosition (line_ pos) (col pos + (i + 1)) in
          if decide (head line = Some quote) then
            (* a doubled quote: append a quote *)
            quotedField fuel recLine r errRead (drop 1 line)
              (mkPosition (line_ pos) (col pos + 1)) (buf ++ [quote])
          else if decide (head line = Some Comma) then
            (* end of field *)
            Some (NextField (drop 1 line) (mkPosition (line_ pos) (col pos + 1)) r errRead buf)
          else if decide (lengthNL line = length line) then
            (* end of line *)
            Some (EndRecord r errRead buf)
          else
            (* a quote that is not escaped *)
            Some (BadQuote r (mkParseError recLine (numLine r) (col pos - 1) ErrQuote))
      | None =>
          if decide (0 < length line) then
            (* Hit end of line (copy all data so far). *)
            let buf := buf ++ line in
            match errRead with
            | Some _ => Some (Abandoned r errRead)
            | None =>
                let pos := mkPosition (line_ pos) (col pos + length line) in
                let '(line, err, r) := readLine r in
                let pos :=
                  if decide (0 < length line) then mkPosition (S (line_ pos)) 1 else pos in
                let errRead := if isEOF err then None else err in
                quotedField fuel recLine r errRead line pos buf
            end
          else
            (* Abrupt end of file (EOF or error). *)
            match errRead with
            | None => Some (BadQuote r (mkParseError recLine (line_ pos) (col pos) ErrQuote))
            | Some _ => Some (EndRecord r errRead buf)
            end
      end
  end.

(** The loop [parseField] of [readRecord]: the fields of the record that
    starts with [line], appended to [dst], and the error of the record:
    a parse error, or else the read error met. *)
Fixpoint parseField (fuel : nat) (recLine : nat) (r : Reader) (errRead : option error)
    (line : bytes) (pos : position) (dst : list string)
  : option (Reader * list string * option error) :=
  match fuel with
  | 0 => None
  | S fuel =>
      if decide (head line ≠ Some quote) then
        (* Non-quoted string field *)
        let i := IndexByte line Comma in
        let field :=
          match i with
          | Some i => take i line
          | None => take (length line - lengthNL line) line
          end in
        match IndexByte field quote with
        | Some j =>
            Some (r, dst,
                  Some (Parse (mkParseError recLine (numLine r) (col pos + j) ErrBareQuote)))
        | None =>
            let dst := dst ++ [string_of_list_ascii field] in
            match i with
            | Some i =>
                parseField fuel recLine r errRead (drop (i + 1) line)
                  (mkPosition (line_ pos) (col pos + (i + 1))) dst
            | None => Some (r, dst, errRead)
            end
        end
      else
        (* Quoted string field *)
        match quotedField fuel recLine r errRead (drop 1 line)
                (mkPosition (line_ pos) (col pos + 1)) [] with
        | None => None
        | Some (NextField line pos r errRead field) =>
            parseField fuel recLine r errRead line pos (dst ++ [string_of_list_ascii field])
        | Some (EndRecord r errRead field) =>
            Some (r, dst ++ [string_of_list_ascii field], errRead)
        | Some (Abandoned r errRead) => Some (r, dst, errRead)
        | Some (BadQuote r e) => Some (r, dst, Some (Parse e))
        end
  end.

(** The first loop of [readRecord]: lines are read until one is not
    empty or an error is met. *)
Fixpoint nextLine (fuel : nat) (r : Reader) : option (bytes * option error * Reader) :=
  match fuel with
  | 0 => None
  | S fuel =>
      let '(line, errRead, r) := readLine r in
      if decide (errRead = None ∧ length line = lengthNL line) then nextLine fuel r
      else Some (line, errRead, r)
  end.

(** [Reader.readRecord]. *)
Definition readRecord (fuel : nat) (r : Reader)
  : option (Reader * list string * option error) :=
  match nextLine fuel r with
  | None => None
  | Some (line, errRead, r) =>
      if isEOF errRead then Some (r, [], Some EOF)
      else
        let recLine := numLine r in
        match parseField fuel recLine r errRead line (mkPosition (numLine r) 1) [] with
        | None => None
        | Some (r, dst, err) =>
            if decide (0 < FieldsPerRecord r) then
              if decide (length dst ≠ FieldsPerRecord r ∧ err = None) then
                Some (r, dst, Some (Parse (mkParseError recLine recLine 1 ErrFieldCount)))
              else Some (r, dst, err)
            else
              Some (mkReader (input r) (fault r) (numLine r) (length dst), dst, err)
        end
  end.

(** The loop of [Reader.ReadAll]. *)
Fixpoint readAllLoop (fuel : nat) (r : Reader) (records : list (list string))
  : option (error + list (list string)) :=
  match fuel with
  | 0 => None
  | S fuel =>
      match readRecord fuel r with
      | None => None
      | Some (_, _, Some EOF) => Some (inr records)
      | Some (_, _, Some e) => Some (inl e)
      | Some (r, record, None) => readAllLoop fuel r (records ++ [record])
      end
  end.

(** [NewReader(f).ReadAll()] on an [io.Reader] that delivers the bytes
    [f] and then ends with [fault]. Every iteration of every loop takes
    at least one byte off the input, so the bound on the number of
    iterations is never met ([csv_facts.ReadAll_loop]). *)
Definition ReadAll (f : bytes) (fault : option string) : error + list (list string) :=
  default (inr []) (readAllLoop (length f + 2) (NewReader f fault) []).

End csv.

(* ===================================================================== *)
(** * Package os (the calls csvutil makes)                                *)
(* ===================================================================== *)

(** The file system as csvutil meets it: regular files, by path, with
    their bytes. What the system answers beyond that to the calls of one
    run is given by [answers]: the error of [os.Open], the error that
    ends the reading of the file and the number of bytes read before it,
    the error of [os.Create], and the error of writing with the number
    of bytes that reached the file before it. Errors are carried as
    their message. *)

Module os.

Abbreviation FS := (gmap string csv.bytes).

(** The message of a [*fs.PathError]. *)
Definition PathError (op path err : string) : string :=
  op +:+ " " +:+ path +:+ ": " +:+ err.

Record answers := mkAnswers {
  openErr : option string;
  readErr : option (nat * string);
  createErr : option string;
  writeErr : option string;
  written : nat
}.

(** The system without a failure. *)
Definition succeed : answers := mkAnswers None None None None 0.

(** [os.Open]: the message of its error, or the file as an [io.Reader]:
    the bytes it delivers and the error that ends them ([None]:
    [io.EOF]). The call fails with the error the system answers, if
    any, and on a path that names no file. *)
Definition Open (sys : answers) (fs : FS) (name : string)
  : string + (csv.bytes * option string) :=
  match openErr sys with
  | Some err => inl (PathError "open" name err)
  | None =>
      match fs !! name with
      | None => inl (PathError "open" name "no such file or directory")
      | Some f =>
          match readErr sys with
          | Some (n, err) => inr (take n f, Some (PathError "read" name err))
          | None => inr (f, None)
          end
      end
  end.

End os.

(* ===================================================================== *)
(** * csvutil on files                                                    *)
(* ===================================================================== *)

Module csvfile.
Import reflect csvutil.

(** The error a call returns: one made by csvutil, or the error of [os]
    or of the CSV writer returned as it is. *)
Inductive failure :=
| Returned (e : csvutil.error)
| System (msg : string).

(** [readFileToArr(filename)]: the file is opened and all its records
    are read; an error of either step is wrapped in a message. *)
Definition readFileToArr (sys : os.answers) (fs : os.FS) (filename : string)
  : result (list (list string)) :=
  match os.Open sys fs filename with
  | inl err => Err (ErrUnableToReadFile err)
  | inr (f, fault) =>
      match csv.ReadAll f fault with
      | inl err => Err (ErrUnableToParse (csv.Error err))
      | inr records => Ok records
      end
  end.

(** [ReadToStruct(filename)]: [csvutil.ReadToStruct] on what
    [readFileToArr] returns for the file. *)
Definition ReadToStruct (T : rtype) (o : range_oracle string nat) (sys : os.answers)
    (fs : os.FS) (filename : string) : result (list (list Value)) :=
  csvutil.ReadToStruct T o (readFileToArr sys fs filename).

(** [WriteFromStruct(filename, in)]: the file system afterwards, the
    lines printed, and the outcome. The rows are built first; the file is
    created, and truncated, only then. *)
Definition WriteFromStruct (T : rtype) (o : range_oracle nat string) (sys : os.answers)
    (fs : os.FS) (filename : string) (records : list (list Value))
  : os.FS * list string * outcome failure unit :=
  match csvutil.WriteFromStruct T o records with
  | Err e => (fs, [], Err (Returned e))
  | Panic p => (fs, [], Panic p)
  | Ok out =>
      match os.createErr sys with
      | Some err => (fs, ["Unable to write file " +:+ err], Err (System err))
      | None =>
          match os.writeErr sys with
          | Some err =>
              (<[filename := take (os.written sys) (csv.WriteAll out)]> fs,
               ["write error " +:+ err], Err (System err))
          | None => (<[filename := csv.WriteAll out]> fs, [], Ok tt)
          end
      end
  end.

End csvfile.

(* ===================================================================== *)
(** * Record types used in the examples                                   *)
(* ===================================================================== *)

Module examples.
Import reflect.

(** The record type of the end-to-end example of the specification:
    [Name string `col:"name"`; Active bool `col:"active"`]. *)
Definition Person : rtype :=
  mkType "Person" KStruct
    [ mkField "Name" "" KString [("col", "name")];
      mkField "Active" "" KBool [("col", "active")] ].

End examples.

Module widths.
Import reflect.

(** [type Small struct { N int8 `col:"n"` }] and
    [type Big struct { N int64 `col:"n"` }]. *)
Definition Small : rtype := mkType "Small" KStruct [mkField "N" "" KInt8 [("col", "n")]].
Definition Big : rtype := mkType "Big" KStruct [mkField "N" "" KInt64 [("col", "n")]].

End widths.

Module partial.
Import reflect.

(** [type SkipFirst struct { Skip int; Name string `col:"name"` }] and the
    same fields in the other order. *)
Definition SkipFirst : rtype :=
  mkType "SkipFirst" KStruct
    [mkField "Skip" "" KInt []; mkField "Name" "" KString [("col", "name")]].
Definition SkipLast : rtype :=
  mkType "SkipLast" KStruct
    [mkField "Name" "" KString [("col", "name")]; mkField "Skip" "" KInt []].

End partial.

Module dupes.
Import reflect.

(** [type Two struct { A string `col:"a"`; B string `col:"b"` }]. *)
Definition Two : rtype :=
  mkType "Two" KStruct
    [mkField "A" "" KString [("col", "a")]; mkField "B" "" KString [("col", "b")]].

End dupes.

Module pairs.
Import reflect.

(** [type Pair struct { A string `col:"x"`; B string `col:"x"` }]. *)
Definition Pair : rtype :=
  mkType "Pair" KStruct
    [mkField "A" "" KString [("col", "x")]; mkField "B" "" KString [("col", "x")]].

End pairs.

Module hidden.
Import reflect.

(** [type Secret struct { code int `col:"code"` }] of package [main]: the
    field is not exported. *)
Definition Secret : rtype :=
  mkType "Secret" KStruct [mkField "code" "main" KInt [("col", "code")]].

End hidden.

Module readings.
Import reflect.

(** [type Reading struct {
       Id int32 `col:"id"`; Level float64 `col:"level"`;
       Ok bool `col:"ok"`; Note string `col:"note"`; Cache int }]. *)
Definition Reading : rtype :=
  mkType "Reading" KStruct
    [ mkField "Id" "" KInt32 [("col", "id")];
      mkField "Level" "" KFloat64 [("col", "level")];
      mkField "Ok" "" KBool [("col", "ok")];
      mkField "Note" "" KString [("col", "note")];
      mkField "Cache" "" KInt [] ].

(** [Reading{Id: -5, Level: 6, Ok: true, Note: "x", Cache: 9}]. *)
Definition sample : list Value :=
  [VInt (-5); VFloat (strconv.FFinite false 3 1); VBool true; VString "x"; VInt 9].

End readings.

(* ===================================================================== *)
(** * Vocabulary of the properties                                        *)
(* ===================================================================== *)

Import reflect csvutil.

(** The [col] annotation of a field; the field takes part exactly when it
    is not empty. *)
Definition colOf (f : StructField) : string := Tag_Get (Tag f) "col".
Definition annotated (f : StructField) : Prop := colOf f ≠ "".

(** The greatest index at which [name] occurs in [l]. *)
Fixpoint lastIndex (name : string) (l : list string) : option nat :=
  match l with
  | [] => None
  | x :: rest =>
      match lastIndex name rest with
      | Some j => Some (S j)
      | None => if decide (x = name) then Some 0 else None
      end
  end.

(** The kinds the closure converts a cell to. *)
Definition convertible (k : Kind) : bool :=
  match k with
  | KBool | KInt | KInt8 | KInt16 | KInt32 | KInt64 | KFloat32 | KFloat64 | KString => true
  | _ => false
  end.

(** The value the closure stores into a field of kind [k] for the cell
    text [cell]; [None] when the text does not parse (or the kind is not
    convertible). *)
Definition stored (k : Kind) (cell : string) : option Value :=
  match k with
  | KBool =>
      match strconv.ParseBool cell with (b, None) => Some (VBool b) | _ => None end
  | KInt | KInt8 | KInt16 | KInt32 | KInt64 =>
      match intBits k, strconv.ParseInt cell 32 with
      | Some bits, (n, None) => Some (VInt (wrap bits n))
      | _, _ => None
      end
  | KFloat32 =>
      match strconv.ParseFloat cell 32 with
      | (f, None) => Some (VFloat (strconv.toFloat32 f))
      | _ => None
      end
  | KFloat64 =>
      match strconv.ParseFloat cell 64 with (f, None) => Some (VFloat f) | _ => None end
  | KString => Some (VString cell)
  | _ => None
  end.

(** The field index and the value an entry stores (for the entries that
    decode). *)
Definition entryIndex (T : rtype) (kv : string * nat) : nat :=
  match FieldByName T kv.1 with Some fld => Index fld | None => 0 end.

Definition entryValue (T : rtype) (row : list string) (kv : string * nat) : Value :=
  match FieldByName T kv.1, row !! kv.2 with
  | Some fld, Some cell => default VOther (stored (Kind_of fld) cell)
  | _, _ => VOther
  end.

(** The text [WriteFromStruct] produces for a field (the empty string
    where it produces none). *)
Definition cellText (str : list Value) (field : FieldRef) : string :=
  match encodeField str field with Ok cell => cell | _ => "" end.

(** The cells of the first [n] fields of the record [r]. *)
Definition rowText (T : rtype) (n : nat) (r : list Value) : list string :=
  imap (λ i f, cellText r (mkFieldRef i f)) (take n (Fields T)).

(** The annotated fields of [T] are exactly its first [n] fields. *)
Definition annotatedPrefix (T : rtype) (n : nat) : Prop :=
  n ≤ length (Fields T) ∧ ∀ j f, Fields T !! j = Some f → (annotated f ↔ j < n).

(** The field whose annotation decides the binding of the name [k]: the
    last annotated field of that name. *)
Fixpoint boundField (k : string) (flds : list StructField) : option StructField :=
  match flds with
  | [] => None
  | f :: rest =>
      match boundField k rest with
      | Some g => Some g
      | None => if decide (colOf f ≠ "" ∧ Name f = k) then Some f else None
      end
  end.

(** The cell a binding selects for the name [k]: [None] when [k] is not
    bound, [Some None] when its index is out of range for the row. *)
Definition cellAt (colDef : gmap string nat) (row : list string) (k : string)
  : option (option string) :=
  (λ v, row !! v) <$> colDef !! k.

(** The record a successful decode returns: a field holds its converted
    cell when its name is bound (and it is the field [FieldByName] finds
    for that name), its zero value otherwise. *)
Definition specRecord (T : rtype) (colDef : gmap string nat) (row : list string)
  : list Value :=
  imap (λ j f,
          match cellAt colDef row (Name f), FieldByName T (Name f) with
          | Some (Some cell), Some fld =>
              if decide (Index fld = j)
              then default VOther (stored (Kind_of fld) cell)
              else Zero (FieldKind f)
          | _, _ => Zero (FieldKind f)
          end) (Fields T).

(** The name [c] occurs at exactly one index of the header. *)
Definition occursOnce (c : string) (header : list string) : Prop :=
  ∃ i, header !! i = Some c ∧ ∀ j, header !! j = Some c → j = i.

(** [n] is the integer nearest to [m · 2^e], the even one of the two when
    [m · 2^e] lies half-way between two integers. *)
Definition nearestInteger (m : positive) (e n : Z) : Prop :=
  (0 ≤ n)%Z
  ∧ if (0 <=? e)%Z then n = (Zpos m * 2 ^ e)%Z
    else (2 * Z.abs (n * 2 ^ (- e) - Zpos m) ≤ 2 ^ (- e))%Z
         ∧ ((2 * Z.abs (n * 2 ^ (- e) - Zpos m))%Z = (2 ^ (- e))%Z → Z.even n = true).

(** The text of a float written with zero digits after the point. *)
Definition zeroDecimalText (x : strconv.float) (text : string) : Prop :=
  match x with
  | strconv.FNaN => text = "NaN"
  | strconv.FInf neg => text = if neg then "-Inf" else "+Inf"
  | strconv.FZero neg => text = strconv.signText neg +:+ "0"
  | strconv.FFinite neg m e =>
      ∃ n, nearestInteger m e n ∧ text = strconv.signText neg +:+ strconv.decimal (Z.to_N n)
  end.

(** The value of the digits of [s] read after [acc], up to the first byte
    that is not a digit. *)
Fixpoint digitsValue (acc : N) (s : string) : N :=
  match s with
  | EmptyString => acc
  | String c rest =>
      match strconv.digit c with
      | Some d => digitsValue (acc * 10 + d) rest
      | None => acc
      end
  end.

Fixpoint allDigits (s : string) : bool :=
  match s with
  | EmptyString => true
  | String c rest => match strconv.digit c with Some _ => allDigits rest | None => false end
  end.

(** The value of a decimal numeral read after [acc]. *)
Fixpoint uintValue (acc : N) (d : Decimal.uint) : N :=
  match d with
  | Decimal.Nil => acc
  | Decimal.D0 l => uintValue (acc * 10 + 0) l
  | Decimal.D1 l => uintValue (acc * 10 + 1) l
  | Decimal.D2 l => uintValue (acc * 10 + 2) l
  | Decimal.D3 l => uintValue (acc * 10 + 3) l
  | Decimal.D4 l => uintValue (acc * 10 + 4) l
  | Decimal.D5 l => uintValue (acc * 10 + 5) l
  | Decimal.D6 l => uintValue (acc * 10 + 6) l
  | Decimal.D7 l => uintValue (acc * 10 + 7) l
  | Decimal.D8 l => uintValue (acc * 10 + 8) l
  | Decimal.D9 l => uintValue (acc * 10 + 9) l
  end.

(** The float values that are their own rounding to an integer: the
    zeros, the infinities and the finite values without a fractional
    part. *)
Definition integral (x : strconv.float) : bool :=
  match x with
  | strconv.FNaN => false
  | strconv.FInf _ | strconv.FZero _ => true
  | strconv.FFinite _ _ e => (0 <=? e)%Z
  end.

(** The field values that are read back from their text: integers that
    fit 32 bits, floats with an integral value (a NaN is not read back as
    an equal value), and every boolean and string. *)
Definition survives (v : Value) : bool :=
  match v with
  | VInt z => inRange 32 z
  | VFloat x => integral x
  | _ => true
  end.

(** The record [r] with the fields after the first [n] at their zero
    value. *)
Definition keepAnnotated (T : rtype) (n : nat) (r : list Value) : list Value :=
  imap (λ i f, if decide (i < n) then default (Zero (FieldKind f)) (r !! i)
               else Zero (FieldKind f)) (Fields T).


(** ** Rows and bindings of the read path *)

(** Every entry of the binding finds a cell of the row that converts to
    the kind of an exported field. *)
Definition decodable (T : rtype) (colDef : gmap string nat) (row : list string) : Prop :=
  ∀ k v, colDef !! k = Some v →
    ∃ fld cell val, FieldByName T k = Some fld ∧ row !! v = Some cell
      ∧ stored (Kind_of fld) cell = Some val ∧ IsExported (Field_ fld) = true.

(** The setter the closure calls for a field of kind [k]. *)
Definition setterOf (k : Kind) : string :=
  match k with
  | KBool => "SetBool"
  | KInt | KInt8 | KInt16 | KInt32 | KInt64 => "SetInt"
  | KFloat32 | KFloat64 => "SetFloat"
  | _ => "SetString"
  end.

(** The float of the integer nearest to [x], ties to even; the sign of
    [x] is kept, also when the integer is zero. *)
Definition roundToInteger (x : strconv.float) : strconv.float :=
  match x with
  | strconv.FFinite neg m e =>
      if (0 <=? e)%Z then x
      else match strconv.rne (Zpos m) (2 ^ (- e)) with
           | Zpos n => let '(m', e') := strconv.odd_part n 0 in strconv.FFinite neg m' e'
           | _ => strconv.FZero neg
           end
  | _ => x
  end.

(** The value that is read back from the text written for [v]: a float
    comes back as the float of the nearest integer, every other value as
    it is. *)
Definition comesBack (v : Value) : Value :=
  match v with
  | VFloat x => VFloat (roundToInteger x)
  | _ => v
  end.

(** The record that is read back from the row written for [r]: the
    first [n] fields as they come back, the fields after them at their
    zero value. *)
Definition readBack (T : rtype) (n : nat) (r : list Value) : list Value :=
  imap (λ i f, if decide (i < n) then default (Zero (FieldKind f)) (comesBack <$> r !! i)
               else Zero (FieldKind f)) (Fields T).

(** [y] is [x] rounded to an integer: for a finite [x = ±m·2^e] the
    float, of the sign of [x], whose value is the integer nearest to
    [m·2^e], the even one of the two when [x] lies half-way between two
    integers; a zero, an infinity and a NaN are their own rounding. *)
Definition integerRounding (x y : strconv.float) : Prop :=
  match x with
  | strconv.FFinite neg m e =>
      ∃ n, nearestInteger m e n
        ∧ match y with
          | strconv.FFinite neg' m' e' =>
              neg' = neg ∧ (0 ≤ e')%Z ∧ n = (Zpos m' * 2 ^ e')%Z
          | strconv.FZero neg' => neg' = neg ∧ n = 0%Z
          | _ => False
          end
  | _ => y = x
  end.

(** The value [v] comes back as [v']: a float rounded to an integer,
    every other value as it is. *)
Definition comesBackAs (v v' : Value) : Prop :=
  match v with
  | VFloat x => ∃ y, v' = VFloat y ∧ integerRounding x y
  | _ => v' = v
  end.

(** The record [r] is read back as [r']: each of the first [n] fields
    as its value comes back, the fields after them at their zero
    value. *)
Definition readBackAs (T : rtype) (n : nat) (r r' : list Value) : Prop :=
  length r' = length (Fields T)
  ∧ ∀ i f, Fields T !! i = Some f →
      if decide (i < n)
      then ∃ v v', r !! i = Some v ∧ r' !! i = Some v' ∧ comesBackAs v v'
      else r' !! i = Some (Zero (FieldKind f)).

(** The error the closure returns for the cell text [cell] of a field of
    kind [k] bound under the name [name]; [None] when the cell converts. *)
Definition cellError (k : Kind) (name cell : string) : option error :=
  match k with
  | KInvalid => Some (ErrFieldTypeNotSupported name)
  | KBool =>
      match strconv.ParseBool cell with
      | (_, Some err) => Some (ErrFieldBoolInvalid name err)
      | _ => None
      end
  | KInt | KInt8 | KInt16 | KInt32 | KInt64 =>
      match strconv.ParseInt cell 32 with
      | (_, Some err) => Some (ErrFieldIntInvalid name err)
      | _ => None
      end
  | KFloat32 =>
      match strconv.ParseFloat cell 32 with
      | (_, Some err) => Some (ErrFieldBoolInvalid name err)
      | _ => None
      end
  | KFloat64 =>
      match strconv.ParseFloat cell 64 with
      | (_, Some err) => Some (ErrFieldBoolInvalid name err)
      | _ => None
      end
  | KString => None
  | _ => Some (ErrUnsupportType name)
  end.

(** [l] with [x] put in before index [p]. *)
Definition insertAt {A} (p : nat) (x : A) (l : list A) : list A := take p l ++ x :: drop p l.

(** Where the cell of index [v] is after that. *)
Definition shift (p v : nat) : nat := if decide (v < p) then v else S v.

(** ** Texts of CSV files *)

(** The records read so far all have the number of fields the reader
    requires. *)
Definition uniform (r : csv.Reader) (records : list (list string)) : Prop :=
  (csv.FieldsPerRecord r = 0 ∧ records = [])
  ∨ (0 < csv.FieldsPerRecord r
     ∧ Forall (λ rec, length rec = csv.FieldsPerRecord r) records).

(** No carriage return of [t] is directly followed by a line feed. *)
Fixpoint noCRLF (t : csv.bytes) : bool :=
  match t with
  | [] => true
  | c :: rest =>
      negb (bool_decide (c = csv.CR) && bool_decide (head rest = Some csv.LF)) && noCRLF rest
  end.

(** The text is empty or ends with a line feed, and has no carriage
    return before a line feed: the reader splits it at its line feeds and
    changes no line. *)
Definition clean (t : csv.bytes) : Prop :=
  noCRLF t = true ∧ (t = [] ∨ last t = Some csv.LF).

(** The text can be followed by any other such text. *)
Definition tidy (t : csv.bytes) : Prop := noCRLF t = true ∧ last t ≠ Some csv.CR.

(** A line as the reader delivers it from a clean text: it ends with a
    line feed and has no other. *)
Definition lineShape (line : csv.bytes) : Prop :=
  ∃ body, line = body ++ [csv.LF] ∧ csv.LF ∉ body.

(** The bytes of a field that is written without quotes. *)
Definition bare (c : ascii) : Prop :=
  c ≠ csv.LF ∧ c ≠ csv.CR ∧ c ≠ csv.quote ∧ c ≠ csv.Comma.

(** A record that is written as an empty line. *)
Definition blank (rec : list string) : Prop := rec = [] ∨ rec = [""].

#[global] Instance blank_dec rec : Decision (blank rec).
Proof. unfold blank. apply _. Defined.

(** The cell has no carriage return directly before a line feed. *)
Definition plainCell (cell : string) : Prop := noCRLF (list_ascii_of_string cell) = true.

(* ===================================================================== *)
(** * Worked examples                                                     *)
(* ===================================================================== *)

Example ParseInt_ex1 : strconv.ParseInt "-128" 32 = ((-128)%Z, None).
Proof. reflexivity. Qed.
Example ParseInt_ex2 : strconv.ParseInt "2147483648" 32
  = (2147483647%Z, Some (strconv.rangeError "ParseInt" "2147483648")).
Proof. reflexivity. Qed.
Example ParseInt_ex3 : strconv.ParseInt "12a" 32
  = (0%Z, Some (strconv.syntaxError "ParseInt" "12a")).
Proof. reflexivity. Qed.
Example ParseInt_ex4 : strconv.ParseInt "99999999999x" 32
  = (2147483647%Z, Some (strconv.rangeError "ParseInt" "99999999999x")).
Proof. reflexivity. Qed.
Example ParseInt_ex5 : strconv.ParseInt "-" 32
  = (0%Z, Some (strconv.syntaxError "ParseInt" "-")).
Proof. reflexivity. Qed.
Example FormatInt_ex1 : strconv.FormatInt (-40) = "-40".
Proof. reflexivity. Qed.
Example FormatInt_ex2 : strconv.FormatInt 0 = "0".
Proof. reflexivity. Qed.

Example FormatFloat_ex1 : strconv.FormatFloat_f (strconv.FFinite false 15 (-2)) 0 64 = "4".
Proof. reflexivity. Qed.
Example FormatFloat_ex2 : strconv.FormatFloat_f (strconv.FFinite true 5 (-1)) 0 64 = "-2".
Proof. reflexivity. Qed.
Example FormatFloat_ex3 : strconv.FormatFloat_f (strconv.FFinite true 5 (-1)) 2 64 = "-2.50".
Proof. reflexivity. Qed.
Example FormatFloat_ex4 : strconv.FormatFloat_f (strconv.FFinite false 1 (-5)) 3 32 = "0.031".
Proof. reflexivity. Qed.
Example ParseFloat_ex1 : strconv.ParseFloat "3.75" 64 = (strconv.FFinite false 15 (-2), None).
Proof. vm_compute. reflexivity. Qed.
Example ParseFloat_ex2 : strconv.ParseFloat "-1_0e-1" 64 = (strconv.FFinite true 1 0, None).
Proof. vm_compute. reflexivity. Qed.
Example ParseFloat_ex3 : strconv.ParseFloat "0x1.8p1" 32 = (strconv.FFinite false 3 0, None).
Proof. vm_compute. reflexivity. Qed.
Example ParseFloat_ex4 : strconv.ParseFloat "+InFinity" 32 = (strconv.FInf false, None).
Proof. vm_compute. reflexivity. Qed.
Example ParseFloat_ex5 : fst (strconv.ParseFloat "1e400" 64) = strconv.FInf false.
Proof. vm_compute. reflexivity. Qed.
Example ParseFloat_ex6 : snd (strconv.ParseFloat "1.5x" 64) <> None.
Proof. vm_compute. discriminate. Qed.
Example ParseFloat_ex7 : strconv.ParseFloat "0.1" 64 = (strconv.FFinite false 3602879701896397 (-55), None).
Proof. vm_compute. reflexivity. Qed.
Example ParseFloat_ex8 : strconv.ParseFloat "16777217" 32 = (strconv.FFinite false 1 24, None).
Proof. vm_compute. reflexivity. Qed.

(** A cell that is no number, in a float column: the error is the one
    of a bool field. *)
Example read_float_error :
  ReadToStruct readings.Reading in_key_order
    (Ok [["id"; "level"; "ok"; "note"]; ["1"; "high"; "true"; "x"]])
  = Err (ErrFieldBoolInvalid "Level" (strconv.syntaxError "ParseFloat" "high")).
Proof. vm_compute. reflexivity. Qed.

(** Digits beyond 32 bits followed by a byte that is no digit, in an
    integer column: the range is found out before the byte is met. *)
Example read_int_error :
  ReadToStruct readings.Reading in_key_order
    (Ok [["id"; "level"; "ok"; "note"]; ["99999999999x"; "2"; "true"; "x"]])
  = Err (ErrFieldIntInvalid "Id" (strconv.rangeError "ParseInt" "99999999999x")).
Proof. vm_compute. reflexivity. Qed.

Example read_example :
  ReadToStruct examples.Person in_key_order (Ok [["active"; "name"]; ["true"; "Ann"]; ["false"; "Bob"]])
  = Ok [[VString "Ann"; VBool true]; [VString "Bob"; VBool false]].
Proof. vm_compute. reflexivity. Qed.

Example write_example :
  WriteFromStruct examples.Person in_key_order [[VString "Ann"; VBool true]; [VString "Bob"; VBool false]]
  = Ok [["name"; "active"]; ["Ann"; "true"]; ["Bob"; "false"]].
Proof. vm_compute. reflexivity. Qed.


(** encoding/csv. Line ends [\r\n] and [\n], empty lines and a last line
    without a line end; quoted fields with a doubled quote, a comma and a
    line end inside; the messages of the errors. *)
Module csvtext.
Definition nl : string := String csv.LF "".
Definition cr : string := String csv.CR "".
Definition q : string := String csv.quote "".
Definition text (s : string) : csv.bytes := list_ascii_of_string s.
End csvtext.

Example ReadAll_ex1 :
  csv.ReadAll (csvtext.text ("a,b" +:+ csvtext.cr +:+ csvtext.nl +:+ csvtext.nl +:+ "1,2")) None
  = inr [["a"; "b"]; ["1"; "2"]].
Proof. vm_compute. reflexivity. Qed.
Example ReadAll_ex2 :
  csv.ReadAll (csvtext.text (csvtext.q +:+ "a " +:+ csvtext.q +:+ csvtext.q +:+ "b, c"
                             +:+ csvtext.nl +:+ "d" +:+ csvtext.q +:+ ",e" +:+ csvtext.nl)) None
  = inr [["a " +:+ csvtext.q +:+ "b, c" +:+ csvtext.nl +:+ "d"; "e"]].
Proof. vm_compute. reflexivity. Qed.
Example ReadAll_ex3 : csv.ReadAll [] None = inr [].
Proof. vm_compute. reflexivity. Qed.
Example ReadAll_ex4 :
  sum_map csv.Error id
    (csv.ReadAll (csvtext.text ("a,b" +:+ csvtext.nl +:+ "1" +:+ csvtext.nl)) None)
  = inl "record on line 2: wrong number of fields".
Proof. vm_compute. reflexivity. Qed.
Example ReadAll_ex5 :
  sum_map csv.Error id
    (csv.ReadAll (csvtext.text ("a " +:+ csvtext.q +:+ "b" +:+ csvtext.q)) None)
  = inl ("parse error on line 1, column 3: bare " +:+ csvtext.q +:+ " in non-quoted-field").
Proof. vm_compute. reflexivity. Qed.
Example ReadAll_ex6 :
  sum_map csv.Error id
    (csv.ReadAll (csvtext.text ("x,y" +:+ csvtext.nl +:+ csvtext.q +:+ "abc" +:+ csvtext.nl
                                +:+ "def")) None)
  = inl ("record on line 2; parse error on line 3, column 4: extraneous or missing "
         +:+ csvtext.q +:+ " in quoted-field").
Proof. vm_compute. reflexivity. Qed.

(** An error of reading ends the input: it is returned, and the records
    read before it are dropped; a parse error before it comes first. *)
Example ReadAll_ex7 :
  csv.ReadAll (csvtext.text ("a,b" +:+ csvtext.nl +:+ "1,")) (Some "read f: input/output error")
  = inl (csv.Other "read f: input/output error").
Proof. vm_compute. reflexivity. Qed.
Example ReadAll_ex8 :
  csv.ReadAll (csvtext.text ("a,b" +:+ csvtext.nl +:+ csvtext.q +:+ "1"))
    (Some "read f: input/output error")
  = inl (csv.Other "read f: input/output error").
Proof. vm_compute. reflexivity. Qed.
Example ReadAll_ex9 :
  sum_map csv.Error id
    (csv.ReadAll (csvtext.text ("a,b" +:+ csvtext.nl +:+ "1" +:+ csvtext.q))
       (Some "read f: input/output error"))
  = inl ("parse error on line 2, column 2: bare " +:+ csvtext.q +:+ " in non-quoted-field").
Proof. vm_compute. reflexivity. Qed.
Example WriteAll_ex1 :
  csv.WriteAll [["a"; "b c"; " d"; ""]; ["x,y"; "q" +:+ csvtext.q; "\."]; [""]; []]
  = csvtext.text ("a,b c," +:+ csvtext.q +:+ " d" +:+ csvtext.q +:+ "," +:+ csvtext.nl
                  +:+ csvtext.q +:+ "x,y" +:+ csvtext.q +:+ ","
                  +:+ csvtext.q +:+ "q" +:+ csvtext.q +:+ csvtext.q +:+ csvtext.q +:+ ","
                  +:+ csvtext.q +:+ "\." +:+ csvtext.q +:+ csvtext.nl
                  +:+ csvtext.nl +:+ csvtext.nl).
Proof. vm_compute. reflexivity. Qed.

(** csvutil on files. *)
Example read_missing_file :
  csvfile.ReadToStruct examples.Person in_key_order os.succeed ∅ "none.csv"
  = Err (ErrReadFile (ErrUnableToReadFile "open none.csv: no such file or directory")).
Proof. vm_compute. reflexivity. Qed.

Example read_refused_file :
  csvfile.ReadToStruct examples.Person in_key_order
    (os.mkAnswers (Some "permission denied") None None None 0)
    {[ "people.csv" := csvtext.text ("name,active" +:+ csvtext.nl) ]} "people.csv"
  = Err (ErrReadFile (ErrUnableToReadFile "open people.csv: permission denied")).
Proof. vm_compute. reflexivity. Qed.

Example read_directory :
  csvfile.ReadToStruct examples.Person in_key_order
    (os.mkAnswers None (Some (0, "is a directory")) None None 0)
    {[ "data" := [] ]} "data"
  = Err (ErrReadFile (ErrUnableToParse "read data: is a directory")).
Proof. vm_compute. reflexivity. Qed.

Example read_ragged_file :
  csvfile.ReadToStruct examples.Person in_key_order os.succeed
    {[ "people.csv" := csvtext.text ("name,active" +:+ csvtext.nl +:+ "Ann" +:+ csvtext.nl) ]}
    "people.csv"
  = Err (ErrReadFile (ErrUnableToParse "record on line 2: wrong number of fields")).
Proof. vm_compute. reflexivity. Qed.

Example write_file_example :
  csvfile.WriteFromStruct examples.Person in_key_order os.succeed ∅ "people.csv"
    [[VString "Ann, B"; VBool true]]
  = ({[ "people.csv" := csvtext.text ("name,active" +:+ csvtext.nl +:+ csvtext.q +:+ "Ann, B"
                                       +:+ csvtext.q +:+ ",true" +:+ csvtext.nl) ]},
     [], Ok tt).
Proof. vm_compute. reflexivity. Qed.

(* ===================================================================== *)
(** * Properties                                                          *)
(* ===================================================================== *)

(** ** Outcomes and loops *)

(** Run the binds of the outcome monad whose first computation is known. *)
Ltac bind_step := cbn [mbind outcome_mbind outcome_bind].

Section outcomes.
Context {E A S : Type}.

Lemma bind_Ok {B} (x : outcome E A) (f : A → outcome E B) b :
  x ≫= f = Ok b ↔ ∃ a, x = Ok a ∧ f a = Ok b.
Proof.
  destruct x; simpl; split; try (intros (? & ? & ?)); try discriminate; eauto.
  congruence.
Qed.

Lemma index_Panic (l : list A) (i : nat) :
  length l ≤ i → index (E := E) l i = Panic (IndexOutOfRange i (length l)).
Proof. intros H. unfold index. by rewrite (lookup_ge_None_2 l i H). Qed.

Lemma forRange_app (body : S → A → outcome E S) xs ys st :
  forRange body (xs ++ ys) st = forRange body xs st ≫= forRange body ys.
Proof.
  revert st. induction xs as [|x xs IH]; intros st; simpl; [done|].
  destruct (body st x); simpl; auto.
Qed.

(** A loop whose every step stores one value at one index. *)
Lemma forRange_inserts {V} (body : list V → A → outcome E (list V))
    (ix : A → nat) (vl : A → V) xs st :
  (∀ x str, x ∈ xs → body str x = Ok (<[ix x := vl x]> str)) →
  forRange body xs st = Ok (foldl (λ str x, <[ix x := vl x]> str) st xs).
Proof.
  revert st. induction xs as [|x xs IH]; intros st Hb; simpl; [done|].
  rewrite Hb by set_solver. simpl. apply IH. intros; apply Hb; set_solver.
Qed.

End outcomes.

Lemma foldl_insert_length {A V} (ix : A → nat) (vl : A → V) xs (st : list V) :
  length (foldl (λ str x, <[ix x := vl x]> str) st xs) = length st.
Proof.
  revert st. induction xs as [|x xs IH]; intros st; simpl; [done|].
  by rewrite IH, length_insert.
Qed.

Lemma foldl_insert_other {A V} (ix : A → nat) (vl : A → V) xs (st : list V) j :
  (∀ x, x ∈ xs → ix x ≠ j) →
  foldl (λ str x, <[ix x := vl x]> str) st xs !! j = st !! j.
Proof.
  revert st. induction xs as [|x xs IH]; intros st Hj; simpl; [done|].
  rewrite IH by (intros; apply Hj; set_solver).
  apply list_lookup_insert_ne, Hj. set_solver.
Qed.

Lemma foldl_insert_at {A V} (ix : A → nat) (vl : A → V) xs (st : list V) x :
  NoDup (ix <$> xs) → x ∈ xs → ix x < length st →
  foldl (λ str x, <[ix x := vl x]> str) st xs !! ix x = Some (vl x).
Proof.
  revert st. induction xs as [|y xs IH]; intros st Hnd Hx Hlt; [set_solver|].
  simpl. rewrite fmap_cons in Hnd. apply NoDup_cons in Hnd as [Hy Hnd].
  apply elem_of_cons in Hx as [->|Hx].
  - rewrite foldl_insert_other.
    + by apply list_lookup_insert_eq.
    + intros z Hz Heq. apply Hy. rewrite <- Heq. by apply list_elem_of_fmap_2.
  - apply IH; [done..|]. by rewrite length_insert.
Qed.

(** ** The header scan of getStructTags *)

Lemma lastIndex_is_Some name l i : l !! i = Some name → is_Some (lastIndex name l).
Proof.
  revert i. induction l as [|x l IH]; intros i Hi; [done|].
  simpl. destruct i as [|i]; simpl in Hi.
  - injection Hi as ->. destruct (lastIndex name l); [eauto|].
    rewrite decide_True by done. eauto.
  - destruct (IH i Hi) as [j ->]. eauto.
Qed.

Lemma lastIndex_Some name l j :
  lastIndex name l = Some j ↔ l !! j = Some name ∧ ∀ k, l !! k = Some name → k ≤ j.
Proof.
  revert j. induction l as [|x l IH]; intros j; simpl.
  - split; [done|]. by intros [? _].
  - destruct (lastIndex name l) as [i|] eqn:Hl.
    + destruct (IH i) as [[Hi Hmax] _]; [done|]. split.
      * intros [= <-]. split; [done|]. intros [|k] Hk; [lia|]. apply Hmax in Hk. lia.
      * intros [Hj Hmax']. f_equal. destruct j as [|j].
        -- specialize (Hmax' (S i) Hi). lia.
        -- simpl in Hj. specialize (Hmax' (S i) Hi). apply Hmax in Hj. lia.
    + assert (Hnone : ∀ k, l !! k ≠ Some name).
      { intros k Hk. apply lastIndex_is_Some in Hk as [? Hk]. congruence. }
      destruct (decide (x = name)) as [->|Hne]; split.
      * intros [= <-]. split; [done|]. intros [|k] Hk; [lia|]. by apply Hnone in Hk.
      * intros [Hj _]. destruct j; [done|]. by apply Hnone in Hj.
      * done.
      * intros [Hj _]. destruct j; simpl in Hj; [congruence|]. by apply Hnone in Hj.
Qed.

Lemma lastIndex_None name l : lastIndex name l = None ↔ name ∉ l.
Proof.
  split.
  - intros Hn Hin. apply list_elem_of_lookup in Hin as [i Hi].
    apply lastIndex_is_Some in Hi as [? Hi]. congruence.
  - intros Hn. destruct (lastIndex name l) as [j|] eqn:Hj; [|done].
    apply lastIndex_Some in Hj as [Hj _]. exfalso. apply Hn.
    apply list_elem_of_lookup. eauto.
Qed.

Lemma rangeHeader_lookup i colHeader colNum name :
  rangeHeader i colHeader colNum !! name =
    match lastIndex name colHeader with
    | Some j => Some (i + j)
    | None => colNum !! name
    end.
Proof.
  revert i colNum. induction colHeader as [|x l IH]; intros i colNum; simpl; [done|].
  rewrite IH. destruct (lastIndex name l) as [j|].
  - f_equal. lia.
  - destruct (decide (x = name)) as [->|Hne].
    + rewrite lookup_insert_eq. f_equal. lia.
    + by rewrite lookup_insert_ne.
Qed.

Lemma colNum_lookup colHeader name :
  rangeHeader 0 colHeader ∅ !! name = lastIndex name colHeader.
Proof. rewrite rangeHeader_lookup. destruct (lastIndex name colHeader); done. Qed.

(** ** The field loop of getStructTags *)

Lemma bindFields_Err colNum flds m e :
  bindFields colNum flds m = Err e →
  ∃ f, f ∈ flds ∧ annotated f ∧ colNum !! colOf f = None ∧ e = ErrColumnNotExist (colOf f).
Proof.
  revert m. induction flds as [|f flds IH]; intros m; simpl; [done|].
  fold (colOf f). destruct (decide (colOf f ≠ "")) as [Ha|Ha].
  - destruct (colNum !! colOf f) as [n|] eqn:Hc.
    + intros H. apply IH in H as (g & ? & ? & ? & ?). exists g. set_solver.
    + intros [= <-]. exists f. set_solver.
  - intros H. apply IH in H as (g & ? & ? & ? & ?). exists g. set_solver.
Qed.

Lemma bindFields_not_Panic colNum flds m p : bindFields colNum flds m ≠ Panic p.
Proof.
  revert m. induction flds as [|f flds IH]; intros m; simpl; [done|].
  destruct (decide _); [|done]. destruct (colNum !! _); done.
Qed.

Lemma bindFields_complete colNum flds m :
  (∀ f, f ∈ flds → annotated f → is_Some (colNum !! colOf f)) →
  is_Ok (bindFields colNum flds m).
Proof.
  revert m. induction flds as [|f flds IH]; intros m Hall; simpl; [by eexists|].
  fold (colOf f). destruct (decide (colOf f ≠ "")) as [Ha|Ha].
  - destruct (Hall f) as [n ->]; [set_solver|done|]. apply IH. intros; apply Hall; set_solver.
  - apply IH. intros; apply Hall; set_solver.
Qed.

(** What a successful field loop has put into the binding. *)
Lemma bindFields_Ok colNum flds m m' :
  bindFields colNum flds m = Ok m' →
  (∀ f, f ∈ flds → annotated f → is_Some (colNum !! colOf f) ∧ is_Some (m' !! Name f))
  ∧ (∀ k, is_Some (m !! k) → is_Some (m' !! k))
  ∧ (∀ k n, m' !! k = Some n →
       m !! k = Some n ∨ ∃ f, f ∈ flds ∧ annotated f ∧ Name f = k ∧ colNum !! colOf f = Some n).
Proof.
  revert m. induction flds as [|f flds IH]; intros m; simpl.
  - intros [= <-]. split_and!; [set_solver|done|eauto].
  - fold (colOf f). destruct (decide (colOf f ≠ "")) as [Ha|Ha].
    + destruct (colNum !! colOf f) as [n|] eqn:Hc; [|done].
      intros H. apply IH in H as (H1 & H2 & H3). split_and!.
      * intros g [->|Hg]%elem_of_cons Hag; [|by apply H1].
        split; [by rewrite Hc|]. apply H2. rewrite lookup_insert_eq. eauto.
      * intros k Hk. apply H2. destruct (decide (Name f = k)) as [->|].
        -- rewrite lookup_insert_eq. eauto.
        -- by rewrite lookup_insert_ne.
      * intros k n' Hk. apply H3 in Hk as [Hk|(g & ? & ? & ? & ?)].
        -- destruct (decide (Name f = k)) as [<-|Hne].
           ++ rewrite lookup_insert_eq in Hk. injection Hk as <-.
              right. exists f. set_solver.
           ++ rewrite lookup_insert_ne in Hk by done. by left.
        -- right. exists g. set_solver.
    + intros H. apply IH in H as (H1 & H2 & H3). split_and!.
      * intros g [->|Hg]%elem_of_cons Hag; [done|by apply H1].
      * done.
      * intros k n' Hk. apply H3 in Hk as [Hk|(g & ? & ? & ? & ?)]; [by left|].
        right. exists g. set_solver.
Qed.

(** With distinct field names the binding of a field is the column number
    of its own annotation. *)
Lemma bindFields_lookup colNum flds m m' f :
  bindFields colNum flds m = Ok m' → NoDup (Name <$> flds) → f ∈ flds → annotated f →
  m' !! Name f = colNum !! colOf f.
Proof.
  intros Hb Hnd Hf Ha. destruct (bindFields_Ok _ _ _ _ Hb) as (H1 & _ & _).
  revert m Hb Hnd Hf. induction flds as [|g flds IH]; intros m Hb Hnd Hf; [set_solver|].
  simpl in Hb. fold (colOf g) in Hb. rewrite fmap_cons in Hnd.
  apply NoDup_cons in Hnd as [Hg Hnd]. apply elem_of_cons in Hf as [->|Hf].
  - rewrite decide_True in Hb by done.
    destruct (colNum !! colOf g) as [n|] eqn:Hc; [|done].
    destruct (bindFields_Ok _ _ _ _ Hb) as (_ & _ & H3).
    assert (is_Some (m' !! Name g)) as [n' Hn'].
    { destruct (bindFields_Ok _ _ _ _ Hb) as (_ & H2 & _). apply H2.
      rewrite lookup_insert_eq. eauto. }
    rewrite Hn'. apply H3 in Hn' as [Hn'|(h & Hh & _ & Hname & _)].
    + rewrite lookup_insert_eq in Hn'. congruence.
    + exfalso. apply Hg. rewrite <- Hname. by apply list_elem_of_fmap_2.
  - destruct (decide (colOf g ≠ "")).
    + destruct (colNum !! colOf g); [|done]. eapply IH; eauto.
      intros; apply H1; set_solver.
    + eapply IH; eauto. intros; apply H1; set_solver.
Qed.

Lemma getStructTags_struct T colHeader :
  TypeKind T = KStruct →
  getStructTags T colHeader = bindFields (rangeHeader 0 colHeader ∅) (Fields T) ∅.
Proof.
  intros HT. unfold getStructTags, NumField. rewrite HT.
  rewrite decide_False by (intros [? _]; done). rewrite decide_True by done.
  simpl. by rewrite firstn_all.
Qed.

(** C6. In the column-name-to-index map that [getStructTags] builds from
    the header row, a column name that occurs at more than one index is
    mapped to the index of its last occurrence; and a field annotated with
    that name is bound to that index. *)
Theorem colNum_last_occurrence_wins (colHeader : list string) (name : string) (i j : nat) :
  i < j → colHeader !! i = Some name → colHeader !! j = Some name →
  ∃ last,
    rangeHeader 0 colHeader ∅ !! name = Some last
    ∧ colHeader !! last = Some name
    ∧ (∀ k, colHeader !! k = Some name → k ≤ last)
    ∧ (∀ T m f, TypeKind T = KStruct → NoDup (Name <$> Fields T) →
         getStructTags T colHeader = Ok m → f ∈ Fields T → colOf f = name → name ≠ "" →
         m !! Name f = Some last).
Proof.
  intros _ Hi _. rewrite colNum_lookup.
  destruct (lastIndex_is_Some _ _ _ Hi) as [last Hlast]. exists last.
  pose proof Hlast as [Hl Hmax]%lastIndex_Some. split_and!; [done..|].
  intros T m f HT Hnd Hm Hf Hcol Hne. rewrite getStructTags_struct in Hm by done.
  rewrite (bindFields_lookup _ _ _ _ f Hm Hnd Hf) by (unfold annotated; congruence).
  by rewrite colNum_lookup, Hcol.
Qed.

Lemma colNum_last_occurrence_wins_witness :
  let colHeader := ["a"; "b"; "a"; "c"] in
  0 < 2 ∧ colHeader !! 0 = Some "a" ∧ colHeader !! 2 = Some "a" ∧
  ∃ last,
    rangeHeader 0 colHeader ∅ !! "a" = Some last
    ∧ colHeader !! last = Some "a"
    ∧ (∀ k, colHeader !! k = Some "a" → k ≤ last)
    ∧ (∀ T m f, TypeKind T = KStruct → NoDup (Name <$> Fields T) →
         getStructTags T colHeader = Ok m → f ∈ Fields T → colOf f = "a" → "a" ≠ "" →
         m !! Name f = Some last).
Proof.
  split_and!; [lia|reflexivity|reflexivity|].
  apply (colNum_last_occurrence_wins ["a"; "b"; "a"; "c"] "a" 0 2); [lia|reflexivity|reflexivity].
Defined.

(** C5. For a struct type, header binding fails with the column-not-found
    error exactly when some annotated column name is absent from the
    header row; it never panics; and it ends either with that error or
    with a binding that has an entry for every annotated field (and
    entries for annotated fields only, each an index of the header holding
    the field's column name). *)
Theorem getStructTags_all_or_nothing (T : rtype) (colHeader : list string) :
  TypeKind T = KStruct →
  ((∃ col, getStructTags T colHeader = Err (ErrColumnNotExist col))
     ↔ (∃ f, f ∈ Fields T ∧ annotated f ∧ colOf f ∉ colHeader))
  ∧ ((∃ col, getStructTags T colHeader = Err (ErrColumnNotExist col) ∧ col ∉ colHeader)
     ∨ (∃ m, getStructTags T colHeader = Ok m
          ∧ (∀ f, f ∈ Fields T → annotated f → is_Some (m !! Name f))
          ∧ (∀ k n, m !! k = Some n →
               ∃ f, f ∈ Fields T ∧ annotated f ∧ Name f = k ∧ colHeader !! n = Some (colOf f)))).
Proof.
  intros HT. rewrite getStructTags_struct by done.
  set (colNum := rangeHeader 0 colHeader ∅).
  assert (Hcol : ∀ c, colNum !! c = None ↔ c ∉ colHeader).
  { intros c. unfold colNum. rewrite colNum_lookup. apply lastIndex_None. }
  destruct (bindFields colNum (Fields T) ∅) as [m|e|p] eqn:Hb.
  - pose proof (bindFields_Ok _ _ _ _ Hb) as (H1 & _ & H3). split.
    + split; [by intros [? ?]|]. intros (f & Hf & Ha & Habs).
      destruct (H1 f Hf Ha) as [[n Hn] _]. apply Hcol in Habs. congruence.
    + right. exists m. split_and!; [done| |].
      * intros f Hf Ha. by apply H1.
      * intros k n Hk. apply H3 in Hk as [Hk|(f & Hf & Ha & Hname & Hn)]; [done|].
        exists f. split_and!; [done..|].
        unfold colNum in Hn. rewrite colNum_lookup in Hn.
        by apply lastIndex_Some in Hn as [? _].
  - apply bindFields_Err in Hb as (f & Hf & Ha & Hn & ->). split.
    + split; [|by eauto]. intros _. exists f. split_and!; [done..|]. by apply Hcol.
    + left. exists (colOf f). split; [done|]. by apply Hcol.
  - by apply bindFields_not_Panic in Hb.
Qed.

Lemma getStructTags_all_or_nothing_witness :
  let T := examples.Person in
  let colHeader := ["active"; "id"; "name"] in
  TypeKind T = KStruct ∧
  ((∃ col, getStructTags T colHeader = Err (ErrColumnNotExist col))
     ↔ (∃ f, f ∈ Fields T ∧ annotated f ∧ colOf f ∉ colHeader))
  ∧ ((∃ col, getStructTags T colHeader = Err (ErrColumnNotExist col) ∧ col ∉ colHeader)
     ∨ (∃ m, getStructTags T colHeader = Ok m
          ∧ (∀ f, f ∈ Fields T → annotated f → is_Some (m !! Name f))
          ∧ (∀ k n, m !! k = Some n →
               ∃ f, f ∈ Fields T ∧ annotated f ∧ Name f = k ∧ colHeader !! n = Some (colOf f)))).
Proof.
  split; [reflexivity|].
  apply (getStructTags_all_or_nothing examples.Person ["active"; "id"; "name"]). reflexivity.
Defined.

(** ** The decode closure, one binding entry at a time *)

(** Case analysis on the result of every [strconv] parse in sight: the
    value together with no error, or an error. *)
Ltac case_parse :=
  repeat match goal with
         | H : context [strconv.ParseBool ?c] |- _ => destruct (strconv.ParseBool c) as [? [?|]]
         | H : context [strconv.ParseInt ?c ?b] |- _ => destruct (strconv.ParseInt c b) as [? [?|]]
         | H : context [strconv.ParseFloat ?c ?b] |- _ => destruct (strconv.ParseFloat c b) as [? [?|]]
         | |- context [strconv.ParseBool ?c] => destruct (strconv.ParseBool c) as [? [?|]]
         | |- context [strconv.ParseInt ?c ?b] => destruct (strconv.ParseInt c b) as [? [?|]]
         | |- context [strconv.ParseFloat ?c ?b] => destruct (strconv.ParseFloat c b) as [? [?|]]
         end.

Lemma findField_Some name i fs fld :
  findField name i fs = Some fld →
  i ≤ Index fld ∧ fs !! (Index fld - i) = Some (Field_ fld) ∧ Name (Field_ fld) = name.
Proof.
  revert i. induction fs as [|f fs IH]; intros i; simpl; [done|].
  destruct (decide (Name f = name)) as [Hn|Hn].
  - intros [= <-]. simpl. rewrite Nat.sub_diag. done.
  - intros H. apply IH in H as (Hle & Hl & Hname). split_and!; [lia| |done].
    replace (Index fld - i) with (S (Index fld - S i)) by lia. done.
Qed.

Lemma FieldByName_Some T k fld :
  FieldByName T k = Some fld →
  Fields T !! Index fld = Some (Field_ fld) ∧ Name (Field_ fld) = k.
Proof.
  intros H. apply findField_Some in H as (_ & Hl & Hn).
  by rewrite Nat.sub_0_r in Hl.
Qed.

Lemma assign_Ok {E} method ok fld v str str' :
  assign (E := E) method ok fld v str = Ok str' ↔
  IsExported (Field_ fld) = true ∧ ok = true ∧ str' = <[Index fld := v]> str.
Proof.
  unfold assign. destruct (IsExported _), ok; simpl; split; try congruence; try tauto.
  all: try (intros [= <-]; done). all: intros (? & ? & ?); congruence.
Qed.

(** An entry is decoded successfully exactly when its field exists and is
    exported, its index is in range for the row, and the cell converts;
    the field then holds the converted cell. *)
Lemma decodeField_Ok T row str k v str' :
  decodeField T row str (k, v) = Ok str' ↔
  ∃ fld cell val,
    FieldByName T k = Some fld ∧ row !! v = Some cell
    ∧ stored (Kind_of fld) cell = Some val
    ∧ IsExported (Field_ fld) = true
    ∧ str' = <[Index fld := val]> str.
Proof.
  unfold decodeField. destruct (FieldByName T k) as [fld|]; [|split; [done|]].
  2:{ intros (? & ? & ? & ? & _); done. }
  unfold index. destruct (row !! v) as [cell|] eqn:Hcell.
  - split.
    + intros H. exists fld, cell.
      unfold stored, SetBool, SetInt, SetFloat, SetString in *.
      destruct (Kind_of fld) eqn:Hk; simpl in *; try done;
        case_parse; try done;
        apply assign_Ok in H as (? & ? & ->); eauto 10.
    + intros (fld' & cell' & val & [= <-] & [= <-] & Hst & Hex & ->).
      unfold stored, SetBool, SetInt, SetFloat, SetString in *.
      destruct (Kind_of fld) eqn:Hk; simpl in *; try done;
        case_parse; try done;
        injection Hst as <-; apply assign_Ok; rewrite ?Hk; done.
  - split.
    + destruct (Kind_of fld); simpl; done.
    + intros (? & ? & ? & _ & ? & _); done.
Qed.

(** An entry whose index is out of range for the row makes the closure
    panic when its field is of a convertible kind. *)
Lemma decodeField_out_of_range T row str k v fld :
  FieldByName T k = Some fld → convertible (Kind_of fld) = true → length row ≤ v →
  decodeField T row str (k, v) = Panic (IndexOutOfRange v (length row)).
Proof.
  intros Hf Hc Hv. unfold decodeField. rewrite Hf.
  rewrite (index_Panic row v Hv). destruct (Kind_of fld); simpl in *; done.
Qed.

Lemma forRange_Ok_steps {E A S} (body : S → A → outcome E S) xs st st' :
  forRange body xs st = Ok st' → ∀ x, x ∈ xs → ∃ s s', body s x = Ok s'.
Proof.
  revert st. induction xs as [|y xs IH]; intros st H x Hx; [set_solver|].
  simpl in H. apply bind_Ok in H as (s1 & H1 & H2).
  apply elem_of_cons in Hx as [->|Hx]; eauto.
Qed.

Lemma decodeField_Ok_entry T row str kv str' :
  decodeField T row str kv = Ok str' →
  ∀ s, decodeField T row s kv = Ok (<[entryIndex T kv := entryValue T row kv]> s).
Proof.
  destruct kv as [k v]. intros (fld & cell & val & Hf & Hc & Hs & Hx & ->)%decodeField_Ok s.
  apply decodeField_Ok. exists fld, cell, val. split_and!; [done..|].
  unfold entryIndex, entryValue. simpl. by rewrite Hf, Hc, Hs.
Qed.

Lemma entryIndex_NoDup T row (order : list (string * nat)) :
  NoDup order.*1 →
  (∀ kv, kv ∈ order → ∃ s s', decodeField T row s kv = Ok s') →
  NoDup (entryIndex T <$> order).
Proof.
  induction order as [|kv order IH]; intros Hnd Hok; [constructor|].
  rewrite fmap_cons in Hnd. apply NoDup_cons in Hnd as [Hk Hnd].
  rewrite fmap_cons. apply NoDup_cons. split.
  - intros Hin. apply list_elem_of_fmap in Hin as (kv' & Heq & Hin').
    apply Hk. apply list_elem_of_fmap. exists kv'. split; [|done].
    destruct (Hok kv) as (s & s' & H1); [set_solver|].
    destruct (Hok kv') as (t & t' & H2); [set_solver|].
    destruct kv as [k v], kv' as [k' v'].
    apply decodeField_Ok in H1 as (fld & _ & _ & Hf & _).
    apply decodeField_Ok in H2 as (fld' & _ & _ & Hf' & _).
    unfold entryIndex in Heq. simpl in *. rewrite Hf, Hf' in Heq.
    apply FieldByName_Some in Hf as [Hl Hn]. apply FieldByName_Some in Hf' as [Hl' Hn'].
    rewrite Heq in Hl. rewrite Hl in Hl'. congruence.
  - apply IH; [done|]. intros; apply Hok; set_solver.
Qed.

(** A successful decode, field by field: the result is the fresh struct
    with, for each entry of the binding, the converted cell stored in the
    field named by the entry. *)
Lemma decodeRow_Ok T (order : list (string * nat)) row rec :
  NoDup order.*1 → decodeRow T order row = Ok rec →
  rec = foldl (λ str kv, <[entryIndex T kv := entryValue T row kv]> str) (New T) order
  ∧ length rec = length (Fields T)
  ∧ (∀ k v, (k, v) ∈ order →
       ∃ fld cell val,
         FieldByName T k = Some fld ∧ row !! v = Some cell
         ∧ stored (Kind_of fld) cell = Some val
         ∧ IsExported (Field_ fld) = true
         ∧ rec !! Index fld = Some val)
  ∧ (∀ j f, Fields T !! j = Some f →
       (∀ k v fld, (k, v) ∈ order → FieldByName T k = Some fld → Index fld ≠ j) →
       rec !! j = Some (Zero (FieldKind f))).
Proof.
  intros Hnd Hrec. unfold decodeRow in Hrec.
  pose proof (forRange_Ok_steps _ _ _ _ Hrec) as Hsteps.
  assert (Hfold : forRange (decodeField T row) order (New T)
    = Ok (foldl (λ str kv, <[entryIndex T kv := entryValue T row kv]> str) (New T) order)).
  { apply forRange_inserts. intros kv str Hkv.
    destruct (Hsteps kv Hkv) as (s & s' & Hs). by eapply decodeField_Ok_entry. }
  rewrite Hfold in Hrec. injection Hrec as <-.
  assert (Hlen : length (New T) = length (Fields T)) by (unfold New; by rewrite length_map).
  split_and!; [done| | |].
  - by rewrite foldl_insert_length.
  - intros k v Hkv. destruct (Hsteps _ Hkv) as (s & s' & Hs).
    apply decodeField_Ok in Hs as (fld & cell & val & Hf & Hc & Hst & Hx & _).
    exists fld, cell, val. split_and!; [done..|].
    assert (Hix : entryIndex T (k, v) = Index fld) by (unfold entryIndex; simpl; by rewrite Hf).
    assert (Hvl : entryValue T row (k, v) = val)
      by (unfold entryValue; simpl; by rewrite Hf, Hc, Hst).
    rewrite <- Hix, <- Hvl.
    apply (foldl_insert_at (entryIndex T) (entryValue T row)); [|done|].
    + by eapply entryIndex_NoDup.
    + rewrite Hix, Hlen. apply FieldByName_Some in Hf as [Hl _]. by eapply lookup_lt_Some.
  - intros j f Hj Hother. rewrite foldl_insert_other.
    + unfold New. by rewrite list_lookup_fmap, Hj.
    + intros [k v] Hkv. destruct (Hsteps _ Hkv) as (s & s' & Hs).
      apply decodeField_Ok in Hs as (fld & _ & _ & Hf & _).
      unfold entryIndex. simpl. rewrite Hf. by eapply Hother.
Qed.

(** Conversely the closure succeeds when every entry decodes. *)
Lemma decodeRow_complete T (order : list (string * nat)) row :
  (∀ k v, (k, v) ∈ order →
     ∃ fld cell val, FieldByName T k = Some fld ∧ row !! v = Some cell
       ∧ stored (Kind_of fld) cell = Some val ∧ IsExported (Field_ fld) = true) →
  is_Ok (decodeRow T order row).
Proof.
  intros Hall. unfold decodeRow. generalize (New T). 
  induction order as [|[k v] order IH]; intros st; [by eexists|].
  destruct (Hall k v) as (fld & cell & val & Hf & Hc & Hs & Hx); [set_solver|].
  cbn [forRange].
  assert (decodeField T row st (k, v) = Ok (<[Index fld := val]> st)) as ->.
  { apply decodeField_Ok. exists fld, cell, val. done. }
  apply IH. intros; apply Hall; set_solver.
Qed.

(** ** ReadToStruct on a file without rows *)

(** C10. On the empty row sequence (a file without a single record, which
    the CSV reader returns without an error) the access [records[0]] is
    out of range: ReadToStruct neither returns records nor an error, it
    panics. *)
Theorem ReadToStruct_empty_file_panics (T : rtype) (o : range_oracle string nat) :
  ReadToStruct T o (Ok []) = Panic (IndexOutOfRange 0 0)
  ∧ ¬ is_Ok (ReadToStruct T o (Ok []))
  ∧ ¬ is_Err (ReadToStruct T o (Ok [])).
Proof. split_and!; [reflexivity| |]; intros [? H]; discriminate H. Qed.

(** ** Integer fields are parsed at 32 bits *)

(** C2. The closure parses every signed-integer field with bit size 32,
    whatever the declared width. For an [int8] field the text "300" is
    accepted and the field silently holds 44; for an [int64] field the
    text "2147483648", which fits the field, is rejected with the integer
    error. *)
Theorem decode_int_ignores_declared_width :
  strconv.ParseInt "300" 8 = (127%Z, Some (strconv.rangeError "ParseInt" "300"))
  ∧ decodeRow widths.Small [("N", 0)] ["300"] = Ok [VInt 44]
  ∧ ReadToStruct widths.Small in_key_order (Ok [["n"]; ["300"]]) = Ok [[VInt 44]]
  ∧ strconv.ParseInt "2147483648" 64 = (2147483648%Z, None)
  ∧ hasKind KInt64 (VInt 2147483648) = true
  ∧ decodeRow widths.Big [("N", 0)] ["2147483648"]
    = Err (ErrFieldIntInvalid "N" (strconv.rangeError "ParseInt" "2147483648"))
  ∧ ReadToStruct widths.Big in_key_order (Ok [["n"]; ["2147483648"]])
    = Err (ErrFieldIntInvalid "N" (strconv.rangeError "ParseInt" "2147483648")).
Proof. split_and!; vm_compute; reflexivity. Qed.

(** ** Unannotated fields *)

(** The read path takes both declaration orders and leaves the
    unannotated field at zero; the write path takes the order with the
    annotated field first and writes a one-column header. *)
Example unannotated_field_examples :
  ReadToStruct partial.SkipFirst in_key_order (Ok [["name"]; ["Ann"]])
  = Ok [[VInt 0; VString "Ann"]]
  ∧ ReadToStruct partial.SkipLast in_key_order (Ok [["name"]; ["Ann"]])
    = Ok [[VString "Ann"; VInt 0]]
  ∧ WriteFromStruct partial.SkipLast in_key_order [[VString "Ann"; VInt 7]]
    = Ok [["name"]; ["Ann"]].
Proof. split_and!; vm_compute; reflexivity. Qed.

(** C7. A struct type of two fields whose unannotated field is declared
    before its annotated field cannot be written: the header map has the
    single key 1, the header row has length 1, and [headRow[1] = ...]
    panics, for every visiting order and every record set (the empty one
    included). *)
Theorem WriteFromStruct_unannotated_first_panics
    (name : string) (f g : StructField)
    (o : range_oracle nat string) (records : list (list Value)) :
  fair o → colOf f = "" → colOf g ≠ "" →
  WriteFromStruct (mkType name KStruct [f; g]) o records = Panic (IndexOutOfRange 1 1).
Proof.
  intros Hfair Hf Hg. unfold WriteFromStruct.
  assert (getStructTagForHeader (mkType name KStruct [f; g])
          = Ok (headerFields 0 [f; g] ∅)) as -> by reflexivity.
  cbn [headerFields]. fold (colOf f). fold (colOf g).
  rewrite (decide_False (P := colOf f ≠ "")) by (intros H; by apply H).
  rewrite (decide_True (P := colOf g ≠ "")) by done.
  rewrite insert_empty. bind_step.
  pose proof (Hfair 0 {[1 := colOf g]}) as Hperm.
  rewrite map_to_list_singleton in Hperm. apply Permutation_singleton_r in Hperm.
  rewrite Hperm, map_size_singleton. reflexivity.
Qed.

Lemma WriteFromStruct_unannotated_first_panics_witness :
  let f := mkField "Skip" "" KInt [] in
  let g := mkField "Name" "" KString [("col", "name")] in
  fair (in_key_order (K := nat) (V := string)) ∧ colOf f = "" ∧ colOf g ≠ ""
  ∧ WriteFromStruct (mkType "SkipFirst" KStruct [f; g]) in_key_order [[VInt 7; VString "Ann"]]
    = Panic (IndexOutOfRange 1 1).
Proof.
  assert (Hfair : fair (in_key_order (K := nat) (V := string))) by (intros n m; reflexivity).
  assert (Hg : colOf (mkField "Name" "" KString [("col", "name")]) ≠ "") by discriminate.
  split_and!; [exact Hfair|reflexivity|exact Hg|].
  exact (WriteFromStruct_unannotated_first_panics "SkipFirst"
           (mkField "Skip" "" KInt []) (mkField "Name" "" KString [("col", "name")])
           in_key_order [[VInt 7; VString "Ann"]] Hfair eq_refl Hg).
Defined.

(** ** Row access of the decode closure *)

Lemma fair_order_NoDup {K V} `{Countable K} (m : gmap K V) (order : list (K * V)) :
  order ≡ₚ map_to_list m → NoDup order.*1.
Proof. intros ->. apply NoDup_fst_map_to_list. Qed.

Lemma fair_order_elem {K V} `{Countable K} (m : gmap K V) (order : list (K * V)) k v :
  order ≡ₚ map_to_list m → (k, v) ∈ order ↔ m !! k = Some v.
Proof. intros ->. apply elem_of_map_to_list. Qed.

Lemma assign_no_index_panic {E} method ok fld v str i l :
  assign (E := E) method ok fld v str ≠ Panic (IndexOutOfRange i l).
Proof. unfold assign. by destruct (IsExported _ && ok). Qed.

Lemma decodeField_no_index_panic T row str k v i l :
  v < length row → decodeField T row str (k, v) ≠ Panic (IndexOutOfRange i l).
Proof.
  intros Hv. unfold decodeField. destruct (FieldByName T k) as [fld|]; [|done].
  destruct (lookup_lt_is_Some_2 _ _ Hv) as [cell Hcell].
  unfold index. rewrite Hcell. unfold SetBool, SetInt, SetFloat, SetString.
  destruct (Kind_of fld); simpl; try done;
    case_parse; try done; apply assign_no_index_panic.
Qed.

Lemma decodeRow_no_index_panic T (order : list (string * nat)) row i l :
  (∀ k v, (k, v) ∈ order → v < length row) →
  decodeRow T order row ≠ Panic (IndexOutOfRange i l).
Proof.
  unfold decodeRow. generalize (New T).
  induction order as [|[k v] order IH]; intros st Hrange; [done|].
  cbn [forRange]. pose proof (decodeField_no_index_panic T row st k v i l) as Hstep.
  assert (Hv : v < length row) by (apply (Hrange k); by left).
  assert (Hrest : ∀ k' v', (k', v') ∈ order → v' < length row)
    by (intros k' v' ?; apply (Hrange k'); by right).
  destruct (decodeField T row st (k, v)) as [st'| |p].
  - by apply IH.
  - done.
  - intros [= ->]. by apply Hstep.
Qed.

(** Every index of a binding is an index of the header it was bound to,
    so rows of the length of the header (the only rows the CSV reader
    delivers: it rejects a file whose records differ in length) are never
    indexed out of range. *)
Lemma getStructTags_in_range T colHeader colDef k v :
  TypeKind T = KStruct → getStructTags T colHeader = Ok colDef →
  colDef !! k = Some v → v < length colHeader.
Proof.
  intros HT Hb Hk. rewrite getStructTags_struct in Hb by done.
  destruct (bindFields_Ok _ _ _ _ Hb) as (_ & _ & H3).
  apply H3 in Hk as [Hk|(f & _ & _ & _ & Hv)]; [done|].
  rewrite colNum_lookup in Hv. apply lastIndex_Some in Hv as [Hv _].
  by eapply lookup_lt_Some.
Qed.

Lemma ReadToStruct_uniform_rows T (o : range_oracle string nat) header rows i l :
  fair o → Forall (λ r : list string, length r = length header) rows →
  ReadToStruct T o (Ok (header :: rows)) ≠ Panic (IndexOutOfRange i l).
Proof.
  intros Hfair Hrows. unfold ReadToStruct.
  cbn [index lookup list_lookup mbind outcome_mbind outcome_bind].
  unfold readColumnDefCreateStruct. destruct (decide (TypeKind T ≠ KStruct)) as [|HT]; [done|].
  assert (HT' : TypeKind T = KStruct) by (by destruct (decide (TypeKind T = KStruct))).
  destruct (getStructTags T header) as [colDef| |p] eqn:Hb; [|done|].
  2:{ rewrite getStructTags_struct in Hb by done. by apply bindFields_not_Panic in Hb. }
  cbn [mbind outcome_mbind outcome_bind decodeRecords]. rewrite decide_True by done.
  generalize (@nil (list Value)). generalize 1.
  induction Hrows as [|r rows Hr Hrows IH]; intros j acc; [done|].
  cbn [decodeRecords]. destruct (decide (j = 0)); [apply IH|].
  pose proof (decodeRow_no_index_panic T (o j colDef) r i l) as Hrow.
  destruct (decodeRow T (o j colDef) r) as [rec| |p] eqn:Hd; [apply IH|done|].
  intros [= ->]. apply Hrow; [|done]. intros k v Hin.
  apply (fair_order_elem _ _ _ _ (Hfair _ _)) in Hin. rewrite Hr.
  by eapply getStructTags_in_range.
Qed.

(** C1, as the code has it. The closure has no bounds check and no
    row-too-short error. For every binding and row: when the row decodes,
    every bound index was in range and the field holds the converted cell
    of that index; when the closure reaches an entry whose index is out of
    range (and whose field is of a convertible kind), indexing the row
    panics; a row with an out-of-range bound index never decodes to a
    record; and a row that has every bound index is never indexed out of
    range. *)
Theorem decodeRow_row_access (T : rtype) (colDef : gmap string nat)
    (order : list (string * nat)) (row : list string) :
  order ≡ₚ map_to_list colDef →
  (∀ rec, decodeRow T order row = Ok rec →
     ∀ k v, colDef !! k = Some v →
       ∃ fld cell val,
         FieldByName T k = Some fld ∧ row !! v = Some cell
         ∧ stored (Kind_of fld) cell = Some val
         ∧ rec !! Index fld = Some val)
  ∧ (∀ pre k v post str fld,
       order = pre ++ (k, v) :: post →
       forRange (decodeField T row) pre (New T) = Ok str →
       FieldByName T k = Some fld → convertible (Kind_of fld) = true →
       length row ≤ v →
       decodeRow T order row = Panic (IndexOutOfRange v (length row)))
  ∧ (∀ k v, colDef !! k = Some v → length row ≤ v → ¬ is_Ok (decodeRow T order row))
  ∧ ((∀ k v, colDef !! k = Some v → v < length row) →
       ∀ i l, decodeRow T order row ≠ Panic (IndexOutOfRange i l)).
Proof.
  intros Hfair. pose proof (fair_order_NoDup _ _ Hfair) as Hnd. split_and!.
  - intros rec Hrec k v Hkv. apply (fair_order_elem _ _ _ _ Hfair) in Hkv.
    destruct (decodeRow_Ok _ _ _ _ Hnd Hrec) as (_ & _ & Hcells & _).
    destruct (Hcells k v Hkv) as (fld & cell & val & ? & ? & ? & _ & ?). eauto 10.
  - intros pre k v post str fld -> Hpre Hf Hc Hv. unfold decodeRow.
    rewrite forRange_app, Hpre. cbn [mbind outcome_mbind outcome_bind forRange].
    by rewrite (decodeField_out_of_range _ _ _ _ _ fld).
  - intros k v Hkv Hv [rec Hrec]. apply (fair_order_elem _ _ _ _ Hfair) in Hkv.
    destruct (decodeRow_Ok _ _ _ _ Hnd Hrec) as (_ & _ & Hcells & _).
    destruct (Hcells k v Hkv) as (_ & cell & _ & _ & Hcell & _).
    apply lookup_lt_Some in Hcell. lia.
  - intros Hrange i l. apply decodeRow_no_index_panic. intros k v Hkv.
    apply (Hrange k). by apply (fair_order_elem _ _ _ _ Hfair).
Qed.

Lemma decodeRow_row_access_witness :
  let T := examples.Person in
  let colDef : gmap string nat := {["Name" := 1; "Active" := 0]} in
  let order := [("Active", 0); ("Name", 1)] in
  let row := ["true"] in
  order ≡ₚ map_to_list colDef ∧
  (∀ rec, decodeRow T order row = Ok rec →
     ∀ k v, colDef !! k = Some v →
       ∃ fld cell val,
         FieldByName T k = Some fld ∧ row !! v = Some cell
         ∧ stored (Kind_of fld) cell = Some val
         ∧ rec !! Index fld = Some val)
  ∧ (∀ pre k v post str fld,
       order = pre ++ (k, v) :: post →
       forRange (decodeField T row) pre (New T) = Ok str →
       FieldByName T k = Some fld → convertible (Kind_of fld) = true →
       length row ≤ v →
       decodeRow T order row = Panic (IndexOutOfRange v (length row)))
  ∧ (∀ k v, colDef !! k = Some v → length row ≤ v → ¬ is_Ok (decodeRow T order row))
  ∧ ((∀ k v, colDef !! k = Some v → v < length row) →
       ∀ i l, decodeRow T order row ≠ Panic (IndexOutOfRange i l)).
Proof.
  assert (Hperm : [("Active", 0); ("Name", 1)]
                  ≡ₚ map_to_list ({["Name" := 1; "Active" := 0]} : gmap string nat)).
  { vm_compute. reflexivity. }
  split; [exact Hperm|].
  exact (decodeRow_row_access examples.Person {["Name" := 1; "Active" := 0]}
           [("Active", 0); ("Name", 1)] ["true"] Hperm).
Defined.

(** A row that is too short is not reported by an error. With the binding
    of the header ["active"; "name"], the row ["true"] has no cell for the
    column of [Name]; in both visiting orders the closure panics and
    returns no error. *)
Lemma decodeRow_short_row_is_no_error :
  ∃ colDef,
    getStructTags examples.Person ["active"; "name"] = Ok colDef
    ∧ colDef !! "Name" = Some 1
    ∧ length ["true"] ≤ 1
    ∧ decodeRow examples.Person [("Active", 0); ("Name", 1)] ["true"]
      = Panic (IndexOutOfRange 1 1)
    ∧ decodeRow examples.Person [("Name", 1); ("Active", 0)] ["true"]
      = Panic (IndexOutOfRange 1 1)
    ∧ ¬ is_Err (decodeRow examples.Person [("Active", 0); ("Name", 1)] ["true"])
    ∧ ¬ is_Err (decodeRow examples.Person [("Name", 1); ("Active", 0)] ["true"]).
Proof.
  eexists. split; [vm_compute; reflexivity|].
  split_and!.
  - vm_compute. reflexivity.
  - apply le_n.
  - vm_compute. reflexivity.
  - vm_compute. reflexivity.
  - intros [e He]. vm_compute in He. discriminate He.
  - intros [e He]. vm_compute in He. discriminate He.
Qed.

(** ** The write path *)

Lemma encodeField_convertible str field :
  convertible (Kind_of field) = true → encodeField str field = Ok (cellText str field).
Proof.
  intros Hc. unfold cellText, encodeField in *. destruct (Kind_of field); done.
Qed.

Lemma encodeField_not_convertible str field :
  convertible (Kind_of field) = false → is_Err (encodeField str field).
Proof.
  intros Hc. unfold encodeField in *. destruct (Kind_of field); try done; by eexists.
Qed.

Lemma forRange_inserts_len {E A V} (body : list V → A → outcome E (list V))
    (ix : A → nat) (vl : A → V) xs st :
  (∀ x str, x ∈ xs → length str = length st → body str x = Ok (<[ix x := vl x]> str)) →
  forRange body xs st = Ok (foldl (λ str x, <[ix x := vl x]> str) st xs).
Proof.
  revert st. induction xs as [|x xs IH]; intros st Hb; simpl; [done|].
  rewrite Hb by (done || set_solver). simpl. apply IH.
  intros y str Hy Hlen. apply Hb; [set_solver|]. by rewrite Hlen, length_insert.
Qed.

Lemma map_seq_size {X} (start : nat) (xs : list X) :
  size (map_seq start xs : gmap nat X) = length xs.
Proof.
  revert start. induction xs as [|x xs IH]; intros start; simpl.
  - apply map_size_empty.
  - rewrite map_size_insert_None by apply map_seq_cons_disjoint. by rewrite IH.
Qed.

(** Storing, in any order, each element of [xs] at its own index. *)
Lemma fill_map_seq {X V} (c : nat → X → V) (xs : list X) (order : list (nat * X))
    (row0 : list V) :
  order ≡ₚ map_to_list (map_seq 0 xs : gmap nat X) → length row0 = length xs →
  foldl (λ row ix, <[ix.1 := c ix.1 ix.2]> row) row0 order = imap c xs.
Proof.
  intros Hfair Hlen. pose proof (fair_order_NoDup _ _ Hfair) as Hnd.
  apply list_eq. intros i. rewrite list_lookup_imap.
  destruct (xs !! i) as [x|] eqn:Hx; simpl.
  - assert (Hin : (i, x) ∈ order).
    { apply (fair_order_elem _ _ _ _ Hfair). by rewrite lookup_map_seq_0. }
    apply (foldl_insert_at (λ ix : nat * X, ix.1) (λ ix, c ix.1 ix.2) order row0 (i, x));
      [done..|].
    simpl. rewrite Hlen. by eapply lookup_lt_Some.
  - apply lookup_ge_None. rewrite foldl_insert_length, Hlen. by apply lookup_ge_None.
Qed.

Lemma headerFields_lookup i flds out j :
  headerFields i flds out !! j =
    match (if decide (i ≤ j) then flds !! (j - i) else None) with
    | Some f => if decide (colOf f ≠ "") then Some (colOf f) else out !! j
    | None => out !! j
    end.
Proof.
  revert i out. induction flds as [|f flds IH]; intros i out; simpl.
  - by destruct (decide (i ≤ j)).
  - rewrite IH. fold (colOf f). destruct (decide (i ≤ j)) as [Hle|Hle].
    + destruct (decide (S i ≤ j)) as [Hlt|Hlt].
      * replace (j - i) with (S (j - S i)) by lia. simpl.
        destruct (flds !! (j - S i)) as [g|].
        -- destruct (decide (colOf g ≠ "")); [done|].
           destruct (decide (colOf f ≠ "")); [|done]. apply lookup_insert_ne. lia.
        -- destruct (decide (colOf f ≠ "")); [|done]. apply lookup_insert_ne. lia.
      * assert (j = i) as -> by lia. rewrite Nat.sub_diag. simpl.
        destruct (decide (colOf f ≠ "")); [|done]. apply lookup_insert_eq.
    + rewrite decide_False by lia.
      destruct (decide (colOf f ≠ "")); [|done]. apply lookup_insert_ne. lia.
Qed.

Lemma getStructTagForHeader_struct T :
  TypeKind T = KStruct → getStructTagForHeader T = Ok (headerFields 0 (Fields T) ∅).
Proof.
  intros HT. unfold getStructTagForHeader, NumField. rewrite HT.
  rewrite decide_False by (intros ?; done).
  rewrite decide_False by (intros [? _]; done). rewrite decide_True by done.
  simpl. by rewrite firstn_all.
Qed.

(** When the annotated fields are the first [n], the header map is the
    sequence of their column names. *)
Lemma headerFields_prefix T n :
  annotatedPrefix T n →
  headerFields 0 (Fields T) ∅ = map_seq 0 (colOf <$> take n (Fields T)).
Proof.
  intros [Hn Hpre]. apply map_eq. intros j.
  rewrite headerFields_lookup, lookup_map_seq_0, list_lookup_fmap.
  rewrite decide_True by lia. rewrite Nat.sub_0_r, lookup_empty.
  destruct (decide (j < n)) as [Hj|Hj].
  - rewrite lookup_take_lt by done.
    destruct (Fields T !! j) as [f|] eqn:Hf; [|done]. simpl.
    rewrite decide_True; [done|]. by apply (Hpre j f).
  - rewrite lookup_take_ge by lia.
    destruct (Fields T !! j) as [f|] eqn:Hf; [|done]. simpl.
    rewrite decide_False; [done|]. intros Ha. apply Hj. by apply (Hpre j f).
Qed.

Lemma imap_snd {X} (xs : list X) : imap (λ _ x, x) xs = xs.
Proof.
  apply list_eq. intros i. rewrite list_lookup_imap. by destruct (xs !! i).
Qed.

Lemma fillHeader_map_seq (xs : list string) order :
  order ≡ₚ map_to_list (map_seq 0 xs : gmap nat string) →
  fillHeader order (replicate (length xs) "") = Ok xs.
Proof.
  intros Hfair. unfold fillHeader.
  rewrite (forRange_inserts_len _ (λ ix : nat * string, ix.1) (λ ix, ix.2)).
  - f_equal. rewrite (fill_map_seq (λ _ x, x) xs order); [apply imap_snd|done|].
    by rewrite length_replicate.
  - intros [i x] str Hin Hlen. unfold setIndex. simpl.
    rewrite decide_True; [done|]. rewrite Hlen, length_replicate.
    apply (fair_order_elem _ _ _ _ Hfair) in Hin. rewrite lookup_map_seq_0 in Hin.
    by eapply lookup_lt_Some.
Qed.

Lemma encodeRow_map_seq T n (r : list Value) order :
  n ≤ length (Fields T) →
  (∀ f, f ∈ take n (Fields T) → convertible (FieldKind f) = true) →
  order ≡ₚ map_to_list (map_seq 0 (colOf <$> take n (Fields T)) : gmap nat string) →
  encodeRow T order r (replicate n "") = Ok (rowText T n r).
Proof.
  intros Hn Hconv Hfair. unfold encodeRow.
  set (c := λ (i : nat) (_ : string),
         match Fields T !! i with
         | Some f => cellText r (mkFieldRef i f)
         | None => ""
         end).
  assert (Hlen : length (colOf <$> take n (Fields T)) = n).
  { rewrite length_fmap, length_take. lia. }
  rewrite (forRange_inserts_len _ (λ ix : nat * string, ix.1) (λ ix, c ix.1 ix.2)).
  - f_equal. rewrite (fill_map_seq c (colOf <$> take n (Fields T)) order);
      [|done|by rewrite length_replicate].
    unfold rowText. apply list_eq. intros i. rewrite !list_lookup_imap, list_lookup_fmap.
    destruct (take n (Fields T) !! i) as [f|] eqn:Hf; [|done]. simpl. unfold c.
    apply lookup_take_Some in Hf as [Hf _]. by rewrite Hf.
  - intros [i x] str Hin Hl. simpl.
    apply (fair_order_elem _ _ _ _ Hfair) in Hin.
    rewrite lookup_map_seq_0, list_lookup_fmap in Hin.
    destruct (take n (Fields T) !! i) as [f|] eqn:Hf; [|done].
    assert (Hmem : f ∈ take n (Fields T)) by (by eapply list_elem_of_lookup_2).
    pose proof Hf as Hi%lookup_lt_Some. rewrite length_take in Hi.
    apply lookup_take_Some in Hf as [Hf _].
    unfold Field. rewrite Hf. bind_step.
    rewrite encodeField_convertible by (by apply Hconv).
    bind_step. unfold setIndex.
    rewrite decide_True by (rewrite Hl, length_replicate; lia).
    unfold c. by rewrite Hf.
Qed.

Lemma encodeRecords_map_seq T o n j records out :
  fair o → n ≤ length (Fields T) →
  (∀ f, f ∈ take n (Fields T) → convertible (FieldKind f) = true) →
  encodeRecords T o (map_seq 0 (colOf <$> take n (Fields T))) n j records out
  = Ok (out ++ (rowText T n <$> records)).
Proof.
  intros Hfair Hn Hconv. revert j out.
  induction records as [|r records IH]; intros j out; simpl.
  - by rewrite app_nil_r.
  - rewrite (encodeRow_map_seq T n r) by (done || apply Hfair).
    bind_step. rewrite IH. by rewrite <- app_assoc.
Qed.

(** The rows written for a type whose annotated fields are its first [n]
    fields, all of a convertible kind (or for an empty record set). *)
Lemma WriteFromStruct_prefix T o n records :
  fair o → TypeKind T = KStruct → annotatedPrefix T n →
  (records = [] ∨ ∀ f, f ∈ take n (Fields T) → convertible (FieldKind f) = true) →
  WriteFromStruct T o records
  = Ok ((colOf <$> take n (Fields T)) :: (rowText T n <$> records)).
Proof.
  intros Hfair HT Hpre Hconv. unfold WriteFromStruct.
  rewrite getStructTagForHeader_struct by done.
  rewrite (headerFields_prefix T n) by done.
  bind_step.
  assert (Hlen : length (colOf <$> take n (Fields T)) = n).
  { rewrite length_fmap, length_take. destruct Hpre. lia. }
  rewrite map_seq_size, <- (map_seq_size 0 (colOf <$> take n (Fields T))) at 1.
  rewrite map_seq_size. rewrite fillHeader_map_seq by apply Hfair.
  bind_step. rewrite Hlen.
  destruct Hconv as [->|Hconv]; [done|].
  rewrite encodeRecords_map_seq; [done..|by destruct Hpre|done].
Qed.


Lemma setIndex_Ok {E A} (l : list A) (i : nat) (x : A) :
  i < length l → setIndex (E := E) l i x = Ok (<[i := x]> l).
Proof. intros H. unfold setIndex. by rewrite decide_True. Qed.

Lemma Field_Some {E} T i f :
  Fields T !! i = Some f → Field (E := E) T i = Ok (mkFieldRef i f).
Proof. intros H. unfold Field. by rewrite H. Qed.

(** A row loop that meets a field of a kind that is not convertible ends
    with an error. *)
Lemma encodeRow_unsupported T (r : list Value) order row i x f :
  (∀ j y, (j, y) ∈ order → j < length row ∧ j < length (Fields T)) →
  (i, x) ∈ order → Fields T !! i = Some f → convertible (FieldKind f) = false →
  is_Err (encodeRow T order r row).
Proof.
  unfold encodeRow. revert row.
  induction order as [|[j y] order IH]; intros row Hrange Hin Hf Hc; [set_solver|].
  cbn [forRange]. cbv beta iota. destruct (Hrange j y) as [Hj1 Hj2]; [set_solver|].
  destruct (lookup_lt_is_Some_2 _ _ Hj2) as [g Hg]. rewrite (Field_Some T j g Hg).
  bind_step.
  destruct (convertible (FieldKind g)) eqn:Hcg.
  - rewrite encodeField_convertible by done. bind_step.
    rewrite (setIndex_Ok row j) by done.
    bind_step.
    apply elem_of_cons in Hin as [[= -> ->]|Hin]; [congruence|].
    apply IH; [|done..]. intros j' y' Hin'. rewrite length_insert.
    apply (Hrange j' y'). set_solver.
  - destruct (encodeField_not_convertible r (mkFieldRef j g) Hcg) as [e ->].
    by eexists.
Qed.



(** ** What a binding and a row decode to *)

Lemma boundField_Some k flds f :
  boundField k flds = Some f → f ∈ flds ∧ annotated f ∧ Name f = k.
Proof.
  induction flds as [|g flds IH]; simpl; [done|].
  destruct (boundField k flds) as [h|].
  - intros [= <-]. destruct IH as (? & ? & ?); [done|]. set_solver.
  - destruct (decide _) as [[Ha Hn]|]; [|done]. intros [= <-]. set_solver.
Qed.

Lemma bindFields_lookup_bound colNum flds m m' k :
  bindFields colNum flds m = Ok m' →
  m' !! k = match boundField k flds with
            | Some f => colNum !! colOf f
            | None => m !! k
            end.
Proof.
  revert m. induction flds as [|f flds IH]; intros m; simpl.
  - by intros [= <-].
  - fold (colOf f). destruct (decide (colOf f ≠ "")) as [Ha|Ha].
    + destruct (colNum !! colOf f) as [n|] eqn:Hc; [|done].
      intros Hb. rewrite (IH _ Hb). destruct (boundField k flds); [done|].
      destruct (decide (Name f = k)) as [Hn|Hn].
      * rewrite decide_True by done. subst k. by rewrite lookup_insert_eq.
      * rewrite decide_False by (intros [_ ?]; done). by rewrite lookup_insert_ne.
    + intros Hb. rewrite (IH _ Hb). destruct (boundField k flds); [done|].
      by rewrite decide_False by (intros [? _]; done).
Qed.

(** A successful decode returns [specRecord], whatever the visiting
    order. *)
Lemma decodeRow_spec T (colDef : gmap string nat) order row rec :
  order ≡ₚ map_to_list colDef → decodeRow T order row = Ok rec →
  rec = specRecord T colDef row.
Proof.
  intros Hfair Hrec. pose proof (fair_order_NoDup _ _ Hfair) as Hnd.
  destruct (decodeRow_Ok _ _ _ _ Hnd Hrec) as (_ & Hlen & Hcells & Hzero).
  apply list_eq. intros j. unfold specRecord. rewrite list_lookup_imap.
  destruct (Fields T !! j) as [f|] eqn:Hf; simpl.
  2:{ apply lookup_ge_None. rewrite Hlen. by apply lookup_ge_None. }
  assert (Hhit : ∀ k v fld, (k, v) ∈ order → FieldByName T k = Some fld → Index fld = j →
                 k = Name f ∧ Field_ fld = f).
  { intros k v fld _ Hfld <-. apply FieldByName_Some in Hfld as [Hl Hn].
    rewrite Hl in Hf. injection Hf as <-. done. }
  unfold cellAt. destruct (colDef !! Name f) as [v|] eqn:Hv; simpl.
  - apply (fair_order_elem _ _ _ _ Hfair) in Hv.
    destruct (Hcells _ _ Hv) as (fld & cell & val & Hfld & Hcell & Hst & _ & Hval).
    rewrite Hcell, Hfld. destruct (decide (Index fld = j)) as [<-|Hne].
    + by rewrite Hst.
    + apply Hzero; [done|]. intros k v2 fld2 Hin Hfld2 Hj.
      destruct (Hhit _ _ _ Hin Hfld2 Hj) as [-> _]. congruence.
  - apply Hzero; [done|]. intros k v2 fld2 Hin Hfld2 Hj.
    destruct (Hhit _ _ _ Hin Hfld2 Hj) as [-> _].
    apply (fair_order_elem _ _ _ _ Hfair) in Hin. congruence.
Qed.

Lemma specRecord_ext T colDef colDef' row row' :
  (∀ k, cellAt colDef row k = cellAt colDef' row' k) →
  specRecord T colDef row = specRecord T colDef' row'.
Proof.
  intros Hext. unfold specRecord. apply imap_ext. intros j f _. by rewrite Hext.
Qed.

(** Two bindings that select the same cells decode alike. *)
Lemma decodeRow_same_cells T (colDef colDef' : gmap string nat) order order' row row' rec :
  order ≡ₚ map_to_list colDef → order' ≡ₚ map_to_list colDef' →
  (∀ k, cellAt colDef row k = cellAt colDef' row' k) →
  decodeRow T order row = Ok rec → decodeRow T order' row' = Ok rec.
Proof.
  intros Hfair Hfair' Hext Hrec.
  pose proof (fair_order_NoDup _ _ Hfair) as Hnd.
  destruct (decodeRow_Ok _ _ _ _ Hnd Hrec) as (_ & _ & Hcells & _).
  destruct (decodeRow_complete T order' row') as [rec' Hrec'].
  - intros k v' Hin. apply (fair_order_elem _ _ _ _ Hfair') in Hin.
    pose proof (Hext k) as Hk. unfold cellAt in Hk. rewrite Hin in Hk. simpl in Hk.
    destruct (colDef !! k) as [v|] eqn:Hv; [|done]. injection Hk as Hk.
    apply (fair_order_elem _ _ _ _ Hfair) in Hv.
    destruct (Hcells _ _ Hv) as (fld & cell & val & ? & Hcell & ? & ? & _).
    exists fld, cell, val. split_and!; [done| |done..]. congruence.
  - rewrite Hrec'. f_equal.
    rewrite (decodeRow_spec _ _ _ _ _ Hfair Hrec), (decodeRow_spec _ _ _ _ _ Hfair' Hrec').
    symmetry. by apply specRecord_ext.
Qed.

(** ** Column order *)

Lemma getStructTags_complete T colHeader :
  TypeKind T = KStruct →
  (∀ f, f ∈ Fields T → annotated f → colOf f ∈ colHeader) →
  is_Ok (getStructTags T colHeader).
Proof.
  intros HT Hall. rewrite getStructTags_struct by done. apply bindFields_complete.
  intros f Hf Ha. rewrite colNum_lookup.
  destruct (lastIndex (colOf f) colHeader) eqn:Hl; [eauto|].
  apply lastIndex_None in Hl. destruct Hl. by apply Hall.
Qed.

(** In a permutation of the columns, a column whose name occurs once
    keeps its cell. *)
Lemma unique_column_cell (cols cols' : list (string * string)) c v v' :
  cols ≡ₚ cols' → occursOnce c cols.*1 →
  cols.*1 !! v = Some c → cols'.*1 !! v' = Some c →
  cols.*2 !! v = cols'.*2 !! v'.
Proof.
  intros Hperm (i & _ & Huniq) Hv Hv'.
  rewrite list_lookup_fmap in Hv'.
  destruct (cols' !! v') as [[c' cell']|] eqn:Hp'; [|done]. injection Hv' as ->.
  assert (Hin : (c, cell') ∈ cols).
  { rewrite Hperm. by eapply list_elem_of_lookup_2. }
  apply list_elem_of_lookup in Hin as [j Hj].
  assert (j = i) as ->. { apply Huniq. by rewrite list_lookup_fmap, Hj. }
  assert (v = i) as -> by (by apply Huniq).
  by rewrite !list_lookup_fmap, Hj, Hp'.
Qed.

(** C4, as the code has it. For a struct type, header binding succeeds on
    every header row in which every annotated column name occurs. When
    each annotated column name occurs exactly once, permuting the columns
    (header and row together, unrelated extra columns included) does not
    change the outcome of decoding: in any visiting orders, the permuted
    row decodes to a record exactly when the original row does, and to the
    same record. *)
Theorem decode_column_order_insensitive (T : rtype) (cols cols' : list (string * string)) :
  TypeKind T = KStruct → cols ≡ₚ cols' →
  (∀ f, f ∈ Fields T → annotated f → occursOnce (colOf f) cols.*1) →
  (∀ colHeader, (∀ f, f ∈ Fields T → annotated f → colOf f ∈ colHeader) →
     is_Ok (getStructTags T colHeader))
  ∧ ∃ colDef colDef',
      getStructTags T cols.*1 = Ok colDef ∧ getStructTags T cols'.*1 = Ok colDef'
      ∧ ∀ order order' rec,
          order ≡ₚ map_to_list colDef → order' ≡ₚ map_to_list colDef' →
          (decodeRow T order cols.*2 = Ok rec ↔ decodeRow T order' cols'.*2 = Ok rec).
Proof.
  intros HT Hperm Honce. split; [intros h; by apply getStructTags_complete|].
  assert (Hin : ∀ f, f ∈ Fields T → annotated f → colOf f ∈ cols.*1).
  { intros f Hf Ha. destruct (Honce f Hf Ha) as (i & Hi & _).
    by eapply list_elem_of_lookup_2. }
  assert (Hin' : ∀ f, f ∈ Fields T → annotated f → colOf f ∈ cols'.*1).
  { intros f Hf Ha. rewrite <- Hperm. by apply Hin. }
  destruct (getStructTags_complete T cols.*1 HT Hin) as [colDef HcolDef].
  destruct (getStructTags_complete T cols'.*1 HT Hin') as [colDef' HcolDef'].
  exists colDef, colDef'. split_and!; [done..|].
  assert (Hcells : ∀ k, cellAt colDef cols.*2 k = cellAt colDef' cols'.*2 k).
  { intros k. unfold cellAt. rewrite getStructTags_struct in HcolDef, HcolDef' by done.
    rewrite (bindFields_lookup_bound _ _ _ _ k HcolDef).
    rewrite (bindFields_lookup_bound _ _ _ _ k HcolDef').
    destruct (boundField k (Fields T)) as [f|] eqn:Hb; [|by rewrite lookup_empty].
    apply boundField_Some in Hb as (Hf & Ha & _).
    rewrite !colNum_lookup.
    destruct (lastIndex (colOf f) cols.*1) as [v|] eqn:Hv.
    2:{ apply lastIndex_None in Hv. destruct Hv. by apply Hin. }
    destruct (lastIndex (colOf f) cols'.*1) as [v'|] eqn:Hv'.
    2:{ apply lastIndex_None in Hv'. destruct Hv'. by apply Hin'. }
    simpl. f_equal. apply lastIndex_Some in Hv as [Hv _]. apply lastIndex_Some in Hv' as [Hv' _].
    eapply unique_column_cell; eauto. }
  intros order order' rec Hfair Hfair'. split.
  - by apply (decodeRow_same_cells T colDef colDef').
  - by apply (decodeRow_same_cells T colDef' colDef).
Qed.

Lemma decode_column_order_insensitive_witness :
  let T := examples.Person in
  let cols := [("active", "true"); ("name", "Ann"); ("id", "7")] in
  let cols' := [("name", "Ann"); ("active", "true"); ("id", "7")] in
  TypeKind T = KStruct ∧ cols ≡ₚ cols' ∧
  (∀ f, f ∈ Fields T → annotated f → occursOnce (colOf f) cols.*1) ∧
  (∀ colHeader, (∀ f, f ∈ Fields T → annotated f → colOf f ∈ colHeader) →
     is_Ok (getStructTags T colHeader))
  ∧ ∃ colDef colDef',
      getStructTags T cols.*1 = Ok colDef ∧ getStructTags T cols'.*1 = Ok colDef'
      ∧ ∀ order order' rec,
          order ≡ₚ map_to_list colDef → order' ≡ₚ map_to_list colDef' →
          (decodeRow T order cols.*2 = Ok rec ↔ decodeRow T order' cols'.*2 = Ok rec).
Proof.
  assert (Hperm : [("active", "true"); ("name", "Ann"); ("id", "7")]
                  ≡ₚ [("name", "Ann"); ("active", "true"); ("id", "7")]) by apply perm_swap.
  assert (Honce : ∀ f, f ∈ Fields examples.Person → annotated f →
            occursOnce (colOf f) [("active", "true"); ("name", "Ann"); ("id", "7")].*1).
  { intros f Hf _. simpl in Hf.
    apply elem_of_cons in Hf as [->|Hf]; [|apply elem_of_cons in Hf as [->|Hf]].
    - exists 1. split; [reflexivity|]. intros [|[|[|j]]] Hj; try discriminate Hj; reflexivity.
    - exists 0. split; [reflexivity|]. intros [|[|[|j]]] Hj; try discriminate Hj; reflexivity.
    - by apply elem_of_nil in Hf. }
  split; [reflexivity|]. split; [exact Hperm|]. split; [exact Honce|].
  exact (decode_column_order_insensitive examples.Person
           [("active", "true"); ("name", "Ann"); ("id", "7")]
           [("name", "Ann"); ("active", "true"); ("id", "7")] eq_refl Hperm Honce).
Defined.

(** Column order matters when a column name is repeated in the header:
    moving the second column named "a" to the front (header and row
    together) changes the decoded record, because the binding takes the
    last occurrence of the name in either header. *)
Lemma decode_depends_on_duplicate_column_order :
  let cols := [("a", "1"); ("b", "x"); ("a", "2")] in
  let cols' := [("a", "2"); ("a", "1"); ("b", "x")] in
  cols ≡ₚ cols'
  ∧ (∀ f, f ∈ Fields dupes.Two → annotated f → colOf f ∈ cols.*1)
  ∧ getStructTags dupes.Two cols.*1 = Ok {["A" := 2; "B" := 1]}
  ∧ getStructTags dupes.Two cols'.*1 = Ok {["A" := 1; "B" := 2]}
  ∧ decodeRow dupes.Two [("A", 2); ("B", 1)] cols.*2 = Ok [VString "2"; VString "x"]
  ∧ decodeRow dupes.Two [("B", 1); ("A", 2)] cols.*2 = Ok [VString "2"; VString "x"]
  ∧ decodeRow dupes.Two [("A", 1); ("B", 2)] cols'.*2 = Ok [VString "1"; VString "x"]
  ∧ decodeRow dupes.Two [("B", 2); ("A", 1)] cols'.*2 = Ok [VString "1"; VString "x"].
Proof.
  split_and!.
  - symmetry. apply (Permutation_cons_append [("a", "1"); ("b", "x")] ("a", "2")).
  - intros f Hf _. simpl in Hf.
    apply elem_of_cons in Hf as [->|Hf]; [|apply elem_of_cons in Hf as [->|Hf]].
    + apply elem_of_cons. by left.
    + apply elem_of_cons. right. apply elem_of_cons. by left.
    + by apply elem_of_nil in Hf.
  - vm_compute. reflexivity.
  - vm_compute. reflexivity.
  - vm_compute. reflexivity.
  - vm_compute. reflexivity.
  - vm_compute. reflexivity.
  - vm_compute. reflexivity.
Qed.

(** ** Floating-point rounding and formatting *)

Module float_facts.
Import strconv.
Local Open Scope Z_scope.

Lemma rne_exact n q : 0 < q → rne (n * q) q = n.
Proof.
  intros Hq. unfold rne. rewrite Z.div_mul, Z.mod_mul by lia.
  destruct q; [lia|done|lia].
Qed.

(** [rne p q] is an integer nearest to [p/q], and the even one of the two
    when [p/q] lies half-way. *)
Lemma rne_nearest p q :
  0 ≤ p → 0 < q →
  0 ≤ rne p q
  ∧ 2 * Z.abs (rne p q * q - p) ≤ q
  ∧ (2 * Z.abs (rne p q * q - p) = q → Z.even (rne p q) = true).
Proof.
  intros Hp Hq. unfold rne.
  pose proof (Z.div_mod p q ltac:(lia)) as Hdm.
  pose proof (Z.mod_pos_bound p q Hq) as Hr.
  pose proof (Z.div_pos p q Hp Hq) as Hn.
  set (n := p / q) in *. set (r := p mod q) in *.
  destruct (2 * r ?= q) eqn:Hc.
  - apply Z.compare_eq_iff in Hc. destruct (Z.even n) eqn:He.
    + split_and!; [lia|lia|done].
    + split_and!; [lia|lia|]. intros _.
      rewrite Z.even_add, He. done.
  - change (2 * r < q) in Hc. split_and!; [lia|lia|intros ?; exfalso; lia].
  - change (2 * r > q) in Hc. split_and!; [lia|lia|intros ?; exfalso; lia].
Qed.

Lemma odd_part_odd m e : is_odd m = true → odd_part m e = (m, e).
Proof. by destruct m. Qed.

Lemma odd_part_shift (k : Z) :
  0 ≤ k → ∀ m m' e, is_odd m = true → Zpos m' = Zpos m * 2 ^ k →
  odd_part m' e = (m, e + k).
Proof.
  intros Hk. pattern k. apply natlike_ind; [| |done]; clear k Hk.
  - intros m m' e Hodd Hm. rewrite Z.pow_0_r, Z.mul_1_r in Hm. injection Hm as ->.
    rewrite Z.add_0_r. by apply odd_part_odd.
  - intros k Hk IH m m' e Hodd Hm. rewrite Z.pow_succ_r in Hm by done.
    destruct m' as [m'|m'|].
    + exfalso. lia.
    + simpl. rewrite (IH m m' (e + 1)); [f_equal; lia|done|lia].
    + exfalso. assert (0 < 2 ^ k) by (apply Z.pow_pos_nonneg; lia). nia.
Qed.

Lemma bitlen_shift m m' k :
  0 ≤ k → Zpos m' = Zpos m * 2 ^ k → bitlen m' = bitlen m + k.
Proof.
  intros Hk Hm. unfold bitlen. rewrite Hm, Z.log2_mul_pow2 by lia. lia.
Qed.

(** The value [m · 2^e] as a fraction. *)
Lemma scale2_value m e :
  scale2 (Zpos m) 1 (- e) = if 0 <=? - e then (Zpos m, 2 ^ (- e)) else (Zpos m * 2 ^ e, 1).
Proof.
  unfold scale2. destruct (0 <=? - e); [by rewrite Z.mul_1_l|]. by rewrite Z.opp_involutive.
Qed.

Lemma floor_log2_float m e :
  let '(a, b) := scale2 (Zpos m) 1 (- e) in floor_log2 a b = Z.log2 (Zpos m) + e.
Proof.
  rewrite scale2_value. pose proof (Z.log2_spec (Zpos m) ltac:(lia)) as [Hlo Hhi].
  pose proof (Z.log2_nonneg (Zpos m)) as Hl0.
  destruct (0 <=? - e) eqn:He; unfold floor_log2.
  - apply Z.leb_le in He. rewrite Z.log2_pow2 by lia.
    replace (Z.log2 (Zpos m) - - e) with (Z.log2 (Zpos m) + e) by lia.
    unfold scale2. destruct (0 <=? Z.log2 (Zpos m) + e) eqn:Hs.
    + apply Z.leb_le in Hs. rewrite <- Z.pow_add_r by lia.
      replace (- e + (Z.log2 (Zpos m) + e)) with (Z.log2 (Zpos m)) by lia.
      by rewrite (proj2 (Z.leb_le _ _) Hlo).
    + apply Z.leb_gt in Hs.
      assert (2 ^ (- e) ≤ Zpos m * 2 ^ (- (Z.log2 (Zpos m) + e))) as Hle.
      { replace (- e) with (Z.log2 (Zpos m) + - (Z.log2 (Zpos m) + e)) at 1 by lia.
        rewrite Z.pow_add_r by lia. apply Z.mul_le_mono_nonneg_r; [|done].
        apply Z.pow_nonneg. lia. }
      by rewrite (proj2 (Z.leb_le _ _) Hle).
  - apply Z.leb_gt in He. rewrite Z.log2_mul_pow2 by lia. simpl (Z.log2 1).
    rewrite Z.sub_0_r, (Z.add_comm e). unfold scale2.
    rewrite (proj2 (Z.leb_le 0 (Z.log2 (Zpos m) + e))) by lia.
    rewrite Z.mul_1_l, Z.pow_add_r by lia.
    assert (2 ^ Z.log2 (Zpos m) * 2 ^ e ≤ Zpos m * 2 ^ e) as Hle.
    { apply Z.mul_le_mono_nonneg_r; [|done]. apply Z.pow_nonneg. lia. }
    by rewrite (proj2 (Z.leb_le _ _) Hle).
Qed.

(** Rounding a value of the format returns it unchanged. *)
Lemma roundFloat_representable fmt neg m e :
  representable fmt (FFinite neg m e) = true →
  (let '(a, b) := scale2 (Zpos m) 1 (- e) in roundFloat fmt neg a b) = (FFinite neg m e, false).
Proof.
  unfold representable. rewrite !andb_true_iff, !Z.leb_le.
  intros [[[Hodd Hprec] Hmin] Htop].
  pose proof (floor_log2_float m e) as Hfl.
  destruct (scale2 (Zpos m) 1 (- e)) as [a b] eqn:Hab. unfold roundFloat. rewrite Hfl.
  set (E := Z.max (e_min fmt) (Z.log2 (Zpos m) + e - (mant_bits fmt - 1))).
  assert (HE : E ≤ e) by (unfold E, bitlen in *; lia).
  assert (Hpow : 0 < 2 ^ (e - E)) by (apply Z.pow_pos_nonneg; lia).
  assert (∃ m', Zpos m' = Zpos m * 2 ^ (e - E)) as [m' Hm'].
  { destruct (Zpos m * 2 ^ (e - E)) eqn:Hz; [lia|eauto|lia]. }
  assert (Hrne : (let '(a', b') := scale2 a b E in rne a' b') = Zpos m').
  { rewrite scale2_value in Hab. rewrite Hm'. unfold scale2.
    destruct (0 <=? - e) eqn:He; injection Hab as <- <-.
    - apply Z.leb_le in He. destruct (0 <=? E) eqn:HE0.
      + apply Z.leb_le in HE0. assert (e = 0) as -> by lia. assert (E = 0) as -> by lia.
        change (rne (Zpos m) 1 = Zpos m * 1). rewrite Z.mul_1_r.
        rewrite <- (Z.mul_1_r (Zpos m)) at 1. apply rne_exact. lia.
      + apply Z.leb_gt in HE0.
        replace (Zpos m * 2 ^ (- E)) with (Zpos m * 2 ^ (e - E) * 2 ^ (- e)).
        * apply rne_exact. apply Z.pow_pos_nonneg; lia.
        * rewrite <- Z.mul_assoc, <- Z.pow_add_r by lia. do 2 f_equal. lia.
    - apply Z.leb_gt in He. destruct (0 <=? E) eqn:HE0.
      + apply Z.leb_le in HE0. rewrite Z.mul_1_l.
        replace (Zpos m * 2 ^ e) with (Zpos m * 2 ^ (e - E) * 2 ^ E).
        * apply rne_exact. apply Z.pow_pos_nonneg; lia.
        * rewrite <- Z.mul_assoc, <- Z.pow_add_r by lia. do 2 f_equal. lia.
      + apply Z.leb_gt in HE0.
        replace (Zpos m * 2 ^ e * 2 ^ (- E)) with (Zpos m * 2 ^ (e - E) * 1).
        * apply rne_exact. lia.
        * rewrite Z.mul_1_r, <- Z.mul_assoc, <- Z.pow_add_r by lia. do 2 f_equal; lia. }
  destruct (scale2 a b E) as [a' b']. rewrite Hrne.
  rewrite (bitlen_shift m m' (e - E)) by (lia || done).
  replace (e_top fmt <? E + (bitlen m + (e - E))) with false
    by (symmetry; apply Z.ltb_ge; lia).
  rewrite (odd_part_shift (e - E) ltac:(lia) m m' E) by done.
  do 2 f_equal. lia.
Qed.

Lemma toFloat32_representable x :
  representable binary32 x = true → toFloat32 x = x.
Proof.
  destruct x as [| | |neg m e]; try done. intros Hr. unfold toFloat32.
  pose proof (roundFloat_representable binary32 neg m e Hr) as H.
  destruct (scale2 (Zpos m) 1 (- e)). by rewrite H.
Qed.

End float_facts.

Lemma FormatFloat_f_zero_decimals x :
  zeroDecimalText x (strconv.FormatFloat_f x 0 64).
Proof.
  destruct x as [|neg|neg|neg m e]; try done.
  change (∃ n, nearestInteger m e n
            ∧ (let '(a, b) := strconv.scale2 (Zpos m * 1) 1 (- e) in
               strconv.signText neg +:+ strconv.decimal (Z.to_N (strconv.rne a b)))
              = strconv.signText neg +:+ strconv.decimal (Z.to_N n)).
  rewrite Z.mul_1_r, float_facts.scale2_value.
  destruct (0 <=? - e)%Z eqn:He.
  - apply Z.leb_le in He.
    destruct (float_facts.rne_nearest (Zpos m) (2 ^ (- e))) as (H0 & H1 & H2);
      [lia|apply Z.pow_pos_nonneg; lia|].
    exists (strconv.rne (Zpos m) (2 ^ (- e))). split; [|done]. split; [done|].
    destruct (0 <=? e)%Z eqn:He'; [|done].
    apply Z.leb_le in He'. assert (e = 0%Z) as -> by lia.
    change (2 ^ (- 0))%Z with 1%Z. rewrite <- (Z.mul_1_r (Zpos m)) at 1.
    rewrite float_facts.rne_exact by lia. simpl. lia.
  - apply Z.leb_gt in He. exists (Zpos m * 2 ^ e)%Z. split.
    + split; [apply Z.mul_nonneg_nonneg; [lia|apply Z.pow_nonneg; lia]|].
      by rewrite (proj2 (Z.leb_le 0 e)) by lia.
    + rewrite <- (Z.mul_1_r (Zpos m * 2 ^ e)) at 1.
      by rewrite float_facts.rne_exact by lia.
Qed.

Lemma FormatFloat_f_32 x prec :
  strconv.representable strconv.binary32 x = true →
  strconv.FormatFloat_f x prec 32 = strconv.FormatFloat_f x prec 64.
Proof.
  intros Hr. unfold strconv.FormatFloat_f.
  rewrite decide_True by done. rewrite decide_False by done.
  by rewrite float_facts.toFloat32_representable.
Qed.

(** C8, as the code has it. For every value of a [float32] or [float64]
    field, the cell written is the 'f' format with zero digits after the
    point: for a finite value the sign and the decimal numeral of the
    integer nearest to the value (ties to even), whatever its fractional
    part; for a zero "0" or "-0"; and for the values that have no integer
    rounding the words "NaN", "+Inf" and "-Inf". *)
Theorem encode_float_zero_decimals (str : list Value) (field : FieldRef) (x : strconv.float) :
  Kind_of field = KFloat32 ∨ Kind_of field = KFloat64 →
  contents str field = VFloat x →
  hasKind (Kind_of field) (VFloat x) = true →
  ∃ text, encodeField str field = Ok text ∧ zeroDecimalText x text.
Proof.
  intros Hk Hx Hty. unfold encodeField, Float_. rewrite Hx.
  destruct Hk as [Hk|Hk]; rewrite Hk in *; simpl in Hty.
  - eexists. split; [done|]. rewrite FormatFloat_f_32 by done.
    apply FormatFloat_f_zero_decimals.
  - eexists. split; [done|]. apply FormatFloat_f_zero_decimals.
Qed.

Lemma encode_float_zero_decimals_witness :
  let field := mkFieldRef 0 (mkField "Price" "" KFloat32 [("col", "price")]) in
  let x := strconv.FFinite false 15 (-2) in
  let str := [VFloat x] in
  (Kind_of field = KFloat32 ∨ Kind_of field = KFloat64)
  ∧ contents str field = VFloat x
  ∧ hasKind (Kind_of field) (VFloat x) = true
  ∧ ∃ text, encodeField str field = Ok text ∧ zeroDecimalText x text.
Proof.
  split; [by left|]. split; [reflexivity|]. split; [reflexivity|].
  apply (encode_float_zero_decimals
           [VFloat (strconv.FFinite false 15 (-2))]
           (mkFieldRef 0 (mkField "Price" "" KFloat32 [("col", "price")]))
           (strconv.FFinite false 15 (-2))); [by left|reflexivity|reflexivity].
Defined.

Lemma decimal_head n :
  ∃ c rest, strconv.decimal n = String c rest ∧ is_Some (strconv.digit c).
Proof.
  unfold strconv.decimal, NilZero.string_of_uint.
  destruct (N.to_uint n); simpl; eexists _, _; (split; [reflexivity|]); by eexists.
Qed.

(** The float values that have no integer rounding are not written as
    integers: a NaN and the infinities are written as words, which are no
    decimal numerals. *)
Lemma encode_float_NaN_is_no_numeral :
  let field := mkFieldRef 0 (mkField "Price" "" KFloat64 [("col", "price")]) in
  hasKind (Kind_of field) (VFloat strconv.FNaN) = true
  ∧ encodeField [VFloat strconv.FNaN] field = Ok "NaN"
  ∧ encodeField [VFloat (strconv.FInf false)] field = Ok "+Inf"
  ∧ (∀ neg n, "NaN" ≠ strconv.signText neg +:+ strconv.decimal n)
  ∧ (∀ neg n, "+Inf" ≠ strconv.signText neg +:+ strconv.decimal n).
Proof.
  split_and!; [reflexivity..| |].
  - intros neg n H. destruct (decimal_head n) as (c & rest & Hd & [d Hc]).
    rewrite Hd in H. destruct neg; simpl in H; [discriminate H|].
    injection H as <- _. discriminate Hc.
  - intros neg n H. destruct (decimal_head n) as (c & rest & Hd & [d Hc]).
    rewrite Hd in H. destruct neg; simpl in H; [discriminate H|].
    injection H as <- _. discriminate Hc.
Qed.

(** ** Printing and parsing numbers *)

Module strconv_facts.
Import strconv.

Lemma uintValue_pos d acc : uintValue (Npos acc) d = Npos (Pos.of_uint_acc d acc).
Proof.
  revert acc. induction d; intros acc; cbn [uintValue Pos.of_uint_acc]; [done|..].
  all: rewrite <- IHd; f_equal; lia.
Qed.

Lemma uintValue_0 d : uintValue 0 d = N.of_uint d.
Proof.
  unfold N.of_uint. induction d; cbn [uintValue Pos.of_uint]; [done|done|..].
  all: change (0 * 10 + _)%N with (Npos 1) || change (0 * 10 + _)%N with (Npos 2)
       || change (0 * 10 + _)%N with (Npos 3) || change (0 * 10 + _)%N with (Npos 4)
       || change (0 * 10 + _)%N with (Npos 5) || change (0 * 10 + _)%N with (Npos 6)
       || change (0 * 10 + _)%N with (Npos 7) || change (0 * 10 + _)%N with (Npos 8)
       || change (0 * 10 + _)%N with (Npos 9); apply uintValue_pos.
Qed.

Lemma uintValue_to_uint n : uintValue 0 (N.to_uint n) = n.
Proof. rewrite uintValue_0. apply DecimalN.Unsigned.of_to. Qed.

Lemma uint_digits d acc :
  allDigits (NilEmpty.string_of_uint d) = true
  ∧ digitsValue acc (NilEmpty.string_of_uint d) = uintValue acc d.
Proof.
  revert acc. induction d; intros acc; [done|..]; apply (IHd _).
Qed.

Lemma to_uint_nonnil n : N.to_uint n ≠ Decimal.Nil.
Proof. destruct n; [done|]. apply DecimalPos.Unsigned.to_uint_nonnil. Qed.

Lemma decimal_digits n :
  allDigits (decimal n) = true ∧ digitsValue 0 (decimal n) = n ∧ decimal n ≠ "".
Proof.
  unfold decimal, NilZero.string_of_uint. pose proof (to_uint_nonnil n) as Hn.
  pose proof (uintValue_to_uint n) as Hv.
  destruct (N.to_uint n) eqn:Hd; [done|..];
    (split_and!; [apply (uint_digits _ 0)|by rewrite (proj2 (uint_digits _ 0))|done]).
Qed.

(** What a digit byte is not. *)
Lemma digit_char c k :
  digit c = Some k →
  c ≠ "+"%char ∧ c ≠ "-"%char ∧ c ≠ "_"%char ∧ c ≠ "."%char
  ∧ c ≠ "i"%char ∧ c ≠ "I"%char ∧ c ≠ "n"%char ∧ c ≠ "N"%char
  ∧ lower c ≠ "x"%char ∧ lower c ≠ "e"%char ∧ foldUpper c ≠ "i"%char.
Proof.
  destruct c as [[] [] [] [] [] [] [] []]; vm_compute; intros H; try discriminate H;
    repeat split; discriminate.
Qed.

Lemma digitsValue_mono s acc : (acc ≤ digitsValue acc s)%N.
Proof.
  revert acc. induction s as [|c s IH]; intros acc; simpl; [lia|].
  destruct (digit c) as [d|]; [|lia]. specialize (IH (acc * 10 + d)%N). lia.
Qed.

(** ** Integers *)

Lemma maxVal_le bitSize : (bitSize ≤ 64 → 2 ^ bitSize - 1 ≤ maxUint64)%N.
Proof.
  intros Hb. pose proof (N.pow_le_mono_r 2 bitSize 64 ltac:(lia) Hb) as Hp.
  change (2 ^ 64)%N with 18446744073709551616%N in Hp. unfold maxUint64. lia.
Qed.

(** Digits whose value is at most [maxVal] are read as that value. *)
Lemma parseUintLoop_digits maxVal s0 s acc :
  (maxVal ≤ maxUint64)%N →
  allDigits s = true → (digitsValue acc s ≤ maxVal)%N →
  parseUintLoop (maxUint64 / 10 + 1) maxVal s0 acc s = (digitsValue acc s, None).
Proof.
  change (maxUint64 / 10 + 1)%N with 1844674407370955162%N. unfold maxUint64.
  intros Hle. revert acc. induction s as [|c s IH]; intros acc Hall Hmax; simpl in *; [done|].
  destruct (digit c) as [d|]; [|done].
  pose proof (digitsValue_mono s (acc * 10 + d)) as Hm.
  rewrite (proj2 (N.leb_gt _ _)) by lia. rewrite (proj2 (N.ltb_ge _ _)) by lia.
  by apply IH.
Qed.

(** Digits whose value is beyond [maxVal] are a range error, wherever
    the loop finds out. *)
Lemma parseUintLoop_range maxVal s0 s acc :
  allDigits s = true → (acc ≤ maxVal)%N → (maxVal < digitsValue acc s)%N →
  parseUintLoop (maxUint64 / 10 + 1) maxVal s0 acc s
  = (maxVal, Some (rangeError "ParseUint" s0)).
Proof.
  revert acc. induction s as [|c s IH]; intros acc Hall Hacc Hbig; simpl in *; [lia|].
  destruct (digit c) as [d|]; [|done].
  destruct (maxUint64 / 10 + 1 <=? acc)%N; [done|].
  destruct (maxVal <? acc * 10 + d)%N eqn:Hn1; [done|].
  apply N.ltb_ge in Hn1. by apply IH.
Qed.

Lemma ParseUint_digits s bitSize :
  (bitSize ≤ 64)%N →
  allDigits s = true → s ≠ "" → (digitsValue 0 s ≤ 2 ^ bitSize - 1)%N →
  ParseUint s bitSize = (digitsValue 0 s, None).
Proof.
  intros Hb Hall Hne Hmax. unfold ParseUint. destruct s; [done|].
  apply parseUintLoop_digits; [by apply maxVal_le|done..].
Qed.

Lemma ParseUint_range s bitSize :
  allDigits s = true → (2 ^ bitSize - 1 < digitsValue 0 s)%N →
  ParseUint s bitSize = (2 ^ bitSize - 1, Some (rangeError "ParseUint" s))%N.
Proof.
  intros Hall Hbig. unfold ParseUint. destruct s; [simpl in Hbig; lia|].
  apply parseUintLoop_range; [done|lia|done].
Qed.

Lemma pow2_half bitSize : (0 < bitSize → 2 ^ bitSize = 2 * 2 ^ (bitSize - 1))%N.
Proof.
  intros Hb. rewrite <- N.pow_succ_r by lia. f_equal. lia.
Qed.

Lemma ParseInt_digits neg s bitSize :
  (0 < bitSize ≤ 64)%N →
  allDigits s = true → s ≠ "" →
  (digitsValue 0 s < 2 ^ (bitSize - 1) + (if neg : bool then 1 else 0))%N →
  ParseInt (signText neg +:+ s) bitSize
  = ((if neg then - Z.of_N (digitsValue 0 s) else Z.of_N (digitsValue 0 s))%Z, None).
Proof.
  intros Hb Hall Hne Hrange. destruct s as [|c s]; [done|].
  assert (∃ k, digit c = Some k) as [k Hk].
  { simpl in Hall. destruct (digit c); [eauto|done]. }
  destruct (digit_char c k Hk) as (Hplus & Hminus & _).
  pose proof (pow2_half bitSize ltac:(lia)) as Hpow.
  assert (Hpos : (0 < 2 ^ (bitSize - 1))%N) by (apply N.neq_0_lt_0, N.pow_nonzero; lia).
  assert (Hmax : (digitsValue 0 (String c s) ≤ 2 ^ bitSize - 1)%N) by (destruct neg; lia).
  destruct neg; unfold ParseInt; simpl signText.
  - change ("-" +:+ String c s) with (String "-" (String c s)). cbv beta iota.
    rewrite (decide_False (P := ("-"%char = "+"%char))) by done.
    rewrite (decide_True (P := ("-"%char = "-"%char))) by done.
    rewrite ParseUint_digits by (done || lia).
    rewrite (proj2 (N.ltb_ge _ _)) by lia. done.
  - change ("" +:+ String c s) with (String c s). cbv beta iota.
    rewrite (decide_False (P := (c = "+"%char))) by done.
    rewrite (decide_False (P := (c = "-"%char))) by done.
    rewrite ParseUint_digits by (done || lia).
    rewrite (proj2 (N.leb_gt _ _)) by lia. done.
Qed.

Lemma FormatInt_text z :
  FormatInt z = signText (z <? 0)%Z +:+ decimal (Z.abs_N z).
Proof. destruct z; reflexivity. Qed.

(** An integer that fits [bitSize] bits is read back from its text. *)
Lemma ParseInt_FormatInt z bitSize :
  (0 < bitSize ≤ 64)%N →
  (- 2 ^ (Z.of_N bitSize - 1) ≤ z < 2 ^ (Z.of_N bitSize - 1))%Z →
  ParseInt (FormatInt z) bitSize = (z, None).
Proof.
  intros Hb Hz. rewrite FormatInt_text.
  destruct (decimal_digits (Z.abs_N z)) as (Hall & Hval & Hne).
  assert (Hpow : Z.of_N (2 ^ (bitSize - 1)) = (2 ^ (Z.of_N bitSize - 1))%Z).
  { rewrite N2Z.inj_pow. f_equal. lia. }
  assert (H63 : (2 ^ (Z.of_N bitSize - 1) ≤ 2 ^ 63)%Z).
  { apply Z.pow_le_mono_r; lia. }
  rewrite ParseInt_digits; rewrite ?Hval; try done.
  - f_equal. destruct (z <? 0)%Z eqn:Hneg; lia.
  - destruct (z <? 0)%Z eqn:Hneg; lia.
Qed.

Lemma ParseBool_FormatBool b : ParseBool (FormatBool b) = (b, None).
Proof. by destruct b. Qed.

End strconv_facts.

(** ** Floats with an integral value *)

Module parse_float_facts.
Import strconv strconv_facts.

Lemma special_digits neg c rest k :
  digit c = Some k → special (signText neg +:+ String c rest) = None.
Proof.
  intros Hk. destruct (digit_char c k Hk) as (H1 & H2 & _ & _ & H5 & H6 & H7 & H8 & _ & _ & H11).
  destruct neg.
  - change (signText true +:+ String c rest) with (String "-" (String c rest)).
    unfold special. rewrite (decide_False (P := ("-"%char = "+"%char))) by done.
    rewrite (decide_True (P := ("-"%char = "-"%char))) by done.
    cbn [commonPrefixLenIgnoreCase]. rewrite (decide_False (P := (foldUpper c = "i"%char))) by done.
    reflexivity.
  - change (signText false +:+ String c rest) with (String c rest).
    unfold special. rewrite (decide_False (P := (c = "+"%char))) by done.
    rewrite (decide_False (P := (c = "-"%char))) by done.
    rewrite (decide_False (P := (c = "i"%char ∨ c = "I"%char))) by (intros [?|?]; done).
    rewrite (decide_False (P := (c = "n"%char ∨ c = "N"%char))) by (intros [?|?]; done).
    reflexivity.
Qed.

Lemma hexPrefix_digits s : allDigits s = true → hexPrefix s = (false, s).
Proof.
  intros Hall. destruct s as [|c0 [|c1 [|c2 r]]]; try reflexivity.
  - destruct c0 as [[] [] [] [] [] [] [] []]; reflexivity.
  - destruct c0 as [[] [] [] [] [] [] [] []]; reflexivity.
  - assert (∃ k, digit c1 = Some k) as [k Hk].
    { simpl in Hall. destruct (digit c0); [|done]. destruct (digit c1); [eauto|done]. }
    destruct (digit_char c1 k Hk) as (_ & _ & _ & _ & _ & _ & _ & _ & Hx & _).
    unfold hexPrefix.
    destruct c0 as [[] [] [] [] [] [] [] []]; try reflexivity.
    by rewrite decide_False.
Qed.

Lemma readMantissa_digits s st :
  allDigits s = true → sawdot st = false →
  readMantissa false st s
  = (mkMantissa (digitsValue (mant st) s) (frac st) false
       (match s with EmptyString => sawdigits st | _ => true end) (underscores st),
     EmptyString).
Proof.
  revert st. induction s as [|c s IH]; intros st Hall Hdot.
  - simpl. destruct st; simpl in *; by subst.
  - simpl in Hall. cbn [readMantissa digitsValue].
    destruct (digit c) as [d|] eqn:Hd; [|done].
    destruct (digit_char c d Hd) as (_ & _ & H3 & H4 & _).
    rewrite (decide_False (P := (c = "_"%char))) by done.
    rewrite (decide_False (P := (c = "."%char))) by done.
    rewrite IH by (done || by rewrite ?Hdot). cbn [mant frac sawdigits underscores sawdot].
    rewrite Hdot. by destruct s.
Qed.

Lemma readFloat_digits neg s :
  allDigits s = true → s ≠ "" →
  readFloat (signText neg +:+ s) = Some (neg, false, digitsValue 0 s, 0%Z).
Proof.
  intros Hall Hne. destruct s as [|c s]; [done|].
  assert (∃ k, digit c = Some k) as [k Hk].
  { simpl in Hall. destruct (digit c); [eauto|done]. }
  destruct (digit_char c k Hk) as (Hplus & Hminus & _).
  assert (Hstrip : stripSign (signText neg +:+ String c s) = (neg, String c s)).
  { destruct neg.
    - reflexivity.
    - change (signText false +:+ String c s) with (String c s). unfold stripSign.
      rewrite (decide_False (P := (c = "+"%char))) by done.
      by rewrite (decide_False (P := (c = "-"%char))) by done. }
  unfold readFloat. rewrite Hstrip, (hexPrefix_digits _ Hall).
  rewrite readMantissa_digits by done. reflexivity.
Qed.

(** The text of a positive integer parses to its rounding. *)
Lemma ParseFloat_digits neg s bitSize p :
  allDigits s = true → s ≠ "" → digitsValue 0 s = Npos p →
  ParseFloat (signText neg +:+ s) bitSize
  = let fmt := if decide (bitSize = 32%N) then binary32 else binary64 in
    let '(f, overflow) := roundFloat fmt neg (Zpos p * 1) 1 in
    (f, if overflow then Some (rangeError "ParseFloat" (signText neg +:+ s)) else None).
Proof.
  intros Hall Hne Hp. unfold ParseFloat.
  rewrite (readFloat_digits neg s Hall Hne), Hp.
  destruct s as [|c s]; [done|].
  assert (∃ k, digit c = Some k) as [k Hk].
  { simpl in Hall. destruct (digit c); [eauto|done]. }
  by rewrite (special_digits neg c s k Hk).
Qed.

Lemma FormatFloat_f_integral neg m e :
  (0 ≤ e)%Z →
  FormatFloat_f (FFinite neg m e) 0 64
  = signText neg +:+ decimal (Z.to_N (Zpos m * 2 ^ e)).
Proof.
  intros He.
  change (FormatFloat_f (FFinite neg m e) 0 64)
    with (let '(a, b) := scale2 (Zpos m * 1) 1 (- e) in
          signText neg +:+ decimal (Z.to_N (rne a b))).
  rewrite Z.mul_1_r, float_facts.scale2_value.
  destruct (0 <=? - e)%Z eqn:He'.
  - apply Z.leb_le in He'. assert (e = 0%Z) as -> by lia.
    change (2 ^ (- 0))%Z with 1%Z. change (2 ^ 0)%Z with 1%Z.
    rewrite (Z.mul_1_r (Zpos m)). replace (rne (Zpos m) 1) with (Zpos m); [done|].
    symmetry. rewrite <- (Z.mul_1_r (Zpos m)) at 1. apply float_facts.rne_exact. lia.
  - rewrite <- (Z.mul_1_r (Zpos m * 2 ^ e)) at 1. by rewrite float_facts.rne_exact by lia.
Qed.

(** A float with an integral value is read back from its zero-decimal
    text. *)
Lemma ParseFloat_FormatFloat x bitSize :
  representable (if decide (bitSize = 32%N) then binary32 else binary64) x = true →
  integral x = true →
  ParseFloat (FormatFloat_f x 0 64) bitSize = (x, None).
Proof.
  intros Hr Hi. destruct x as [|neg|neg|neg m e]; [done|..].
  - destruct neg; reflexivity.
  - destruct neg; reflexivity.
  - simpl in Hi. apply Z.leb_le in Hi. rewrite FormatFloat_f_integral by done.
    assert (Hpow : (0 < 2 ^ e)%Z) by (apply Z.pow_pos_nonneg; lia).
    destruct (Zpos m * 2 ^ e)%Z as [|p|p] eqn:Hp; [lia| |lia].
    destruct (decimal_digits (Z.to_N (Zpos p))) as (Hall & Hval & Hne).
    rewrite (ParseFloat_digits neg _ bitSize p Hall Hne) by (by rewrite Hval).
    cbv zeta. rewrite Z.mul_1_r.
    pose proof (float_facts.roundFloat_representable _ neg m e Hr) as Hround.
    rewrite float_facts.scale2_value in Hround.
    destruct (0 <=? - e)%Z eqn:He'.
    + apply Z.leb_le in He'. assert (e = 0%Z) as -> by lia.
      change (2 ^ (- 0))%Z with 1%Z in Hround. rewrite Z.mul_1_r in Hp.
      injection Hp as ->. by rewrite Hround.
    + rewrite Hp in Hround. by rewrite Hround.
Qed.

End parse_float_facts.

(** ** Floats with a fractional part *)

Module round_facts.
Import strconv.
Local Open Scope Z_scope.

Lemma odd_part_spec n e m' e' :
  odd_part n e = (m', e') →
  is_odd m' = true ∧ e ≤ e' ∧ Zpos n = Zpos m' * 2 ^ (e' - e).
Proof.
  revert e. induction n as [n IH|n IH|]; intros e; simpl.
  - intros [= <- <-]. rewrite Z.sub_diag. split_and!; [done|lia|lia].
  - intros H. apply IH in H as (Hodd & Hle & Hn). split_and!; [done|lia|].
    replace (e' - e) with (Z.succ (e' - (e + 1))) by lia.
    rewrite Z.pow_succ_r by lia. lia.
  - intros [= <- <-]. rewrite Z.sub_diag. split_and!; [done|lia|lia].
Qed.

Lemma rne_le p q : 0 ≤ p → 0 < q → 0 ≤ rne p q ≤ p / q + 1.
Proof.
  intros Hp Hq. unfold rne. pose proof (Z.div_pos p q Hp Hq).
  destruct (2 * (p mod q) ?= q); [destruct (Z.even (p / q))|..]; lia.
Qed.

Lemma FormatFloat_f_fraction neg m e :
  e < 0 →
  FormatFloat_f (FFinite neg m e) 0 64
  = signText neg +:+ decimal (Z.to_N (rne (Zpos m) (2 ^ (- e)))).
Proof.
  intros He.
  change (FormatFloat_f (FFinite neg m e) 0 64)
    with (let '(a, b) := scale2 (Zpos m * 1) 1 (- e) in
          signText neg +:+ decimal (Z.to_N (rne a b))).
  rewrite Z.mul_1_r, float_facts.scale2_value.
  by rewrite (proj2 (Z.leb_le 0 (- e))) by lia.
Qed.

Lemma FormatFloat_f_roundToInteger x :
  FormatFloat_f x 0 64 = FormatFloat_f (roundToInteger x) 0 64.
Proof.
  destruct x as [|neg|neg|neg m e]; try done. unfold roundToInteger.
  destruct (0 <=? e) eqn:He; [done|]. apply Z.leb_gt in He.
  rewrite FormatFloat_f_fraction by done.
  assert (Hq : 0 < 2 ^ (- e)) by (apply Z.pow_pos_nonneg; lia).
  pose proof (rne_le (Zpos m) (2 ^ (- e)) ltac:(lia) Hq) as Hn.
  destruct (rne (Zpos m) (2 ^ (- e))) as [|n|n] eqn:Hr; [done| |lia].
  destruct (odd_part n 0) as [m' e'] eqn:Hodd.
  apply odd_part_spec in Hodd as (_ & He' & Hval). rewrite Z.sub_0_r in Hval.
  rewrite parse_float_facts.FormatFloat_f_integral by done. by rewrite <- Hval.
Qed.

Lemma roundToInteger_integral x : x ≠ FNaN → integral (roundToInteger x) = true.
Proof.
  destruct x as [|neg|neg|neg m e]; try done. intros _. unfold roundToInteger.
  destruct (0 <=? e) eqn:He; [done|].
  destruct (rne (Zpos m) (2 ^ (- e))) as [|n|n]; try done.
  destruct (odd_part n 0) as [m' e'] eqn:Hodd.
  apply odd_part_spec in Hodd as (_ & He' & _). simpl. by apply Z.leb_le.
Qed.

Lemma roundToInteger_representable fmt x :
  0 < mant_bits fmt ≤ e_top fmt → e_min fmt ≤ 0 →
  representable fmt x = true → representable fmt (roundToInteger x) = true.
Proof.
  intros Hmb Hmin. destruct x as [|neg|neg|neg m e]; try done. unfold roundToInteger.
  destruct (0 <=? e) eqn:He; [done|]. apply Z.leb_gt in He. intros Hr.
  assert (Hq : 0 < 2 ^ (- e)) by (apply Z.pow_pos_nonneg; lia).
  pose proof (rne_le (Zpos m) (2 ^ (- e)) ltac:(lia) Hq) as Hn.
  destruct (rne (Zpos m) (2 ^ (- e))) as [|n|n] eqn:Hrne; [done| |lia].
  destruct (odd_part n 0) as [m' e'] eqn:Hodd.
  apply odd_part_spec in Hodd as (Hodd & He' & Hval). rewrite Z.sub_0_r in Hval.
  simpl in Hr. rewrite !andb_true_iff, !Z.leb_le in Hr. destruct Hr as [[[_ Hlen] _] _].
  assert (Hm : Zpos m < 2 ^ mant_bits fmt).
  { apply Z.log2_lt_pow2; [lia|]. unfold bitlen in Hlen. lia. }
  assert (Hhalf : Zpos m / 2 ^ (- e) ≤ Zpos m / 2).
  { replace (- e) with (Z.succ (- e - 1)) by lia. rewrite Z.pow_succ_r by lia.
    rewrite <- Z.div_div by (try apply Z.pow_pos_nonneg; lia).
    apply Z.div_le_upper_bound; [apply Z.pow_pos_nonneg; lia|].
    assert (0 ≤ Zpos m / 2) by (apply Z.div_pos; lia).
    assert (1 ≤ 2 ^ (- e - 1)) by (apply (Z.pow_le_mono_r 2 0); lia). nia. }
  assert (Hpow : 2 ^ mant_bits fmt = 2 * 2 ^ (mant_bits fmt - 1)).
  { rewrite <- Z.pow_succ_r by lia. f_equal. lia. }
  assert (Hnle : Zpos n ≤ 2 ^ (mant_bits fmt - 1)).
  { assert (Zpos m / 2 < 2 ^ (mant_bits fmt - 1)); [|lia].
    apply Z.div_lt_upper_bound; lia. }
  assert (Hlog : bitlen n ≤ mant_bits fmt).
  { unfold bitlen. apply Z.log2_le_mono in Hnle. rewrite Z.log2_pow2 in Hnle by lia. lia. }
  pose proof (float_facts.bitlen_shift m' n e' He' Hval) as Hshift.
  assert (0 < bitlen m') by (unfold bitlen; pose proof (Z.log2_nonneg (Zpos m')); lia).
  simpl. rewrite Hodd. rewrite !andb_true_iff, !Z.leb_le. lia.
Qed.

Lemma ParseFloat_NaN bitSize : ParseFloat "NaN" bitSize = (FNaN, None).
Proof. reflexivity. Qed.

(** What is read back from the text written for a float. *)
Lemma ParseFloat_FormatFloat_rounds x bitSize :
  representable (if decide (bitSize = 32%N) then binary32 else binary64) x = true →
  ParseFloat (FormatFloat_f x 0 64) bitSize = (roundToInteger x, None).
Proof.
  intros Hr. assert (x = FNaN ∨ x ≠ FNaN) as [->|Hnan] by (destruct x; auto).
  { apply ParseFloat_NaN. }
  rewrite FormatFloat_f_roundToInteger.
  apply parse_float_facts.ParseFloat_FormatFloat; [|by apply roundToInteger_integral].
  apply roundToInteger_representable; [| |done]; by destruct (decide (bitSize = 32%N)).
Qed.

End round_facts.

(** ** Writing, then reading *)

Lemma wrap_inRange bits z : (0 < bits)%Z → inRange bits z = true → wrap bits z = z.
Proof.
  unfold inRange, wrap. rewrite andb_true_iff, Z.leb_le, Z.ltb_lt. intros Hb [Hlo Hhi].
  assert (Hpow : (2 ^ bits = 2 * 2 ^ (bits - 1))%Z).
  { rewrite <- Z.pow_succ_r by lia. f_equal. lia. }
  rewrite Z.mod_small by lia. lia.
Qed.

Lemma roundToInteger_id x : integral x = true → roundToInteger x = x.
Proof. destruct x as [| | |neg m e]; try done. simpl. by intros ->. Qed.

Lemma comesBack_survives v : survives v = true → comesBack v = v.
Proof. destruct v; try done. simpl. intros Hx. by rewrite roundToInteger_id. Qed.

(** What is stored from the text written for a value: the value as it
    comes back, when it is no integer beyond 32 bits. *)
Lemma stored_cellText (r : list Value) i f v :
  r !! i = Some v → hasKind (FieldKind f) v = true → convertible (FieldKind f) = true →
  (∀ z, v = VInt z → inRange 32 z = true) →
  stored (FieldKind f) (cellText r (mkFieldRef i f)) = Some (comesBack v).
Proof.
  intros Hv Hk Hc Hs.
  unfold cellText, encodeField, Kind_of, Bool_, Int_, Float_, String_, contents.
  cbn [Index Field_]. rewrite Hv. change (default VOther (Some v)) with v.
  assert (Hint : ∀ bits z, intBits (FieldKind f) = Some bits → (0 < bits)%Z →
            v = VInt z → inRange bits z = true →
            match intBits (FieldKind f), strconv.ParseInt (strconv.FormatInt z) 32 with
            | Some bits, (n, None) => Some (VInt (wrap bits n))
            | _, _ => None
            end = Some (VInt z)).
  { intros bits z Hbits Hpos Hz Hr. specialize (Hs z Hz). rewrite Hbits.
    rewrite strconv_facts.ParseInt_FormatInt; [by rewrite wrap_inRange|lia|].
    unfold inRange in Hs. apply andb_true_iff in Hs as [?%Z.leb_le ?%Z.ltb_lt].
    change (Z.of_N 32 - 1)%Z with (32 - 1)%Z. lia. }
  destruct (FieldKind f) eqn:HK; try done; destruct v as [b|z|x|s|]; try done;
    cbn [stored comesBack].
  - by rewrite strconv_facts.ParseBool_FormatBool.
  - by apply (Hint 64%Z z).
  - by apply (Hint 8%Z z).
  - by apply (Hint 16%Z z).
  - by apply (Hint 32%Z z).
  - by apply (Hint 64%Z z).
  - simpl in Hk. rewrite FormatFloat_f_32 by done.
    rewrite (round_facts.ParseFloat_FormatFloat_rounds x 32) by done.
    rewrite float_facts.toFloat32_representable; [done|].
    by apply round_facts.roundToInteger_representable.
  - simpl in Hk.
    by rewrite (round_facts.ParseFloat_FormatFloat_rounds x 64) by done.
Qed.

Lemma findField_first name i fs j f :
  fs !! j = Some f → Name f = name →
  (∀ j' g, j' < j → fs !! j' = Some g → Name g ≠ name) →
  findField name i fs = Some (mkFieldRef (i + j) f).
Proof.
  revert i j. induction fs as [|g fs IH]; intros i j Hj Hn Hfirst; [done|].
  simpl. destruct j as [|j]; simpl in Hj.
  - injection Hj as ->. rewrite decide_True by done. by rewrite Nat.add_0_r.
  - rewrite decide_False by (apply (Hfirst 0 g); [lia|done]).
    rewrite (IH (S i) j); [do 2 f_equal; lia|done..|].
    intros j' h Hlt Hh. apply (Hfirst (S j') h); [lia|done].
Qed.

Section round_trip.
Variables (T : rtype) (n : nat).
Hypothesis HT : TypeKind T = KStruct.
Hypothesis Hpre : annotatedPrefix T n.
Hypothesis Hcols : NoDup (colOf <$> take n (Fields T)).
Hypothesis Hnames : NoDup (Name <$> take n (Fields T)).
Hypothesis Hexported : ∀ f, f ∈ take n (Fields T) → IsExported f = true.
Hypothesis Hkinds : ∀ f, f ∈ take n (Fields T) → convertible (FieldKind f) = true.

Let header : list string := colOf <$> take n (Fields T).

Lemma prefix_lookup i f : take n (Fields T) !! i = Some f ↔ Fields T !! i = Some f ∧ annotated f.
Proof.
  destruct Hpre as [Hn Hann]. rewrite lookup_take_Some. split.
  - intros [Hf Hi]. split; [done|]. by apply (Hann i f).
  - intros [Hf Ha]. split; [done|]. by apply (Hann i f).
Qed.

Lemma header_lastIndex i f :
  take n (Fields T) !! i = Some f → lastIndex (colOf f) header = Some i.
Proof.
  intros Hf. apply lastIndex_Some.
  assert (Hi : header !! i = Some (colOf f)) by (unfold header; by rewrite list_lookup_fmap, Hf).
  split; [done|]. intros k Hk.
  by rewrite (NoDup_lookup header k i (colOf f) Hcols Hk Hi).
Qed.

Lemma FieldByName_prefix i f :
  take n (Fields T) !! i = Some f → FieldByName T (Name f) = Some (mkFieldRef i f).
Proof.
  intros Hf. pose proof Hf as [Hf' Hi]%lookup_take_Some.
  unfold FieldByName. rewrite (findField_first (Name f) 0 (Fields T) i f); [done..|].
  intros j g Hj Hg Heq.
  assert (Hg' : take n (Fields T) !! j = Some g) by (apply lookup_take_Some; split; [done|lia]).
  assert (j = i); [|lia].
  apply (NoDup_lookup (Name <$> take n (Fields T)) j i (Name f) Hnames).
  - by rewrite list_lookup_fmap, Hg', <- Heq.
  - by rewrite list_lookup_fmap, Hf.
Qed.

(** The binding of the written header maps the name of the [i]-th field
    to [i], for [i < n], and nothing else. *)
Lemma binding_of_written_header colDef :
  getStructTags T header = Ok colDef →
  (∀ i f, take n (Fields T) !! i = Some f → colDef !! Name f = Some i)
  ∧ (∀ k v, colDef !! k = Some v → ∃ f, take n (Fields T) !! v = Some f ∧ Name f = k).
Proof.
  intros Hb. rewrite getStructTags_struct in Hb by done.
  destruct (bindFields_Ok _ _ _ _ Hb) as (H1 & _ & H3).
  assert (Hinv : ∀ k v, colDef !! k = Some v →
            ∃ f, take n (Fields T) !! v = Some f ∧ Name f = k).
  { intros k v Hk. apply H3 in Hk as [Hk|(f & Hf & Ha & Hname & Hv)]; [done|].
    apply list_elem_of_lookup in Hf as [j Hj].
    assert (Hj' : take n (Fields T) !! j = Some f) by (by apply prefix_lookup).
    rewrite colNum_lookup, (header_lastIndex j f Hj') in Hv. injection Hv as <-. eauto. }
  split; [|done]. intros i f Hf.
  pose proof Hf as [Hf' Ha]%prefix_lookup.
  destruct (H1 f) as [_ [v Hv]]; [by eapply list_elem_of_lookup_2|done|].
  rewrite Hv. f_equal. destruct (Hinv _ _ Hv) as (g & Hg & Hname).
  apply (NoDup_lookup (Name <$> take n (Fields T)) v i (Name f) Hnames).
  - by rewrite list_lookup_fmap, Hg, <- Hname.
  - by rewrite list_lookup_fmap, Hf.
Qed.

Lemma getStructTags_written_header : is_Ok (getStructTags T header).
Proof.
  apply getStructTags_complete; [done|]. intros f Hf Ha.
  apply list_elem_of_lookup in Hf as [j Hj].
  assert (Hj' : take n (Fields T) !! j = Some f) by (by apply prefix_lookup).
  apply (list_elem_of_lookup_2 _ j). unfold header. by rewrite list_lookup_fmap, Hj'.
Qed.

(** A written row decodes to the record it was written from as its
    values come back, with the unannotated fields at zero. *)
Lemma decodeRow_written_row colDef order (r : list Value) :
  getStructTags T header = Ok colDef → order ≡ₚ map_to_list colDef →
  hasType T r →
  (∀ i f z, take n (Fields T) !! i = Some f → r !! i = Some (VInt z) →
     inRange 32 z = true) →
  decodeRow T order (rowText T n r) = Ok (readBack T n r).
Proof.
  intros Hb Hfair Hty Hsurv.
  destruct (binding_of_written_header colDef Hb) as [Hbind Hinv].
  pose proof (fair_order_NoDup _ _ Hfair) as Hnd.
  assert (Hrow : ∀ i f, take n (Fields T) !! i = Some f →
            ∃ v, r !! i = Some v ∧ hasKind (FieldKind f) v = true
                 ∧ rowText T n r !! i = Some (cellText r (mkFieldRef i f))
                 ∧ stored (FieldKind f) (cellText r (mkFieldRef i f)) = Some (comesBack v)).
  { intros i f Hf. pose proof Hf as [Hf' _]%lookup_take_Some.
    destruct (Forall2_lookup_l _ _ _ _ _ Hty Hf') as (v & Hv & Hk).
    exists v. split_and!; [done..| |].
    - unfold rowText. by rewrite list_lookup_imap, Hf.
    - apply stored_cellText; [done..| |].
      + apply Hkinds. by eapply list_elem_of_lookup_2.
      + intros z ->. by eapply Hsurv. }
  destruct (decodeRow_complete T order (rowText T n r)) as [rec Hrec].
  { intros k v Hin. apply (fair_order_elem _ _ _ _ Hfair) in Hin.
    destruct (Hinv _ _ Hin) as (f & Hf & <-).
    destruct (Hrow _ _ Hf) as (val & _ & _ & Hcell & Hst).
    exists (mkFieldRef v f), (cellText r (mkFieldRef v f)), (comesBack val).
    split_and!; [by apply FieldByName_prefix|done..|].
    apply Hexported. by eapply list_elem_of_lookup_2. }
  rewrite Hrec. f_equal.
  destruct (decodeRow_Ok _ _ _ _ Hnd Hrec) as (_ & Hlen & Hcells & Hzero).
  apply list_eq. intros j. unfold readBack. rewrite list_lookup_imap.
  destruct (Fields T !! j) as [f|] eqn:Hf; simpl.
  2:{ apply lookup_ge_None. rewrite Hlen. by apply lookup_ge_None. }
  destruct (decide (j < n)) as [Hj|Hj].
  - assert (Hf' : take n (Fields T) !! j = Some f) by (by apply lookup_take_Some).
    destruct (Hrow _ _ Hf') as (v & Hv & _ & Hcell & Hst). rewrite Hv. simpl.
    pose proof (Hbind _ _ Hf') as Hin. apply (fair_order_elem _ _ _ _ Hfair) in Hin.
    destruct (Hcells _ _ Hin) as (fld & cell & val & Hfld & Hc & Hs & _ & Hval).
    rewrite (FieldByName_prefix _ _ Hf') in Hfld. injection Hfld as <-.
    rewrite Hcell in Hc. injection Hc as <-.
    unfold Kind_of in Hs. cbn [Field_ Index] in Hs, Hval.
    rewrite Hst in Hs. by injection Hs as <-.
  - apply Hzero; [done|]. intros k v fld Hin Hfld Hidx.
    apply (fair_order_elem _ _ _ _ Hfair) in Hin.
    destruct (Hinv _ _ Hin) as (g & Hg & <-).
    rewrite (FieldByName_prefix _ _ Hg) in Hfld. injection Hfld as <-.
    apply lookup_take_Some in Hg as [_ ?]. simpl in Hidx. lia.
Qed.

Lemma decodeRecords_written_rows colDef (o : range_oracle string nat) records i acc :
  fair o → getStructTags T header = Ok colDef → i ≠ 0 →
  Forall (hasType T) records →
  (∀ r i f z, r ∈ records → take n (Fields T) !! i = Some f → r !! i = Some (VInt z) →
     inRange 32 z = true) →
  decodeRecords (λ k row, decodeRow T (o k colDef) row) i (rowText T n <$> records) acc
  = Ok (acc ++ (readBack T n <$> records)).
Proof.
  intros Hfair Hb. revert i acc.
  induction records as [|r records IH]; intros i acc Hi Hty Hsurv; simpl.
  - by rewrite app_nil_r.
  - rewrite decide_False by done. apply Forall_cons in Hty as [Hr Hty].
    rewrite (decodeRow_written_row colDef (o i colDef) r Hb (Hfair _ _) Hr).
    + rewrite IH; [by rewrite <- app_assoc|done|done|].
      intros; eapply Hsurv; eauto. set_solver.
    + intros; eapply Hsurv; eauto. set_solver.
Qed.

End round_trip.

Lemma keepAnnotated_all T (r : list Value) :
  hasType T r → keepAnnotated T (length (Fields T)) r = r.
Proof.
  intros Hty. apply list_eq. intros j. unfold keepAnnotated. rewrite list_lookup_imap.
  destruct (Fields T !! j) as [f|] eqn:Hf; simpl.
  - rewrite decide_True by (by eapply lookup_lt_Some).
    destruct (Forall2_lookup_l _ _ _ _ _ Hty Hf) as (v & Hv & _). by rewrite Hv.
  - symmetry. apply lookup_ge_None. rewrite <- (Forall2_length _ _ _ Hty).
    by apply lookup_ge_None.
Qed.

(** [roundToInteger] rounds to the nearest integer, ties to even. *)
Lemma roundToInteger_rounds x : integerRounding x (roundToInteger x).
Proof.
  destruct x as [| | |neg m e]; try done. unfold integerRounding, roundToInteger.
  destruct (0 <=? e)%Z eqn:He.
  - apply Z.leb_le in He. exists (Zpos m * 2 ^ e)%Z. split; [|done].
    unfold nearestInteger. rewrite (proj2 (Z.leb_le 0 e) He).
    split; [|done]. apply Z.mul_nonneg_nonneg; [lia|]. by apply Z.pow_nonneg.
  - apply Z.leb_gt in He.
    assert (Hq : (0 < 2 ^ (- e))%Z) by (apply Z.pow_pos_nonneg; lia).
    destruct (float_facts.rne_nearest (Zpos m) (2 ^ (- e)) ltac:(lia) Hq)
      as (Hn & Hnear & Heven).
    exists (strconv.rne (Zpos m) (2 ^ (- e))). split.
    + unfold nearestInteger. rewrite (proj2 (Z.leb_gt 0 e) He). done.
    + destruct (strconv.rne (Zpos m) (2 ^ (- e))) as [|k|k] eqn:Hr; [done| |lia].
      destruct (strconv.odd_part k 0) as [m' e'] eqn:Hodd.
      apply round_facts.odd_part_spec in Hodd as (_ & He' & Hval).
      rewrite Z.sub_0_r in Hval. done.
Qed.

Lemma comesBack_comesBackAs v : comesBackAs v (comesBack v).
Proof.
  destruct v as [b|z|x|s|]; try done. simpl. exists (roundToInteger x).
  split; [done|]. apply roundToInteger_rounds.
Qed.

Lemma readBack_readBackAs T n (r : list Value) :
  hasType T r → readBackAs T n r (readBack T n r).
Proof.
  intros Hty. split; [unfold readBack; by rewrite length_imap|].
  intros i f Hf. unfold readBack. rewrite list_lookup_imap, Hf. simpl.
  destruct (decide (i < n)) as [Hi|Hi]; [|done].
  destruct (Forall2_lookup_l _ _ _ _ _ Hty Hf) as (v & Hv & _).
  exists v, (comesBack v). rewrite Hv. split_and!; [done..|]. apply comesBack_comesBackAs.
Qed.

(** Values that survive come back as they are. *)
Lemma readBack_survives T n (r : list Value) :
  (∀ i f v, take n (Fields T) !! i = Some f → r !! i = Some v → survives v = true) →
  readBack T n r = keepAnnotated T n r.
Proof.
  intros Hs. apply list_eq. intros j. unfold readBack, keepAnnotated.
  rewrite !list_lookup_imap. destruct (Fields T !! j) as [f|] eqn:Hf; [|done]. simpl.
  destruct (decide (j < n)) as [Hj|Hj]; [|done].
  destruct (r !! j) as [v|] eqn:Hv; [|done]. simpl. do 2 f_equal.
  apply comesBack_survives. apply (Hs j f); [|done]. by apply lookup_take_Some.
Qed.

(** C3, as the code has it. Take a struct type whose annotated fields are
    its first [n] fields, exported, of convertible kinds, with pairwise
    distinct column names, and records whose annotated integer fields fit
    32 bits. Then, for all visiting orders, the records are written, and
    reading the written rows back returns one record for each record
    written, equal to it field for field on the annotated fields, but
    for the floats, which come back rounded to the nearest integer (ties
    to even; 3.7 comes back as 4), and with every unannotated field at
    its zero value. When no annotated float has a fractional part (and
    none is a NaN) the annotated fields come back as they were, and when
    moreover all fields are annotated the records read are the records
    written. *)
Theorem write_then_read (T : rtype) (n : nat)
    (ow : range_oracle nat string) (ord : range_oracle string nat)
    (records : list (list Value)) :
  fair ow → fair ord →
  TypeKind T = KStruct → annotatedPrefix T n →
  NoDup (colOf <$> take n (Fields T)) → NoDup (Name <$> take n (Fields T)) →
  (∀ f, f ∈ take n (Fields T) → IsExported f = true ∧ convertible (FieldKind f) = true) →
  Forall (hasType T) records →
  (∀ r i f z, r ∈ records → take n (Fields T) !! i = Some f → r !! i = Some (VInt z) →
     inRange 32 z = true) →
  ∃ rows out,
    WriteFromStruct T ow records = Ok rows
    ∧ ReadToStruct T ord (Ok rows) = Ok out
    ∧ Forall2 (readBackAs T n) records out
    ∧ ((∀ r i f x, r ∈ records → take n (Fields T) !! i = Some f →
          r !! i = Some (VFloat x) → integral x = true) →
       out = keepAnnotated T n <$> records
       ∧ (n = length (Fields T) → out = records)).
Proof.
  intros Hfw Hfr HT Hpre Hcols Hnames Hfields Hty Hint.
  assert (Hexp : ∀ f, f ∈ take n (Fields T) → IsExported f = true)
    by (intros f Hf; by apply Hfields).
  assert (Hconv : ∀ f, f ∈ take n (Fields T) → convertible (FieldKind f) = true)
    by (intros f Hf; by apply Hfields).
  eexists _, (readBack T n <$> records).
  split; [apply (WriteFromStruct_prefix T ow n); auto|]. split; [|split].
  - destruct (getStructTags_written_header T n HT Hpre) as [colDef HcolDef].
    unfold ReadToStruct. cbn [index lookup list_lookup mbind outcome_mbind outcome_bind].
    unfold readColumnDefCreateStruct. rewrite decide_False by (intros ?; done).
    rewrite HcolDef. cbn [mbind outcome_mbind outcome_bind decodeRecords].
    rewrite decide_True by done.
    by apply (decodeRecords_written_rows T n HT Hpre Hcols Hnames Hexp Hconv colDef ord records 1 []).
  - apply Forall2_fmap_r, Forall_Forall2_diag.
    eapply Forall_impl; [exact Hty|]. intros r Hr. by apply readBack_readBackAs.
  - intros Hfloat.
    assert (Hkeep : readBack T n <$> records = keepAnnotated T n <$> records).
    { apply list_fmap_ext. intros j r Hr. apply list_elem_of_lookup_2 in Hr.
      apply readBack_survives. intros i f v Hf Hv. destruct v as [b|z|x|s|]; try done; simpl.
      - by apply (Hint r i f z).
      - by apply (Hfloat r i f x). }
    split; [done|]. rewrite Hkeep. intros ->. clear -Hty.
    induction Hty as [|r records Hr Hty IH]; [done|].
    by rewrite fmap_cons, (keepAnnotated_all T r Hr), IH.
Qed.

Example write_then_read_sample :
  WriteFromStruct readings.Reading in_key_order [readings.sample]
  = Ok [["id"; "level"; "ok"; "note"]; ["-5"; "6"; "true"; "x"]]
  ∧ ReadToStruct readings.Reading in_key_order
      (Ok [["id"; "level"; "ok"; "note"]; ["-5"; "6"; "true"; "x"]])
    = Ok [[VInt (-5); VFloat (strconv.FFinite false 3 1); VBool true; VString "x"; VInt 0]].
Proof. split; vm_compute; reflexivity. Qed.

(** A float with a fractional part comes back rounded: 3.7 (the float
    [4165829655317709 · 2^-50]) is written as "4" and read as 4. *)
Example write_then_read_fraction :
  let level := strconv.FFinite false 4165829655317709 (-50) in
  strconv.ParseFloat "3.7" 64 = (level, None)
  ∧ WriteFromStruct readings.Reading in_key_order
      [[VInt 1; VFloat level; VBool false; VString ""; VInt 0]]
    = Ok [["id"; "level"; "ok"; "note"]; ["1"; "4"; "false"; ""]]
  ∧ ReadToStruct readings.Reading in_key_order
      (Ok [["id"; "level"; "ok"; "note"]; ["1"; "4"; "false"; ""]])
    = Ok [[VInt 1; VFloat (strconv.FFinite false 1 2); VBool false; VString ""; VInt 0]].
Proof. split_and!; vm_compute; reflexivity. Qed.

Lemma write_then_read_witness :
  let T := readings.Reading in
  let level := strconv.FFinite false 4165829655317709 (-50) in
  let records := [readings.sample; [VInt 1; VFloat level; VBool false; VString ""; VInt 0]] in
  let ow : range_oracle nat string := in_key_order in
  let ord : range_oracle string nat := in_key_order in
  fair ow ∧ fair ord ∧
  TypeKind T = KStruct ∧ annotatedPrefix T 4 ∧
  NoDup (colOf <$> take 4 (Fields T)) ∧ NoDup (Name <$> take 4 (Fields T)) ∧
  (∀ f, f ∈ take 4 (Fields T) → IsExported f = true ∧ convertible (FieldKind f) = true) ∧
  Forall (hasType T) records ∧
  (∀ r i f z, r ∈ records → take 4 (Fields T) !! i = Some f → r !! i = Some (VInt z) →
     inRange 32 z = true) ∧
  ∃ rows out,
    WriteFromStruct T ow records = Ok rows
    ∧ ReadToStruct T ord (Ok rows) = Ok out
    ∧ Forall2 (readBackAs T 4) records out
    ∧ ((∀ r i f x, r ∈ records → take 4 (Fields T) !! i = Some f →
          r !! i = Some (VFloat x) → integral x = true) →
       out = keepAnnotated T 4 <$> records
       ∧ (4 = length (Fields T) → out = records)).
Proof.
  assert (Hfw : fair (in_key_order (K := nat) (V := string))) by (intros ? ?; reflexivity).
  assert (Hfr : fair (in_key_order (K := string) (V := nat))) by (intros ? ?; reflexivity).
  assert (Hpre : annotatedPrefix readings.Reading 4).
  { split; [simpl; lia|]. intros j f Hj.
    destruct j as [|[|[|[|[|j]]]]]; simpl in Hj; try discriminate Hj; injection Hj as <-;
      (split; [intros _; lia|intros _; discriminate])
      || (split; [intros Ha; by destruct Ha|intros ?; lia]). }
  assert (Hcols : NoDup (colOf <$> take 4 (Fields readings.Reading))).
  { apply (bool_decide_unpack _). vm_compute. exact I. }
  assert (Hnames : NoDup (Name <$> take 4 (Fields readings.Reading))).
  { apply (bool_decide_unpack _). vm_compute. exact I. }
  assert (Hfields : ∀ f, f ∈ take 4 (Fields readings.Reading) →
            IsExported f = true ∧ convertible (FieldKind f) = true).
  { intros f Hf. simpl in Hf. repeat (apply elem_of_cons in Hf as [->|Hf]; [by split|]).
    by apply elem_of_nil in Hf. }
  assert (Hty : Forall (hasType readings.Reading)
                  [readings.sample;
                   [VInt 1; VFloat (strconv.FFinite false 4165829655317709 (-50));
                    VBool false; VString ""; VInt 0]]).
  { apply Forall_cons. split; [repeat constructor|].
    apply Forall_singleton. repeat constructor. }
  assert (Hint : ∀ r i f z,
            r ∈ [readings.sample;
                 [VInt 1; VFloat (strconv.FFinite false 4165829655317709 (-50));
                  VBool false; VString ""; VInt 0]] →
            take 4 (Fields readings.Reading) !! i = Some f → r !! i = Some (VInt z) →
            inRange 32 z = true).
  { intros r i f z Hr Hf Hv.
    apply elem_of_cons in Hr as [->|Hr]; [|apply list_elem_of_singleton in Hr as ->];
      destruct i as [|[|[|[|i]]]]; simpl in Hf, Hv; try discriminate Hf; try discriminate Hv;
      injection Hv as <-; reflexivity. }
  split_and!; [exact Hfw|exact Hfr|reflexivity|exact Hpre|exact Hcols|exact Hnames
              |exact Hfields|exact Hty|exact Hint|].
  exact (write_then_read readings.Reading 4 in_key_order in_key_order
           [readings.sample;
            [VInt 1; VFloat (strconv.FFinite false 4165829655317709 (-50));
             VBool false; VString ""; VInt 0]]
           Hfw Hfr eq_refl Hpre Hcols Hnames Hfields Hty Hint).
Defined.

(** Records that do not come back as they were written. Two fields
    annotated with the same column name are both read from the last column
    of that name; an unannotated field is not written and comes back as
    zero; an [int64] value beyond 32 bits is written but not read back;
    and a field that is not exported is written, but reading it back
    panics in the setter. *)
Lemma write_then_read_differs :
  (hasType pairs.Pair [VString "1"; VString "2"]
   ∧ WriteFromStruct pairs.Pair in_key_order [[VString "1"; VString "2"]]
     = Ok [["x"; "x"]; ["1"; "2"]]
   ∧ ReadToStruct pairs.Pair in_key_order (Ok [["x"; "x"]; ["1"; "2"]])
     = Ok [[VString "2"; VString "2"]])
  ∧ (hasType partial.SkipLast [VString "Ann"; VInt 7]
     ∧ WriteFromStruct partial.SkipLast in_key_order [[VString "Ann"; VInt 7]]
       = Ok [["name"]; ["Ann"]]
     ∧ ReadToStruct partial.SkipLast in_key_order (Ok [["name"]; ["Ann"]])
       = Ok [[VString "Ann"; VInt 0]])
  ∧ (hasType widths.Big [VInt 2147483648]
     ∧ WriteFromStruct widths.Big in_key_order [[VInt 2147483648]]
       = Ok [["n"]; ["2147483648"]]
     ∧ is_Err (ReadToStruct widths.Big in_key_order (Ok [["n"]; ["2147483648"]])))
  ∧ (hasType hidden.Secret [VInt 42]
     ∧ WriteFromStruct hidden.Secret in_key_order [[VInt 42]]
       = Ok [["code"]; ["42"]]
     ∧ ReadToStruct hidden.Secret in_key_order (Ok [["code"]; ["42"]])
       = Panic (ReflectPanic "SetInt")).
Proof.
  split_and!; try (vm_compute; reflexivity); try (repeat constructor).
  eexists. vm_compute. reflexivity.
Qed.


(* ===================================================================== *)
(** * Further properties of the read path                                  *)
(* ===================================================================== *)

(** ** The binding step of [readColumnDefCreateStruct] *)

(** The loop over the fields stops at the first annotated field, in
    declaration order, whose column the header lacks. *)
Lemma bindFields_first_missing colNum flds m e :
  bindFields colNum flds m = Err e →
  ∃ i f, flds !! i = Some f ∧ annotated f ∧ colNum !! colOf f = None
    ∧ e = ErrColumnNotExist (colOf f)
    ∧ ∀ j g, j < i → flds !! j = Some g → annotated g → is_Some (colNum !! colOf g).
Proof.
  revert m. induction flds as [|fld flds IH]; intros m; simpl; [done|].
  destruct (decide (Tag_Get (Tag fld) "col" ≠ "")) as [Ha|Ha].
  - destruct (colNum !! Tag_Get (Tag fld) "col") as [n|] eqn:Hc.
    + intros H. apply IH in H as (i & f & Hl & Hf & Hn & -> & Hbefore).
      exists (S i), f. split_and!; try done.
      intros [|j] g Hj Hg Hag; simplify_eq/=; [by eexists|].
      eapply Hbefore; [|done..]. lia.
    + intros [= <-]. exists 0, fld. split_and!; try done. intros; lia.
  - intros H. apply IH in H as (i & f & Hl & Hf & Hn & -> & Hbefore).
    exists (S i), f. split_and!; try done.
    intros [|j] g Hj Hg Hag; simplify_eq/=; [done|].
    eapply Hbefore; [|done..]. lia.
Qed.

(** A closure is returned for a struct type whose annotated fields all
    have their column: it decodes a row along the binding of
    [getStructTags]. *)
Lemma readColumnDefCreateStruct_Ok T (o : range_oracle string nat) colHeader conv :
  readColumnDefCreateStruct T o colHeader = Ok conv →
  TypeKind T = KStruct
  ∧ ∃ colDef, getStructTags T colHeader = Ok colDef
      ∧ ∀ n row, conv n row = decodeRow T (o n colDef) row.
Proof.
  unfold readColumnDefCreateStruct.
  destruct (decide (TypeKind T ≠ KStruct)) as [HT|HT]; [done|].
  assert (HT' : TypeKind T = KStruct) by (by destruct (decide (TypeKind T = KStruct))).
  destruct (getStructTags T colHeader) as [colDef|e|p] eqn:Hb; [|done..].
  intros [= <-]. split; [done|]. by exists colDef.
Qed.

(** The two errors of [readColumnDefCreateStruct]. *)
Lemma readColumnDefCreateStruct_Err T (o : range_oracle string nat) colHeader e :
  readColumnDefCreateStruct T o colHeader = Err e →
  (TypeKind T ≠ KStruct ∧ e = ErrIsNotStruct (TypeName T))
  ∨ (TypeKind T = KStruct
     ∧ ∃ i f, Fields T !! i = Some f ∧ annotated f ∧ (colOf f ∉ colHeader)
         ∧ (∀ j g, j < i → Fields T !! j = Some g → annotated g → colOf g ∈ colHeader)
         ∧ e = ErrReadingColumnTag (ErrColumnNotExist (colOf f))).
Proof.
  unfold readColumnDefCreateStruct.
  destruct (decide (TypeKind T ≠ KStruct)) as [HT|HT]; [intros [= <-]; by left|].
  assert (HT' : TypeKind T = KStruct) by (by destruct (decide (TypeKind T = KStruct))).
  destruct (getStructTags T colHeader) as [colDef|e'|p] eqn:Hb; [done| |done].
  intros [= <-]. right. split; [done|]. rewrite getStructTags_struct in Hb by done.
  apply bindFields_first_missing in Hb as (i & f & Hl & Ha & Hn & -> & Hbefore).
  exists i, f. split_and!; try done.
  - rewrite colNum_lookup in Hn. by apply lastIndex_None.
  - intros j g Hj Hg Hag. destruct (Hbefore j g Hj Hg Hag) as [n Hn'].
    rewrite colNum_lookup in Hn'. apply lastIndex_Some in Hn' as [Hn' _].
    by eapply list_elem_of_lookup_2.
Qed.

Lemma readColumnDefCreateStruct_not_Panic T (o : range_oracle string nat) colHeader p :
  readColumnDefCreateStruct T o colHeader ≠ Panic p.
Proof.
  unfold readColumnDefCreateStruct.
  destruct (decide (TypeKind T ≠ KStruct)) as [HT|HT]; [done|].
  assert (HT' : TypeKind T = KStruct) by (by destruct (decide (TypeKind T = KStruct))).
  destruct (getStructTags T colHeader) as [colDef|e|q] eqn:Hb; [done..|].
  rewrite getStructTags_struct in Hb by done. by apply bindFields_not_Panic in Hb.
Qed.

(** X1. [readColumnDefCreateStruct] never panics. It returns an error in
    two cases only: the type is not a struct ("T is not struct"), or an
    annotated field names a column the header lacks; the error then names
    the column of the first such field in declaration order. Otherwise
    every annotated field has its column in the header, and the closure
    returned decodes a row along the binding of [getStructTags]. *)
Theorem readColumnDefCreateStruct_outcome (T : rtype) (o : range_oracle string nat)
    (colHeader : list string) :
  match readColumnDefCreateStruct T o colHeader with
  | Err e =>
      (TypeKind T ≠ KStruct ∧ e = ErrIsNotStruct (TypeName T))
      ∨ (TypeKind T = KStruct
         ∧ ∃ i f, Fields T !! i = Some f ∧ annotated f ∧ (colOf f ∉ colHeader)
             ∧ (∀ j g, j < i → Fields T !! j = Some g → annotated g → colOf g ∈ colHeader)
             ∧ e = ErrReadingColumnTag (ErrColumnNotExist (colOf f)))
  | Ok convToInterface =>
      TypeKind T = KStruct
      ∧ (∀ f, f ∈ Fields T → annotated f → colOf f ∈ colHeader)
      ∧ ∃ colDef, getStructTags T colHeader = Ok colDef
          ∧ ∀ n row, convToInterface n row = decodeRow T (o n colDef) row
  | Panic _ => False
  end.
Proof.
  destruct (readColumnDefCreateStruct T o colHeader) as [conv|e|p] eqn:Hc.
  - destruct (readColumnDefCreateStruct_Ok _ _ _ _ Hc) as (HT & colDef & Hb & Hconv).
    split; [done|]. split; [|by exists colDef].
    rewrite getStructTags_struct in Hb by done.
    intros f Hf Ha. apply bindFields_Ok in Hb as (Hb & _).
    destruct (Hb f Hf Ha) as [[n Hn] _]. rewrite colNum_lookup in Hn.
    apply lastIndex_Some in Hn as [Hn _]. by eapply list_elem_of_lookup_2.
  - by apply (readColumnDefCreateStruct_Err T o).
  - by apply readColumnDefCreateStruct_not_Panic in Hc.
Qed.

(** ** The rows [ReadToStruct] decodes *)

Lemma decodeRow_Ok_iff T (colDef : gmap string nat) order row :
  order ≡ₚ map_to_list colDef →
  is_Ok (decodeRow T order row) ↔ decodable T colDef row.
Proof.
  intros Hp. split.
  - intros [rec Hrec] k v Hkv.
    apply decodeRow_Ok in Hrec as (_ & _ & Hrec & _); [|by eapply fair_order_NoDup].
    destruct (Hrec k v) as (fld & cell & val & ? & ? & ? & ? & _);
      [by apply (fair_order_elem _ _ _ _ Hp)|]. by exists fld, cell, val.
  - intros Hd. apply decodeRow_complete. intros k v Hin.
    apply Hd. by apply (fair_order_elem _ _ _ _ Hp).
Qed.

Lemma decodeRecords_Ok T (o : range_oracle string nat) colDef rows i acc out :
  fair o → i ≠ 0 →
  decodeRecords (λ n row, decodeRow T (o n colDef) row) i rows acc = Ok out ↔
  Forall (decodable T colDef) rows ∧ out = acc ++ (specRecord T colDef <$> rows).
Proof.
  intros Hfair. revert i acc. induction rows as [|r rows IH]; intros i acc Hi.
  - cbn [decodeRecords fmap list_fmap]. rewrite app_nil_r. split.
    + intros [= <-]. by split.
    + by intros [_ ->].
  - cbn [decodeRecords]. rewrite decide_False by done.
    destruct (decodeRow T (o i colDef) r) as [rec|e|p] eqn:Hrow.
    + rewrite IH by lia. rewrite Forall_cons.
      pose proof (decodeRow_spec _ _ _ _ _ (Hfair i colDef) Hrow) as ->.
      rewrite fmap_cons, <- (assoc_L (++)). cbn [app].
      assert (decodable T colDef r).
      { apply (decodeRow_Ok_iff _ _ _ _ (Hfair i colDef)). by eexists. }
      naive_solver.
    + split; [done|]. intros [Hall _]. apply Forall_cons in Hall as [Hr _].
      apply (decodeRow_Ok_iff _ _ _ _ (Hfair i colDef)) in Hr as [? Hr]. congruence.
    + split; [done|]. intros [Hall _]. apply Forall_cons in Hall as [Hr _].
      apply (decodeRow_Ok_iff _ _ _ _ (Hfair i colDef)) in Hr as [? Hr]. congruence.
Qed.

Lemma ReadToStruct_struct T (o : range_oracle string nat) header rows colDef :
  TypeKind T = KStruct → getStructTags T header = Ok colDef →
  ReadToStruct T o (Ok (header :: rows))
  = decodeRecords (λ n row, decodeRow T (o n colDef) row) 1 rows [].
Proof.
  intros HT Hb. unfold ReadToStruct.
  cbn [index lookup list_lookup mbind outcome_mbind outcome_bind].
  unfold readColumnDefCreateStruct. rewrite decide_False by (intros ?; done).
  rewrite Hb. cbn [mbind outcome_mbind outcome_bind decodeRecords].
  by rewrite decide_True by done.
Qed.

Lemma ReadToStruct_Ok_binding T (o : range_oracle string nat) header rows out :
  ReadToStruct T o (Ok (header :: rows)) = Ok out →
  TypeKind T = KStruct ∧ ∃ colDef, getStructTags T header = Ok colDef.
Proof.
  unfold ReadToStruct.
  cbn [index lookup list_lookup mbind outcome_mbind outcome_bind].
  unfold readColumnDefCreateStruct.
  destruct (decide (TypeKind T ≠ KStruct)) as [|HT]; [done|].
  assert (HT' : TypeKind T = KStruct) by (by destruct (decide (TypeKind T = KStruct))).
  destruct (getStructTags T header) as [colDef| |]; [|done..]. eauto.
Qed.

(** X2. For a fair visiting order, [ReadToStruct] succeeds on a file of a
    header and rows exactly when the type is a struct, every annotated
    field has its column in the header, and every row has, for every
    bound field, a cell that converts to the kind of the field, which is
    exported; the result is then one record for each row, in the order of
    the rows. *)
Theorem ReadToStruct_Ok_iff (T : rtype) (o : range_oracle string nat)
    (header : list string) (rows : list (list string)) (out : list (list Value)) :
  fair o →
  ReadToStruct T o (Ok (header :: rows)) = Ok out ↔
  TypeKind T = KStruct
  ∧ ∃ colDef, getStructTags T header = Ok colDef
      ∧ Forall (decodable T colDef) rows
      ∧ out = specRecord T colDef <$> rows.
Proof.
  intros Hfair. split.
  - intros H. destruct (ReadToStruct_Ok_binding _ _ _ _ _ H) as (HT & colDef & Hb).
    split; [done|]. exists colDef. split; [done|].
    rewrite (ReadToStruct_struct _ _ _ _ _ HT Hb) in H.
    by apply decodeRecords_Ok in H.
  - intros (HT & colDef & Hb & Hall & ->).
    rewrite (ReadToStruct_struct _ _ _ _ _ HT Hb). by apply decodeRecords_Ok.
Qed.

Lemma fair_in_key_order {K V} `{Countable K} : fair (in_key_order (K := K) (V := V)).
Proof. by intros n m. Qed.

Lemma ReadToStruct_Ok_iff_witness :
  let T := examples.Person in
  let header := ["active"; "name"] in
  let rows := [["true"; "Ann"]; ["0"; "Bob"]] in
  let out := [[VString "Ann"; VBool true]; [VString "Bob"; VBool false]] in
  fair (in_key_order (K := string) (V := nat))
  ∧ (ReadToStruct T in_key_order (Ok (header :: rows)) = Ok out ↔
     TypeKind T = KStruct
     ∧ ∃ colDef, getStructTags T header = Ok colDef
         ∧ Forall (decodable T colDef) rows
         ∧ out = specRecord T colDef <$> rows).
Proof.
  split; [apply fair_in_key_order|].
  apply (ReadToStruct_Ok_iff examples.Person in_key_order). apply fair_in_key_order.
Defined.

(** X3. [ReadToStruct] stops at the first row that fails: when the rows
    before it decode, the error, or the panic, of that row is the result
    of the call, whatever the rows after it hold. *)
Theorem ReadToStruct_first_failure (T : rtype) (o : range_oracle string nat)
    (header : list string) (pre : list (list string)) (bad : list string)
    (post : list (list string)) (colDef : gmap string nat) :
  TypeKind T = KStruct → getStructTags T header = Ok colDef →
  (∀ i r, pre !! i = Some r → is_Ok (decodeRow T (o (S i) colDef) r)) →
  let failing := decodeRow T (o (S (length pre)) colDef) bad in
  (∀ e, failing = Err e → ReadToStruct T o (Ok (header :: pre ++ bad :: post)) = Err e)
  ∧ (∀ p, failing = Panic p → ReadToStruct T o (Ok (header :: pre ++ bad :: post)) = Panic p).
Proof.
  intros HT Hb Hpre failing. rewrite (ReadToStruct_struct _ _ _ _ _ HT Hb).
  subst failing. generalize (@nil (list Value)).
  assert (Hgen : ∀ i, i ≠ 0 →
    (∀ j r, pre !! j = Some r → is_Ok (decodeRow T (o (i + j) colDef) r)) →
    ∀ acc,
      (∀ e, decodeRow T (o (i + length pre) colDef) bad = Err e →
         decodeRecords (λ n row, decodeRow T (o n colDef) row) i (pre ++ bad :: post) acc = Err e)
      ∧ (∀ p, decodeRow T (o (i + length pre) colDef) bad = Panic p →
         decodeRecords (λ n row, decodeRow T (o n colDef) row) i (pre ++ bad :: post) acc
         = Panic p)).
  { clear Hpre. induction pre as [|r pre IH]; intros i Hi Hpre acc.
    - cbn [app length decodeRecords]. rewrite decide_False by done.
      rewrite Nat.add_0_r. split; intros ? ->; done.
    - cbn [app length decodeRecords]. rewrite decide_False by done.
      destruct (Hpre 0 r eq_refl) as [rec Hrec]. rewrite Nat.add_0_r in Hrec.
      rewrite Hrec. replace (i + S (length pre)) with (S i + length pre) by lia.
      apply IH; [lia|]. intros j r' Hj.
      replace (S i + j) with (i + S j) by lia. by apply Hpre. }
  intros acc. apply (Hgen 1); [lia|]. intros j r Hj. by apply Hpre.
Qed.

Lemma ReadToStruct_first_failure_witness :
  let T := examples.Person in
  let o : range_oracle string nat := in_key_order in
  let header := ["active"; "name"] in
  let pre := [["true"; "Ann"]] in
  let bad := ["maybe"; "Bob"] in
  let post := [["false"]] in
  let colDef : gmap string nat := {["Name" := 1; "Active" := 0]} in
  TypeKind T = KStruct ∧ getStructTags T header = Ok colDef
  ∧ (∀ i r, pre !! i = Some r → is_Ok (decodeRow T (o (S i) colDef) r))
  ∧ let failing := decodeRow T (o (S (length pre)) colDef) bad in
    (∀ e, failing = Err e → ReadToStruct T o (Ok (header :: pre ++ bad :: post)) = Err e)
    ∧ (∀ p, failing = Panic p → ReadToStruct T o (Ok (header :: pre ++ bad :: post)) = Panic p).
Proof.
  assert (H1 : TypeKind examples.Person = KStruct) by reflexivity.
  assert (H2 : getStructTags examples.Person ["active"; "name"]
               = Ok ({["Name" := 1; "Active" := 0]} : gmap string nat))
    by (vm_compute; reflexivity).
  assert (H3 : ∀ i r, [["true"; "Ann"]] !! i = Some r →
            is_Ok (decodeRow examples.Person
                     (in_key_order (S i) ({["Name" := 1; "Active" := 0]} : gmap string nat)) r)).
  { intros [|i] r [=]. subst r. eexists. vm_compute. reflexivity. }
  split; [exact H1|]. split; [exact H2|]. split; [exact H3|].
  exact (ReadToStruct_first_failure examples.Person in_key_order _ _ _ _ _ H1 H2 H3).
Defined.

Lemma stored_convertible k cell val : stored k cell = Some val → convertible k = true.
Proof. by destruct k. Qed.

(** X4. When [ReadToStruct] succeeds on a file with at least one row
    after the header, every annotated field of the type is found by its
    name as an exported field of a kind the closure converts (bool, a
    signed integer, a float or string). *)
Theorem ReadToStruct_Ok_fields (T : rtype) (o : range_oracle string nat)
    (header row : list string) (rows : list (list string)) (out : list (list Value)) :
  fair o →
  ReadToStruct T o (Ok (header :: row :: rows)) = Ok out →
  ∀ f, f ∈ Fields T → annotated f →
    ∃ fld, FieldByName T (Name f) = Some fld
      ∧ IsExported (Field_ fld) = true ∧ convertible (Kind_of fld) = true.
Proof.
  intros Hfair H f Hf Ha.
  destruct (ReadToStruct_Ok_binding _ _ _ _ _ H) as (HT & colDef & Hb).
  rewrite (ReadToStruct_struct _ _ _ _ _ HT Hb) in H.
  apply decodeRecords_Ok in H as [Hall _]; [|done..].
  apply Forall_cons in Hall as [Hrow _].
  rewrite getStructTags_struct in Hb by done.
  apply bindFields_Ok in Hb as (Hb & _). destruct (Hb f Hf Ha) as [_ [v Hv]].
  destruct (Hrow _ _ Hv) as (fld & cell & val & Hfld & _ & Hst & Hex).
  exists fld. split_and!; [done..|]. by eapply stored_convertible.
Qed.

Lemma ReadToStruct_Ok_fields_witness :
  let T := examples.Person in
  let out := [[VString "Ann"; VBool true]] in
  fair (in_key_order (K := string) (V := nat))
  ∧ ReadToStruct T in_key_order (Ok (["active"; "name"] :: ["true"; "Ann"] :: [])) = Ok out
  ∧ ∀ f, f ∈ Fields T → annotated f →
      ∃ fld, FieldByName T (Name f) = Some fld
        ∧ IsExported (Field_ fld) = true ∧ convertible (Kind_of fld) = true.
Proof.
  assert (H : ReadToStruct examples.Person in_key_order
                (Ok (["active"; "name"] :: ["true"; "Ann"] :: []))
              = Ok [[VString "Ann"; VBool true]]) by (vm_compute; reflexivity).
  split; [apply fair_in_key_order|]. split; [exact H|].
  exact (ReadToStruct_Ok_fields examples.Person in_key_order _ _ _ _ fair_in_key_order H).
Defined.

(** ** Fields the closure cannot set *)

(** X5. A field that is not exported cannot be read. At a binding entry
    of such a field the closure panics in the setter of the kind of the
    field when the cell converts, and returns an error when it does
    not. *)
Theorem decodeField_unexported (T : rtype) (row : list string) (str : list Value)
    (k : string) (v : nat) (fld : FieldRef) (cell : string) :
  FieldByName T k = Some fld → IsExported (Field_ fld) = false → row !! v = Some cell →
  match stored (Kind_of fld) cell with
  | Some _ => decodeField T row str (k, v) = Panic (ReflectPanic (setterOf (Kind_of fld)))
  | None => is_Err (decodeField T row str (k, v))
  end.
Proof.
  intros Hfld Hex Hcell. unfold decodeField. rewrite Hfld.
  unfold index. rewrite Hcell. bind_step.
  unfold SetBool, SetInt, SetFloat, SetString, assign. rewrite Hex.
  destruct (Kind_of fld) eqn:HK; cbn [stored intBits setterOf andb];
    try (by eexists); case_parse; try (by eexists); done.
Qed.

Lemma decodeField_unexported_witness :
  let T := mkType "Hidden" KStruct [mkField "secret" "main" KInt [("col", "secret")]] in
  let fld := mkFieldRef 0 (mkField "secret" "main" KInt [("col", "secret")]) in
  FieldByName T "secret" = Some fld ∧ IsExported (Field_ fld) = false
  ∧ ["42"] !! 0 = Some "42"
  ∧ match stored (Kind_of fld) "42" with
    | Some _ => decodeField T ["42"] [VInt 0] ("secret", 0)
                = Panic (ReflectPanic (setterOf (Kind_of fld)))
    | None => is_Err (decodeField T ["42"] [VInt 0] ("secret", 0))
    end.
Proof.
  split; [reflexivity|]. split; [reflexivity|]. split; [reflexivity|].
  exact (decodeField_unexported
           (mkType "Hidden" KStruct [mkField "secret" "main" KInt [("col", "secret")]])
           ["42"] [VInt 0] "secret" 0 _ "42" eq_refl eq_refl eq_refl).
Defined.

(** ** Integers outside 32 bits *)

Lemma ParseInt_digits_range neg s bitSize :
  (2 ≤ bitSize ≤ 64)%N →
  allDigits s = true → s ≠ "" →
  (2 ^ (bitSize - 1) + (if neg : bool then 1 else 0) ≤ digitsValue 0 s)%N →
  strconv.ParseInt (strconv.signText neg +:+ s) bitSize
  = ((if neg then - Z.of_N (2 ^ (bitSize - 1)) else Z.of_N (2 ^ (bitSize - 1)) - 1)%Z,
     Some (strconv.rangeError "ParseInt" (strconv.signText neg +:+ s))).
Proof.
  intros Hb Hall Hne Hrange. destruct s as [|c s]; [done|].
  assert (∃ k, strconv.digit c = Some k) as [k Hk].
  { simpl in Hall. destruct (strconv.digit c); [eauto|done]. }
  destruct (strconv_facts.digit_char c k Hk) as (Hplus & Hminus & _).
  pose proof (strconv_facts.pow2_half bitSize ltac:(lia)) as Hpow.
  assert (Htwo : (2 ≤ 2 ^ (bitSize - 1))%N).
  { change 2%N with (2 ^ 1)%N at 1. apply N.pow_le_mono_r; lia. }
  assert (Hu : ∃ un e, strconv.ParseUint (String c s) bitSize = (un, e)
             ∧ (2 ^ (bitSize - 1) + (if neg : bool then 1 else 0) ≤ un)%N
             ∧ (e = None ∨ e = Some (strconv.rangeError "ParseUint" (String c s)))).
  { destruct (decide (digitsValue 0 (String c s) ≤ 2 ^ bitSize - 1)%N) as [Hfit|Hbig].
    - eexists _, _. split; [apply strconv_facts.ParseUint_digits; done || lia|].
      split; [done|by left].
    - eexists _, _. split; [apply strconv_facts.ParseUint_range; done || lia|].
      split; [destruct neg; lia|by right]. }
  destruct Hu as (un & e & Hu & Hun & He).
  destruct neg; unfold strconv.ParseInt; simpl strconv.signText.
  - change ("-" +:+ String c s) with (String "-" (String c s)). cbv beta iota.
    rewrite (decide_False (P := ("-"%char = "+"%char))) by done.
    rewrite (decide_True (P := ("-"%char = "-"%char))) by done.
    rewrite Hu. destruct He as [-> | ->]; cbv beta iota; cbn [negb andb strconv.rangeError];
      rewrite (proj2 (N.ltb_lt _ _)) by lia; done.
  - change ("" +:+ String c s) with (String c s). cbv beta iota.
    rewrite (decide_False (P := (c = "+"%char))) by done.
    rewrite (decide_False (P := (c = "-"%char))) by done.
    rewrite Hu. destruct He as [-> | ->]; cbv beta iota; cbn [negb andb strconv.rangeError];
      rewrite (proj2 (N.leb_le _ _)) by lia; done.
Qed.

(** X6. The text [WriteFromStruct] writes for an integer field value
    outside 32 bits is refused when the closure of [ReadToStruct] reads
    it as the cell of that field: the error is "field int ... invalid"
    with the range error of [strconv.ParseInt], whatever the width of
    the field. *)
Theorem int_outside_32_bits_written_not_read (T : rtype) (k : string) (fld : FieldRef)
    (r str : list Value) (row : list string) (v : nat) (z : Z) :
  FieldByName T k = Some fld →
  contents r fld = VInt z → hasKind (Kind_of fld) (VInt z) = true →
  inRange 32 z = false →
  ∃ cell, encodeField r fld = Ok cell
    ∧ (row !! v = Some cell →
       decodeField T row str (k, v)
       = Err (ErrFieldIntInvalid k (strconv.rangeError "ParseInt" cell))).
Proof.
  intros Hfld Hz Hk H32. exists (strconv.FormatInt z).
  assert (H64 : (- 2 ^ 63 ≤ z < 2 ^ 63)%Z ∧ intBits (Kind_of fld) = Some 64%Z).
  { unfold inRange in H32. apply andb_false_iff in H32.
    destruct (Kind_of fld); try done; simpl in Hk; unfold inRange in Hk;
      apply andb_true_iff in Hk as [?%Z.leb_le ?%Z.ltb_lt];
      rewrite Z.leb_gt, Z.ltb_ge in H32; (split; [lia|try done]); exfalso; lia. }
  destruct H64 as [H64 Hbits].
  assert (Hparse : strconv.ParseInt (strconv.FormatInt z) 32
                   = ((if (z <? 0)%Z then - Z.of_N (2 ^ (32 - 1))
                       else Z.of_N (2 ^ (32 - 1)) - 1)%Z,
                      Some (strconv.rangeError "ParseInt" (strconv.FormatInt z)))).
  { rewrite strconv_facts.FormatInt_text.
    destruct (strconv_facts.decimal_digits (Z.abs_N z)) as (Hall & Hval & Hne).
    unfold inRange in H32. apply andb_false_iff in H32. rewrite Z.leb_gt, Z.ltb_ge in H32.
    change (2 ^ (32 - 1))%Z with 2147483648%Z in H32.
    apply ParseInt_digits_range; rewrite ?Hval; try done.
    change (2 ^ (32 - 1))%N with 2147483648%N.
    destruct (z <? 0)%Z eqn:Hneg; lia. }
  split.
  - unfold encodeField, Int_. rewrite Hz. by destruct (Kind_of fld).
  - intros Hcell. unfold decodeField. rewrite Hfld. unfold index. rewrite Hcell. bind_step.
    rewrite Hparse. by destruct (Kind_of fld).
Qed.

Lemma int_outside_32_bits_written_not_read_witness :
  let fld := mkFieldRef 0 (mkField "N" "" KInt64 [("col", "n")]) in
  FieldByName widths.Big "N" = Some fld
  ∧ contents [VInt 4294967296] fld = VInt 4294967296
  ∧ hasKind (Kind_of fld) (VInt 4294967296) = true
  ∧ inRange 32 4294967296 = false
  ∧ ∃ cell, encodeField [VInt 4294967296] fld = Ok cell
      ∧ (["4294967296"] !! 0 = Some cell →
         decodeField widths.Big ["4294967296"] [VInt 0] ("N", 0)
         = Err (ErrFieldIntInvalid "N" (strconv.rangeError "ParseInt" cell))).
Proof.
  split; [reflexivity|]. split; [reflexivity|]. split; [reflexivity|]. split; [reflexivity|].
  exact (int_outside_32_bits_written_not_read widths.Big "N" _ [VInt 4294967296] [VInt 0]
           ["4294967296"] 0 4294967296 eq_refl eq_refl eq_refl eq_refl).
Defined.

(** ** Floats through the file *)



(** X7. The text [WriteFromStruct] writes for the value of an exported
    float field, read by the closure of [ReadToStruct] as the cell of
    that field, stores the float of the nearest integer, ties to even:
    [roundToInteger] of the value written. *)
Theorem float_written_then_read_is_rounded (T : rtype) (k : string) (fld : FieldRef)
    (r str : list Value) (row : list string) (v : nat) (x : strconv.float) :
  FieldByName T k = Some fld → IsExported (Field_ fld) = true →
  Kind_of fld = KFloat32 ∨ Kind_of fld = KFloat64 →
  contents r fld = VFloat x → hasKind (Kind_of fld) (VFloat x) = true →
  ∃ cell, encodeField r fld = Ok cell
    ∧ (row !! v = Some cell →
       decodeField T row str (k, v) = Ok (<[Index fld := VFloat (roundToInteger x)]> str)).
Proof.
  intros Hfld Hex HK Hx Hk.
  exists (strconv.FormatFloat_f x 0 64). split.
  - unfold encodeField, Float_. rewrite Hx.
    destruct HK as [HK|HK]; rewrite HK in Hk |- *; [|done].
    simpl in Hk. by rewrite FormatFloat_f_32.
  - intros Hcell. unfold decodeField. rewrite Hfld. unfold index. rewrite Hcell. bind_step.
    unfold SetFloat, assign. rewrite Hex.
    destruct HK as [HK|HK]; rewrite HK in Hk |- *; simpl in Hk.
    + rewrite (round_facts.ParseFloat_FormatFloat_rounds x 32) by done. simpl.
      rewrite float_facts.toFloat32_representable; [done|].
      by apply round_facts.roundToInteger_representable.
    + by rewrite (round_facts.ParseFloat_FormatFloat_rounds x 64) by done.
Qed.

Lemma float_written_then_read_is_rounded_witness :
  let T := readings.Reading in
  let fld := mkFieldRef 1 (mkField "Level" "" KFloat64 [("col", "level")]) in
  let x := strconv.FFinite true 5 (-1) in
  let r := [VInt 1; VFloat x; VBool false; VString ""; VInt 0] in
  FieldByName T "Level" = Some fld ∧ IsExported (Field_ fld) = true
  ∧ (Kind_of fld = KFloat32 ∨ Kind_of fld = KFloat64)
  ∧ contents r fld = VFloat x ∧ hasKind (Kind_of fld) (VFloat x) = true
  ∧ roundToInteger x = strconv.FFinite true 1 1
  ∧ ∃ cell, encodeField r fld = Ok cell
      ∧ (["1"; "-2"] !! 1 = Some cell →
         decodeField T ["1"; "-2"] (New T) ("Level", 1)
         = Ok (<[Index fld := VFloat (roundToInteger x)]> (New T))).
Proof.
  split; [reflexivity|]. split; [reflexivity|]. split; [by right|].
  split; [reflexivity|]. split; [reflexivity|]. split; [reflexivity|].
  exact (float_written_then_read_is_rounded readings.Reading "Level" _
           [VInt 1; VFloat (strconv.FFinite true 5 (-1)); VBool false; VString ""; VInt 0]
           (New readings.Reading) ["1"; "-2"] 1 (strconv.FFinite true 5 (-1))
           eq_refl eq_refl (or_intror eq_refl) eq_refl eq_refl).
Defined.

(* ===================================================================== *)
(** * Further properties of the write path                                *)
(* ===================================================================== *)

(** ** The header map and the header row *)

(** A map over [nat] whose keys are all below its size has every number
    below its size as a key. *)
Lemma keys_below_size {V} (m : gmap nat V) :
  map_Forall (λ k _, k < size m) m → ∀ j, j < size m → is_Some (m !! j).
Proof.
  intros Hall j Hj. apply (elem_of_dom (D := gset nat)).
  assert (Hsub : dom m ⊆ (set_seq 0 (size m) : gset nat)).
  { intros k [v Hk]%elem_of_dom. apply elem_of_set_seq. split; [lia|].
    apply (Hall k v Hk). }
  apply set_subseteq_size_equiv in Hsub; [|by rewrite size_set_seq, size_dom].
  apply leibniz_equiv in Hsub. rewrite Hsub. apply elem_of_set_seq. lia.
Qed.

Lemma header_lookup T j :
  headerFields 0 (Fields T) ∅ !! j
  = match Fields T !! j with
    | Some f => if decide (colOf f ≠ "") then Some (colOf f) else None
    | None => None
    end.
Proof.
  rewrite headerFields_lookup, decide_True by lia.
  rewrite Nat.sub_0_r, lookup_empty. by destruct (Fields T !! j).
Qed.

(** The header map has one entry for each annotated field. *)
Lemma headerFields_size i flds (out : gmap nat string) :
  (∀ k, is_Some (out !! k) → k < i) →
  size (headerFields i flds out) = size out + length (filter (λ f, colOf f ≠ "") flds).
Proof.
  revert i out. induction flds as [|f flds IH]; intros i out Hout; simpl; [lia|].
  fold (colOf f). rewrite filter_cons. destruct (decide (colOf f ≠ "")) as [Ha|Ha].
  - rewrite IH.
    + rewrite map_size_insert_None; [simpl; lia|].
      destruct (out !! i) eqn:Hi; [|done]. specialize (Hout i ltac:(eauto)). lia.
    + intros k [v Hk]. destruct (decide (k = i)) as [->|Hne]; [lia|].
      rewrite lookup_insert_ne in Hk by done. specialize (Hout k ltac:(eauto)). lia.
  - rewrite IH; [done|]. intros k Hk. specialize (Hout k Hk). lia.
Qed.

Lemma header_size T :
  size (headerFields 0 (Fields T) ∅) = length (filter (λ f, colOf f ≠ "") (Fields T)).
Proof.
  rewrite headerFields_size; [by rewrite map_size_empty|].
  intros k [v Hk]. by rewrite lookup_empty in Hk.
Qed.

(** When every key of the header map is below its size, the annotated
    fields are the first fields of the type. *)
Lemma header_keys_prefix T :
  map_Forall (λ k _, k < size (headerFields 0 (Fields T) ∅)) (headerFields 0 (Fields T) ∅) →
  annotatedPrefix T (size (headerFields 0 (Fields T) ∅)).
Proof.
  intros Hall. pose proof (keys_below_size _ Hall) as Hkeys.
  set (n := size (headerFields 0 (Fields T) ∅)) in *. split.
  - destruct n as [|n]; [lia|]. destruct (Hkeys n ltac:(lia)) as [v Hv].
    rewrite header_lookup in Hv. destruct (Fields T !! n) eqn:Hn; [|done].
    apply lookup_lt_Some in Hn. lia.
  - intros j f Hf. split.
    + intros Ha. apply (Hall j (colOf f)). rewrite header_lookup, Hf.
      by rewrite decide_True.
    + intros Hj. destruct (Hkeys j Hj) as [v Hv]. rewrite header_lookup, Hf in Hv.
      by destruct (decide (colOf f ≠ "")).
Qed.

Lemma setIndex_Panic {E A} (l : list A) (i : nat) (x : A) :
  length l ≤ i → setIndex (E := E) l i x = Panic (IndexOutOfRange i (length l)).
Proof. intros H. unfold setIndex. rewrite decide_False; [done|lia]. Qed.

(** The header loop panics at the first key it visits that is not an
    index of the header row. *)
Lemma fillHeader_out_of_range order (headRow : list string) :
  (∃ i v, (i, v) ∈ order ∧ length headRow ≤ i) →
  ∃ i v, (i, v) ∈ order ∧ length headRow ≤ i
    ∧ fillHeader order headRow = Panic (IndexOutOfRange i (length headRow)).
Proof.
  unfold fillHeader. revert headRow.
  induction order as [|[j y] order IH]; intros headRow (i & v & Hin & Hi); [set_solver|].
  cbn [forRange].
  destruct (decide (j < length headRow)) as [Hj|Hj].
  - rewrite (setIndex_Ok headRow j) by done. bind_step.
    apply elem_of_cons in Hin as [[= -> ->]|Hin]; [lia|].
    destruct (IH (<[j := y]> headRow)) as (i' & v' & Hin' & Hi' & Hp).
    { exists i, v. by rewrite length_insert. }
    rewrite length_insert in Hi', Hp. exists i', v'. split_and!; [set_solver|done|done].
  - rewrite (setIndex_Panic headRow j) by lia.
    exists j, y. split_and!; [set_solver|lia|done].
Qed.

Lemma fillHeader_not_Err order (headRow : list string) e : fillHeader order headRow ≠ Err e.
Proof.
  unfold fillHeader. revert headRow. induction order as [|[j y] order IH]; intros headRow; [done|].
  cbn [forRange]. destruct (decide (j < length headRow)).
  - rewrite (setIndex_Ok headRow j) by done. bind_step. apply IH.
  - by rewrite (setIndex_Panic headRow j) by lia.
Qed.

(** X8. [WriteFromStruct] panics, whatever the records, on every struct
    type that has a field without annotation before an annotated one:
    the header row has one cell for each annotated field, and an
    annotated field at or beyond that index is written out of range. *)
Theorem WriteFromStruct_gap_panics (T : rtype) (o : range_oracle nat string)
    (records : list (list Value)) (i j : nat) (f g : StructField) :
  fair o → TypeKind T = KStruct →
  i < j → Fields T !! i = Some f → colOf f = "" → Fields T !! j = Some g → colOf g ≠ "" →
  ∃ k h,
    Fields T !! k = Some h ∧ colOf h ≠ ""
    ∧ length (filter (λ f, colOf f ≠ "") (Fields T)) ≤ k
    ∧ WriteFromStruct T o records
      = Panic (IndexOutOfRange k (length (filter (λ f, colOf f ≠ "") (Fields T)))).
Proof.
  intros Hfair HT Hij Hf Hfa Hg Hga. unfold WriteFromStruct.
  rewrite getStructTagForHeader_struct by done. bind_step.
  set (header := headerFields 0 (Fields T) ∅).
  assert (Hgap : ∃ k v, header !! k = Some v ∧ ¬ k < size header).
  { assert (Hdec : ∀ (i : nat) (x : string),
              Decision ((λ k (_ : string), k < size header) i x))
      by (intros; simpl; apply _).
    apply (proj1 (map_not_Forall (λ k (_ : string), k < size header) header)).
    intros Hall. destruct (header_keys_prefix T Hall) as [_ Hpre].
    fold header in Hpre.
    assert (j < size header) by (by apply (Hpre j g)).
    assert (annotated f) by (apply (Hpre i f); [done|lia]). done. }
  destruct Hgap as (k & v & Hk & Hge).
  destruct (fillHeader_out_of_range (o 0 header) (replicate (size header) ""))
    as (k' & v' & Hin & Hlen & Hp).
  { exists k, v. rewrite length_replicate. split; [|lia].
    by apply (fair_order_elem _ _ _ _ (Hfair 0 header)). }
  rewrite Hp, length_replicate. rewrite length_replicate in Hlen. bind_step.
  apply (fair_order_elem _ _ _ _ (Hfair 0 header)) in Hin.
  unfold header in Hin, Hlen |- *. rewrite header_lookup in Hin. rewrite header_size in *.
  destruct (Fields T !! k') as [h|] eqn:Hh; [|done].
  exists k', h. split_and!; [done| |done|done].
  by destruct (decide (colOf h ≠ "")).
Qed.

Lemma WriteFromStruct_gap_panics_witness :
  let T := mkType "Row" KStruct
             [ mkField "Id" "" KInt [("col", "id")];
               mkField "Skip" "" KInt [];
               mkField "Name" "" KString [("col", "name")] ] in
  fair (in_key_order (K := nat) (V := string)) ∧ TypeKind T = KStruct
  ∧ 1 < 2
  ∧ Fields T !! 1 = Some (mkField "Skip" "" KInt []) ∧ colOf (mkField "Skip" "" KInt []) = ""
  ∧ Fields T !! 2 = Some (mkField "Name" "" KString [("col", "name")])
  ∧ colOf (mkField "Name" "" KString [("col", "name")]) ≠ ""
  ∧ ∃ k h,
      Fields T !! k = Some h ∧ colOf h ≠ ""
      ∧ length (filter (λ f, colOf f ≠ "") (Fields T)) ≤ k
      ∧ WriteFromStruct T in_key_order []
        = Panic (IndexOutOfRange k (length (filter (λ f, colOf f ≠ "") (Fields T)))).
Proof.
  split; [apply fair_in_key_order|]. split; [reflexivity|]. split; [lia|].
  split; [reflexivity|]. split; [reflexivity|]. split; [reflexivity|]. split; [done|].
  exact (WriteFromStruct_gap_panics
           (mkType "Row" KStruct
              [ mkField "Id" "" KInt [("col", "id")];
                mkField "Skip" "" KInt [];
                mkField "Name" "" KString [("col", "name")] ])
           in_key_order [] 1 2 _ _ fair_in_key_order eq_refl ltac:(lia) eq_refl eq_refl eq_refl
           ltac:(done)).
Defined.

(** ** The rows [WriteFromStruct] returns *)

Lemma annotatedPrefix_length T n : annotatedPrefix T n → length (take n (Fields T)) = n.
Proof. intros [Hn _]. rewrite length_take. lia. Qed.

Lemma WriteFromStruct_not_struct T (o : range_oracle nat string) records :
  TypeKind T ≠ KStruct → WriteFromStruct T o records = Err (ErrIsNotStruct (TypeName T)).
Proof.
  intros HT. unfold WriteFromStruct, getStructTagForHeader. by rewrite decide_True.
Qed.

(** A record is not written when an annotated field is of a kind that is
    not convertible. *)
Lemma WriteFromStruct_prefix_unsupported T (o : range_oracle nat string) n r records f :
  fair o → TypeKind T = KStruct → annotatedPrefix T n →
  f ∈ take n (Fields T) → convertible (FieldKind f) = false →
  is_Err (WriteFromStruct T o (r :: records)).
Proof.
  intros Hfair HT Hpre Hf Hc. pose proof (annotatedPrefix_length T n Hpre) as Hlen.
  unfold WriteFromStruct. rewrite getStructTagForHeader_struct by done.
  rewrite (headerFields_prefix T n) by done. bind_step.
  rewrite map_seq_size, length_fmap.
  rewrite <- (length_fmap colOf (take n (Fields T))), fillHeader_map_seq by apply Hfair.
  cbn [mbind outcome_mbind outcome_bind encodeRecords].
  apply list_elem_of_lookup in Hf as [i Hi].
  destruct (encodeRow_unsupported T r
              (o 1 (map_seq 0 (colOf <$> take n (Fields T))))
              (replicate (length (colOf <$> take n (Fields T))) "") i (colOf f) f) as [e He].
  - intros j y Hin. apply (fair_order_elem _ _ _ _ (Hfair _ _)) in Hin.
    rewrite lookup_map_seq_0 in Hin. apply lookup_lt_Some in Hin.
    rewrite length_replicate. split; [done|].
    rewrite length_fmap, Hlen in Hin. destruct Hpre. lia.
  - apply (fair_order_elem _ _ _ _ (Hfair _ _)).
    by rewrite lookup_map_seq_0, list_lookup_fmap, Hi.
  - apply lookup_take_Some in Hi. by destruct Hi.
  - done.
  - rewrite He. by eexists.
Qed.

(** What a successful call tells about the type. *)
Lemma WriteFromStruct_Ok_prefix T (o : range_oracle nat string) records out :
  fair o → WriteFromStruct T o records = Ok out →
  TypeKind T = KStruct
  ∧ annotatedPrefix T (length (filter (λ f, colOf f ≠ "") (Fields T))).
Proof.
  intros Hfair H.
  assert (HT : TypeKind T = KStruct).
  { destruct (decide (TypeKind T = KStruct)) as [|HT]; [done|].
    by rewrite WriteFromStruct_not_struct in H. }
  split; [done|]. rewrite <- header_size. apply header_keys_prefix.
  intros k v Hk. destruct (decide (k < size (headerFields 0 (Fields T) ∅))) as [|Hge]; [done|].
  exfalso. unfold WriteFromStruct in H. rewrite getStructTagForHeader_struct in H by done.
  cbn [mbind outcome_mbind outcome_bind] in H.
  destruct (fillHeader_out_of_range (o 0 (headerFields 0 (Fields T) ∅))
              (replicate (size (headerFields 0 (Fields T) ∅)) ""))
    as (k' & v' & _ & _ & Hp).
  { exists k, v. rewrite length_replicate. split; [|lia].
    by apply (fair_order_elem _ _ _ _ (Hfair 0 _)). }
  by rewrite Hp in H.
Qed.

Lemma rowText_length T n r : n ≤ length (Fields T) → length (rowText T n r) = n.
Proof. intros Hn. unfold rowText. rewrite length_imap, length_take. lia. Qed.

(** The rows of a successful call: the header of the annotated fields,
    which are the first fields, and one row of as many cells for each
    record. *)
Lemma WriteFromStruct_Ok_rows T (o : range_oracle nat string) records out :
  fair o → WriteFromStruct T o records = Ok out →
  ∃ n, TypeKind T = KStruct ∧ annotatedPrefix T n
    ∧ (records = [] ∨ ∀ f, f ∈ take n (Fields T) → convertible (FieldKind f) = true)
    ∧ out = (colOf <$> take n (Fields T)) :: (rowText T n <$> records)
    ∧ Forall (λ row, length row = n) out.
Proof.
  intros Hfair H. destruct (WriteFromStruct_Ok_prefix _ _ _ _ Hfair H) as [HT Hpre].
  set (n := length (filter (λ f, colOf f ≠ "") (Fields T))) in *.
  assert (Hconv : records = []
                  ∨ ∀ f, f ∈ take n (Fields T) → convertible (FieldKind f) = true).
  { destruct records as [|r records]; [by left|]. right.
    intros f Hf. destruct (convertible (FieldKind f)) eqn:Hc; [done|].
    destruct (WriteFromStruct_prefix_unsupported T o n r records f) as [e He]; try done.
    congruence. }
  exists n. split_and!; [done..| |].
  - rewrite (WriteFromStruct_prefix T o n) in H by done. congruence.
  - rewrite (WriteFromStruct_prefix T o n) in H by done. injection H as <-.
    apply Forall_cons. split.
    + rewrite length_fmap. by apply annotatedPrefix_length.
    + apply Forall_fmap, Forall_true. intros r. simpl. apply rowText_length. by destruct Hpre.
Qed.



(** ** The errors [WriteFromStruct] returns *)

Lemma forRange_Err {E A S} (body : S → A → outcome E S) xs st e :
  forRange body xs st = Err e → ∃ x s, x ∈ xs ∧ body s x = Err e.
Proof.
  revert st. induction xs as [|x xs IH]; intros st; simpl; [done|].
  destruct (body st x) as [st'|e'|p] eqn:Hb; simpl.
  - intros H. apply IH in H as (y & s & Hy & Hs). exists y, s. split; [set_solver|done].
  - intros [= ->]. exists x, st. split; [set_solver|done].
  - done.
Qed.

Lemma encodeField_Err r fld e :
  encodeField r fld = Err e →
  convertible (Kind_of fld) = false
  ∧ (Kind_of fld ≠ KInvalid → e = ErrUnsupportType (Kind_String (Kind_of fld))).
Proof.
  unfold encodeField. destruct (Kind_of fld) eqn:HK; try done; intros [= <-]; split; done.
Qed.

Lemma encodeRow_Err T order r row e :
  encodeRow T order r row = Err e →
  ∃ i x f, (i, x) ∈ order ∧ Fields T !! i = Some f ∧ encodeField r (mkFieldRef i f) = Err e.
Proof.
  unfold encodeRow. intros H. apply forRange_Err in H as ([i x] & s & Hin & Hs).
  unfold Field in Hs. destruct (Fields T !! i) as [f|] eqn:Hf; [|done].
  cbn [mbind outcome_mbind outcome_bind] in Hs.
  destruct (encodeField r (mkFieldRef i f)) as [cell|e'|p] eqn:He; simpl in Hs.
  - unfold setIndex in Hs. by destruct (decide (i < length s)).
  - injection Hs as ->. by exists i, x, f.
  - done.
Qed.

Lemma encodeRecords_Err T (o : range_oracle nat string) header width j records out e :
  encodeRecords T o header width j records out = Err e →
  ∃ r n, r ∈ records ∧ encodeRow T (o n header) r (replicate width "") = Err e.
Proof.
  revert j out. induction records as [|r records IH]; intros j out; simpl; [done|].
  destruct (encodeRow T (o (S j) header) r (replicate width "")) as [row|e'|p] eqn:Hr; simpl.
  - intros H. apply IH in H as (r' & n & Hin & Hn). exists r', n. split; [set_solver|done].
  - intros [= ->]. exists r, (S j). split; [set_solver|done].
  - done.
Qed.

(** X10. The errors [WriteFromStruct] returns while it builds the rows:
    "T is not struct" for a type that is not a struct, and otherwise,
    with at least one record, "unsupport type K" for the kind [K] of an
    annotated field that does not convert. *)
Theorem WriteFromStruct_errors (T : rtype) (o : range_oracle nat string)
    (records : list (list Value)) (e : error) :
  fair o → (∀ f, f ∈ Fields T → FieldKind f ≠ KInvalid) →
  WriteFromStruct T o records = Err e →
  (TypeKind T ≠ KStruct ∧ e = ErrIsNotStruct (TypeName T))
  ∨ (TypeKind T = KStruct ∧ records ≠ []
     ∧ ∃ f, f ∈ Fields T ∧ annotated f ∧ convertible (FieldKind f) = false
         ∧ e = ErrUnsupportType (Kind_String (FieldKind f))).
Proof.
  intros Hfair Hvalid H.
  destruct (decide (TypeKind T = KStruct)) as [HT|HT].
  2:{ left. rewrite WriteFromStruct_not_struct in H by done. split; [done|congruence]. }
  right. split; [done|]. unfold WriteFromStruct in H.
  rewrite getStructTagForHeader_struct in H by done.
  cbn [mbind outcome_mbind outcome_bind] in H.
  set (header := headerFields 0 (Fields T) ∅) in *.
  destruct (fillHeader (o 0 header) (replicate (size header) "")) as [headRow|e'|p] eqn:Hh.
  - cbn [mbind outcome_mbind outcome_bind] in H.
    apply encodeRecords_Err in H as (r & n & Hr & Hrow).
    split; [intros ->; inversion Hr|].
    apply encodeRow_Err in Hrow as (i & x & f & Hin & Hf & Hfield).
    apply (fair_order_elem _ _ _ _ (Hfair n header)) in Hin.
    unfold header in Hin. rewrite header_lookup, Hf in Hin.
    apply encodeField_Err in Hfield as [Hc He].
    assert (Hmem : f ∈ Fields T) by (by eapply list_elem_of_lookup_2).
    exists f. split_and!; [done| |done|].
    + unfold annotated. by destruct (decide (colOf f ≠ "")).
    + apply He. by apply Hvalid.
  - by apply fillHeader_not_Err in Hh.
  - done.
Qed.

Lemma WriteFromStruct_errors_witness :
  let T := mkType "Counter" KStruct [mkField "Hits" "" KUint [("col", "hits")]] in
  fair (in_key_order (K := nat) (V := string))
  ∧ (∀ f, f ∈ Fields T → FieldKind f ≠ KInvalid)
  ∧ WriteFromStruct T in_key_order [[VOther]] = Err (ErrUnsupportType "uint")
  ∧ ((TypeKind T ≠ KStruct ∧ ErrUnsupportType "uint" = ErrIsNotStruct (TypeName T))
     ∨ (TypeKind T = KStruct ∧ [[VOther]] ≠ []
        ∧ ∃ f, f ∈ Fields T ∧ annotated f ∧ convertible (FieldKind f) = false
            ∧ ErrUnsupportType "uint" = ErrUnsupportType (Kind_String (FieldKind f)))).
Proof.
  assert (H1 : ∀ f, f ∈ Fields (mkType "Counter" KStruct
                                  [mkField "Hits" "" KUint [("col", "hits")]]) →
               FieldKind f ≠ KInvalid).
  { intros f Hf. apply list_elem_of_singleton in Hf. by subst f. }
  assert (H2 : WriteFromStruct
                 (mkType "Counter" KStruct [mkField "Hits" "" KUint [("col", "hits")]])
                 in_key_order [[VOther]] = Err (ErrUnsupportType "uint"))
    by (vm_compute; reflexivity).
  split; [apply fair_in_key_order|]. split; [exact H1|]. split; [exact H2|].
  exact (WriteFromStruct_errors _ in_key_order _ _ fair_in_key_order H1 H2).
Defined.

(* ===================================================================== *)
(** * The errors of the read path                                         *)
(* ===================================================================== *)

Lemma decodeField_Err T row str k v e :
  decodeField T row str (k, v) = Err e →
  (FieldByName T k = None ∧ e = ErrFieldTypeNotSupported k)
  ∨ ∃ fld, FieldByName T k = Some fld
      ∧ (convertible (Kind_of fld) = false ∧ cellError (Kind_of fld) k "" = Some e
         ∨ ∃ cell, row !! v = Some cell ∧ cellError (Kind_of fld) k cell = Some e).
Proof.
  unfold decodeField. destruct (FieldByName T k) as [fld|] eqn:Hfld.
  2:{ intros [= <-]. by left. }
  intros H. right. exists fld. split; [done|].
  unfold index in H. unfold SetBool, SetInt, SetFloat, SetString, assign in H.
  destruct (Kind_of fld) eqn:HK; cbn [cellError convertible];
    try (left; split; [done|]; congruence);
    right; destruct (row !! v) as [cell|] eqn:Hcell; try done;
    cbn [mbind outcome_mbind outcome_bind] in H; exists cell; (split; [done|]);
    cbn [intBits] in H; case_parse;
    try congruence; by destruct (IsExported (Field_ fld)).
Qed.

Lemma decodeRecords_Err (conv : nat → list string → result (list Value)) i rows acc e :
  decodeRecords conv i rows acc = Err e →
  ∃ j row, rows !! j = Some row ∧ i + j ≠ 0 ∧ conv (i + j) row = Err e.
Proof.
  revert i acc. induction rows as [|r rows IH]; intros i acc; cbn [decodeRecords]; [done|].
  assert (Hrest : ∀ acc', decodeRecords conv (S i) rows acc' = Err e →
            ∃ j row, (r :: rows) !! j = Some row ∧ i + j ≠ 0 ∧ conv (i + j) row = Err e).
  { intros acc' H. apply IH in H as (j & row & Hj & Hne & Hc).
    exists (S j), row. replace (i + S j) with (S i + j) by lia. split_and!; [done|lia|done]. }
  destruct (decide (i = 0)) as [Hi|Hi]; [apply Hrest|].
  destruct (conv i r) as [rec|e'|p] eqn:Hr; [apply Hrest| |done].
  intros [= ->]. exists 0, r. rewrite Nat.add_0_r. by split_and!.
Qed.

(** X11. The errors [ReadToStruct] returns on a file of a header and
    rows: "T is not struct"; the missing column of an annotated field;
    or, for a row and a bound field, the error of converting the cell
    ("field bool ... invalid" for a float as well) or "unsupport type"
    with the name of a field whose kind does not convert. The error
    "field type not supported" is never returned. *)
Theorem ReadToStruct_errors (T : rtype) (o : range_oracle string nat)
    (header : list string) (rows : list (list string)) (e : error) :
  fair o → (∀ f, f ∈ Fields T → FieldKind f ≠ KInvalid) →
  ReadToStruct T o (Ok (header :: rows)) = Err e →
  ((TypeKind T ≠ KStruct ∧ e = ErrIsNotStruct (TypeName T))
   ∨ (∃ f, f ∈ Fields T ∧ annotated f ∧ (colOf f ∉ header)
        ∧ e = ErrReadingColumnTag (ErrColumnNotExist (colOf f)))
   ∨ (∃ colDef row k v fld,
        getStructTags T header = Ok colDef ∧ row ∈ rows
        ∧ colDef !! k = Some v ∧ FieldByName T k = Some fld
        ∧ if convertible (Kind_of fld)
          then ∃ cell, row !! v = Some cell ∧ cellError (Kind_of fld) k cell = Some e
          else e = ErrUnsupportType k))
  ∧ ∀ what, e ≠ ErrFieldTypeNotSupported what.
Proof.
  intros Hfair Hvalid H. unfold ReadToStruct in H.
  cbn [index lookup list_lookup mbind outcome_mbind outcome_bind] in H.
  destruct (readColumnDefCreateStruct T o header) as [conv|e'|p] eqn:Hc; [| |done].
  - apply readColumnDefCreateStruct_Ok in Hc as (HT & colDef & Hb & Hconv).
    cbn [mbind outcome_mbind outcome_bind] in H.
    apply decodeRecords_Err in H as (n & row & Hrow & Hne & Hn). rewrite Hconv in Hn.
    destruct n as [|n]; [done|]. cbn [lookup list_lookup] in Hrow.
    apply list_elem_of_lookup_2 in Hrow. cbn [Nat.add] in Hn.
    unfold decodeRow in Hn. apply forRange_Err in Hn as ([k v] & s & Hin & Hs).
    apply (fair_order_elem _ _ _ _ (Hfair (S n) colDef)) in Hin.
    assert (Hname : ∃ f, f ∈ Fields T ∧ Name f = k).
    { rewrite getStructTags_struct in Hb by done.
      apply bindFields_Ok in Hb as (_ & _ & Hb). destruct (Hb k v Hin) as [Hemp|Hf].
      - by rewrite lookup_empty in Hemp.
      - destruct Hf as (f & ? & _ & ? & _). eauto. }
    destruct Hname as (f & Hf & Hfk).
    assert (Hfound : is_Some (FieldByName T k)).
    { unfold FieldByName. apply list_elem_of_lookup in Hf as [j Hj]. clear -Hj Hfk.
      generalize 0. revert j Hj. induction (Fields T) as [|g fs IH]; intros j Hj i; [done|].
      simpl. destruct (decide (Name g = k)); [by eexists|].
      destruct j as [|j]; [simpl in Hj; congruence|]. by apply (IH j). }
    apply decodeField_Err in Hs as [[Hnone _]|(fld & Hfld & Hs)].
    { rewrite Hnone in Hfound. by destruct Hfound. }
    assert (Hkind : Kind_of fld ≠ KInvalid).
    { apply FieldByName_Some in Hfld as [Hl _]. apply Hvalid.
      by eapply list_elem_of_lookup_2. }
    destruct Hs as [[Hnc He]|(cell & Hcell & He)].
    + split.
      * right. right. exists colDef, row, k, v, fld. split_and!; try done.
        rewrite Hnc. destruct (Kind_of fld); try done; simpl in He; congruence.
      * intros what ->. destruct (Kind_of fld); done.
    + split.
      * right. right. exists colDef, row, k, v, fld. split_and!; try done.
        destruct (convertible (Kind_of fld)) eqn:Hcv; [by exists cell|].
        destruct (Kind_of fld); try done; simpl in He; congruence.
      * intros what ->. destruct (Kind_of fld); try done; simpl in He; case_parse; done.
  - apply readColumnDefCreateStruct_Err in Hc
      as [[HT ->]|(HT & i & f & Hf & Ha & Hn & _ & ->)];
      cbn [mbind outcome_mbind outcome_bind] in H; injection H as <-.
    + split; [by left|done].
    + split; [|done]. right. left. exists f. split_and!; try done.
      by eapply list_elem_of_lookup_2.
Qed.

Lemma ReadToStruct_errors_witness :
  let T := readings.Reading in
  let header := ["id"; "level"; "ok"; "note"] in
  let rows := [["99999999999x"; "2"; "true"; "x"]] in
  let e := ErrFieldIntInvalid "Id" (strconv.rangeError "ParseInt" "99999999999x") in
  fair (in_key_order (K := string) (V := nat))
  ∧ (∀ f, f ∈ Fields T → FieldKind f ≠ KInvalid)
  ∧ ReadToStruct T in_key_order (Ok (header :: rows)) = Err e
  ∧ ((TypeKind T ≠ KStruct ∧ e = ErrIsNotStruct (TypeName T))
     ∨ (∃ f, f ∈ Fields T ∧ annotated f ∧ (colOf f ∉ header)
          ∧ e = ErrReadingColumnTag (ErrColumnNotExist (colOf f)))
     ∨ (∃ colDef row k v fld,
          getStructTags T header = Ok colDef ∧ row ∈ rows
          ∧ colDef !! k = Some v ∧ FieldByName T k = Some fld
          ∧ if convertible (Kind_of fld)
            then ∃ cell, row !! v = Some cell ∧ cellError (Kind_of fld) k cell = Some e
            else e = ErrUnsupportType k))
  ∧ ∀ what, e ≠ ErrFieldTypeNotSupported what.
Proof.
  assert (H1 : ∀ f, f ∈ Fields readings.Reading → FieldKind f ≠ KInvalid).
  { intros f Hf. repeat (apply elem_of_cons in Hf as [->|Hf]; [done|]). inversion Hf. }
  assert (H2 : ReadToStruct readings.Reading in_key_order
                 (Ok (["id"; "level"; "ok"; "note"] :: [["99999999999x"; "2"; "true"; "x"]]))
               = Err (ErrFieldIntInvalid "Id"
                        (strconv.rangeError "ParseInt" "99999999999x")))
    by (vm_compute; reflexivity).
  split; [apply fair_in_key_order|]. split; [exact H1|]. split; [exact H2|].
  exact (ReadToStruct_errors readings.Reading in_key_order _ _ _ fair_in_key_order H1 H2).
Defined.

(* ===================================================================== *)
(** * Columns no field names                                              *)
(* ===================================================================== *)

Lemma lookup_insertAt_shift {A} p (x : A) l v :
  p ≤ length l → insertAt p x l !! shift p v = l !! v.
Proof.
  intros Hp. unfold insertAt, shift. destruct (decide (v < p)) as [Hv|Hv].
  - rewrite lookup_app_l by (rewrite length_take; lia). by rewrite lookup_take_lt.
  - rewrite lookup_app_r by (rewrite length_take; lia). rewrite length_take.
    replace (S v - p `min` length l) with (S (v - p)) by lia.
    simpl. rewrite lookup_drop. f_equal. lia.
Qed.

Lemma lookup_insertAt_inv {A} p (x : A) l j y :
  p ≤ length l → insertAt p x l !! j = Some y →
  (j = p ∧ y = x) ∨ ∃ v, j = shift p v ∧ l !! v = Some y.
Proof.
  intros Hp Hj. destruct (decide (j < p)) as [Hlt|Hge].
  - right. exists j. unfold shift. rewrite decide_True by done. split; [done|].
    by rewrite <- (lookup_insertAt_shift p x l j Hp); unfold shift; rewrite decide_True.
  - destruct (decide (j = p)) as [->|Hne].
    + left. split; [done|]. unfold insertAt in Hj.
      rewrite lookup_app_r in Hj by (rewrite length_take; lia). rewrite length_take in Hj.
      replace (p - p `min` length l) with 0 in Hj by lia. simpl in Hj. congruence.
    + right. exists (j - 1). assert (Hs : shift p (j - 1) = j).
      { unfold shift. rewrite decide_False by lia. lia. }
      split; [done|]. by rewrite <- (lookup_insertAt_shift p x l (j - 1) Hp), Hs.
Qed.

Lemma shift_mono p v w : v ≤ w → shift p v ≤ shift p w.
Proof. unfold shift. intros ?. repeat destruct (decide _); lia. Qed.

Lemma lastIndex_insertAt name p c l :
  p ≤ length l → name ≠ c →
  lastIndex name (insertAt p c l) = shift p <$> lastIndex name l.
Proof.
  intros Hp Hne. destruct (lastIndex name l) as [j|] eqn:Hl; simpl.
  - apply lastIndex_Some in Hl as [Hj Hmax]. apply lastIndex_Some. split.
    + by rewrite lookup_insertAt_shift.
    + intros k Hk.
      destruct (lookup_insertAt_inv _ _ _ _ _ Hp Hk) as [[_ ?]|(v & -> & Hv)]; [congruence|].
      apply shift_mono. by apply Hmax.
  - apply lastIndex_None in Hl. apply lastIndex_None. intros Hin.
    apply list_elem_of_lookup in Hin as [k Hk].
    destruct (lookup_insertAt_inv _ _ _ _ _ Hp Hk) as [[_ ?]|(v & -> & Hv)]; [congruence|].
    apply Hl. by eapply list_elem_of_lookup_2.
Qed.

(** The binding for the header with the column put in is the binding for
    the header without it, shifted. *)
Lemma bindFields_shift p (colNum colNum' : gmap string nat) flds m :
  (∀ f, f ∈ flds → annotated f → colNum' !! colOf f = shift p <$> colNum !! colOf f) →
  bindFields colNum' flds (shift p <$> m)
  = match bindFields colNum flds m with
    | Ok m1 => Ok (shift p <$> m1)
    | Err e => Err e
    | Panic q => Panic q
    end.
Proof.
  revert m. induction flds as [|f flds IH]; intros m Hcols; simpl; [done|].
  fold (colOf f). destruct (decide (colOf f ≠ "")) as [Ha|Ha].
  - rewrite (Hcols f) by (done || by left).
    destruct (colNum !! colOf f) as [n|]; simpl; [|done].
    rewrite <- fmap_insert. apply IH. intros g Hg. apply Hcols. by right.
  - apply IH. intros g Hg. apply Hcols. by right.
Qed.

Lemma getStructTags_insertAt T p c header :
  TypeKind T = KStruct → p ≤ length header →
  (∀ f, f ∈ Fields T → annotated f → colOf f ≠ c) →
  getStructTags T (insertAt p c header)
  = match getStructTags T header with
    | Ok colDef => Ok (shift p <$> colDef)
    | Err e => Err e
    | Panic q => Panic q
    end.
Proof.
  intros HT Hp Hc. rewrite !getStructTags_struct by done.
  rewrite <- (bindFields_shift p (rangeHeader 0 header ∅)
                (rangeHeader 0 (insertAt p c header) ∅)); [by rewrite fmap_empty|].
  intros f Hf Ha. rewrite !colNum_lookup. apply lastIndex_insertAt; [done|]. by apply Hc.
Qed.

Lemma cellAt_insertAt (colDef : gmap string nat) p x row k :
  p ≤ length row →
  cellAt (shift p <$> colDef) (insertAt p x row) k = cellAt colDef row k.
Proof.
  intros Hp. unfold cellAt. rewrite lookup_fmap. destruct (colDef !! k) as [v|]; [|done].
  simpl. by rewrite lookup_insertAt_shift.
Qed.

Lemma decodable_cells T colDef colDef' row row' :
  (∀ k, cellAt colDef row k = cellAt colDef' row' k) →
  decodable T colDef row → decodable T colDef' row'.
Proof.
  intros Hcells Hd k v' Hk. specialize (Hcells k). unfold cellAt in Hcells.
  rewrite Hk in Hcells. destruct (colDef !! k) as [v|] eqn:Hv; [|done].
  simpl in Hcells. destruct (Hd k v Hv) as (fld & cell & val & ? & Hcell & ? & ?).
  exists fld, cell, val. split_and!; try done. congruence.
Qed.

(** X12. A column that no annotated field names is ignored: putting such
    a column into the header and into every row, at one position, does
    not change which records [ReadToStruct] returns. *)
Theorem unrelated_column_ignored (T : rtype) (o o' : range_oracle string nat)
    (p : nat) (c : string) (header : list string) (rows rows' : list (list string))
    (out : list (list Value)) :
  fair o → fair o' → p ≤ length header →
  (∀ f, f ∈ Fields T → annotated f → colOf f ≠ c) →
  Forall2 (λ row' row, p ≤ length row ∧ ∃ x, row' = insertAt p x row) rows' rows →
  ReadToStruct T o (Ok (insertAt p c header :: rows')) = Ok out
  ↔ ReadToStruct T o' (Ok (header :: rows)) = Ok out.
Proof.
  intros Hfair Hfair' Hp Hc Hrows.
  assert (Hkey : ∀ colDef, TypeKind T = KStruct → getStructTags T header = Ok colDef →
            getStructTags T (insertAt p c header) = Ok (shift p <$> colDef)
            ∧ (Forall (decodable T (shift p <$> colDef)) rows'
               ↔ Forall (decodable T colDef) rows)
            ∧ specRecord T (shift p <$> colDef) <$> rows' = specRecord T colDef <$> rows).
  { intros colDef HT Hb. split; [by rewrite getStructTags_insertAt, Hb|].
    clear -Hrows. induction Hrows as [|row' row rows' rows (Hlen & x & ->) _ [IH1 IH2]];
      [done|].
    split.
    - rewrite !Forall_cons, IH1. split; intros [Hd ?]; (split; [|done]).
      + eapply decodable_cells; [|exact Hd]. intros k. by apply cellAt_insertAt.
      + eapply decodable_cells; [|exact Hd]. intros k. symmetry. by apply cellAt_insertAt.
    - rewrite !fmap_cons, IH2. f_equal. apply specRecord_ext. intros k.
      by apply cellAt_insertAt. }
  split; intros H.
  - destruct (ReadToStruct_Ok_binding _ _ _ _ _ H) as (HT & colDef' & Hb').
    destruct (getStructTags T header) as [colDef| |] eqn:Hb.
    2,3: by rewrite getStructTags_insertAt, Hb in Hb'.
    destruct (Hkey colDef HT eq_refl) as (Hb2 & Hdec & Hspec).
    rewrite (ReadToStruct_struct _ _ _ _ _ HT Hb2) in H.
    apply decodeRecords_Ok in H as [Hall ->]; [|done..].
    rewrite (ReadToStruct_struct _ _ _ _ _ HT Hb). apply decodeRecords_Ok; [done..|].
    split; [by apply Hdec|done].
  - destruct (ReadToStruct_Ok_binding _ _ _ _ _ H) as (HT & colDef & Hb).
    destruct (Hkey colDef HT Hb) as (Hb2 & Hdec & Hspec).
    rewrite (ReadToStruct_struct _ _ _ _ _ HT Hb) in H.
    apply decodeRecords_Ok in H as [Hall ->]; [|done..].
    rewrite (ReadToStruct_struct _ _ _ _ _ HT Hb2). apply decodeRecords_Ok; [done..|].
    split; [by apply Hdec|done].
Qed.

Lemma unrelated_column_ignored_witness :
  let T := examples.Person in
  let header := ["active"; "name"] in
  let rows := [["true"; "Ann"]] in
  let rows' := [["true"; "37"; "Ann"]] in
  let out := [[VString "Ann"; VBool true]] in
  fair (in_key_order (K := string) (V := nat)) ∧ fair (in_key_order (K := string) (V := nat))
  ∧ 1 ≤ length header
  ∧ (∀ f, f ∈ Fields T → annotated f → colOf f ≠ "age")
  ∧ Forall2 (λ row' row, 1 ≤ length row ∧ ∃ x, row' = insertAt 1 x row) rows' rows
  ∧ (ReadToStruct T in_key_order (Ok (insertAt 1 "age" header :: rows')) = Ok out
     ↔ ReadToStruct T in_key_order (Ok (header :: rows)) = Ok out).
Proof.
  assert (H1 : 1 ≤ length ["active"; "name"]) by (simpl; lia).
  assert (H2 : ∀ f, f ∈ Fields examples.Person → annotated f → colOf f ≠ "age").
  { intros f Hf _. repeat (apply elem_of_cons in Hf as [->|Hf]; [done|]). inversion Hf. }
  assert (H3 : Forall2 (λ row' row : list string, 1 ≤ length row ∧ ∃ x, row' = insertAt 1 x row)
                 [["true"; "37"; "Ann"]] [["true"; "Ann"]]).
  { constructor; [|constructor]. split; [simpl; lia|]. by exists "37". }
  split; [apply fair_in_key_order|]. split; [apply fair_in_key_order|].
  split; [exact H1|]. split; [exact H2|]. split; [exact H3|].
  exact (unrelated_column_ignored examples.Person in_key_order in_key_order 1 "age"
           ["active"; "name"] [["true"; "Ann"]] [["true"; "37"; "Ann"]]
           [[VString "Ann"; VBool true]] fair_in_key_order fair_in_key_order H1 H2 H3).
Defined.

(* ===================================================================== *)
(** * Properties of encoding/csv                                          *)
(* ===================================================================== *)

Module csv_facts.
Import csv.

(** ** Lines *)

Lemma ReadSlice_spec s :
  ∃ line rest found, ReadSlice s = (line, rest, found)
    ∧ s = line ++ rest
    ∧ (found = true → ∃ body, line = body ++ [LF] ∧ LF ∉ body)
    ∧ (found = false → rest = [] ∧ LF ∉ line).
Proof.
  induction s as [|c s (line & rest & found & IH & Hs & Ht & Hf)]; simpl.
  - exists [], [], false. split_and!; [done|done|done|]. intros _. split; [done|]. apply not_elem_of_nil.
  - destruct (decide (c = LF)) as [->|Hc].
    + exists [LF], s, true. split_and!; [done|done| |done].
      intros _. exists []. split; [done|]. apply not_elem_of_nil.
    + rewrite IH. exists (c :: line), rest, found. split_and!; [done|by rewrite Hs| |].
      * intros Hfound. destruct (Ht Hfound) as (body & -> & Hb). exists (c :: body).
        split; [done|]. rewrite not_elem_of_cons. split; [congruence|done].
      * intros Hfound. destruct (Hf Hfound) as [-> Hl]. split; [done|].
        rewrite not_elem_of_cons. split; [congruence|done].
Qed.

(** What [readLine] takes off the input. *)
Lemma readLine_spec r :
  ∃ line err rest,
    readLine r = (line, err, mkReader rest (fault r) (S (numLine r)) (FieldsPerRecord r))
    ∧ length line + length rest ≤ length (input r)
    ∧ (err = None → length rest < length (input r))
    ∧ (isEOF err = true → line = []).
Proof.
  unfold readLine. destruct (ReadSlice_spec (input r)) as (line & rest & found & -> & Hs & Ht & Hf).
  assert (Hlen : length (input r) = length line + length rest) by (by rewrite Hs, length_app).
  assert (Hnorm : ∀ l : bytes,
    length (if decide (2 ≤ length l ∧ l !! (length l - 2) = Some CR
                       ∧ l !! (length l - 1) = Some LF)
            then take (length l - 2) l ++ [LF] else l) ≤ length l).
  { intros l. destruct (decide _) as [(Hn & _ & _)|]; [|lia].
    rewrite length_app, length_take_le by lia. simpl. lia. }
  destruct found.
  - rewrite decide_False by (intros [_ ?]; done).
    eexists _, None, rest. split; [reflexivity|]. cbv zeta. split_and!; [| |done].
    + eapply Nat.le_trans; [apply Nat.add_le_mono_r; exact (Hnorm line)|lia].
    + intros _. destruct (Ht eq_refl) as (body & -> & _).
      rewrite length_app in Hlen. simpl in Hlen. lia.
  - destruct (Hf eq_refl) as [-> _]. destruct (fault r) as [msg|]; cbn [isEOF].
    + rewrite decide_False by (intros [_ ?]; done).
      eexists _, (Some (Other msg)), []. split; [reflexivity|]. cbv zeta.
      split_and!; [|done|done].
      eapply Nat.le_trans; [apply Nat.add_le_mono_r; exact (Hnorm line)|lia].
    + destruct (decide (0 < length line ∧ true = true)) as [[Hpos _]|Hno].
      * set (line1 := if decide (last line = Some CR) then take (length line - 1) line
                      else line).
        assert (Hl1 : length line1 ≤ length line).
        { unfold line1. destruct (decide _); [rewrite length_take; apply Nat.le_min_r|lia]. }
        eexists _, None, []. split; [reflexivity|]. cbv zeta.
        split_and!; [|intros _; simpl; lia|done].
        eapply Nat.le_trans; [apply Nat.add_le_mono_r; exact (Hnorm line1)|lia].
      * eexists _, (Some EOF), []. split; [reflexivity|]. cbv zeta. split_and!.
        -- eapply Nat.le_trans; [apply Nat.add_le_mono_r; exact (Hnorm line)|lia].
        -- done.
        -- intros _. destruct line as [|c line]; [done|]. exfalso. apply Hno.
           simpl. split; [lia|done].
Qed.

Lemma IndexByte_Some l c i :
  IndexByte l c = Some i → i < length l ∧ l !! i = Some c ∧ c ∉ take i l.
Proof.
  revert i. induction l as [|x l IH]; intros i; simpl; [done|].
  destruct (decide (x = c)) as [->|Hx].
  - intros [= <-]. simpl. split_and!; [lia|done|apply not_elem_of_nil].
  - destruct (IndexByte l c) as [j|]; [|done]. intros [= <-].
    destruct (IH j eq_refl) as (Hj & Hl & Hn). simpl. split_and!; [lia|done|].
    rewrite not_elem_of_cons. split; [congruence|done].
Qed.

Lemma IndexByte_None l c : IndexByte l c = None ↔ c ∉ l.
Proof.
  induction l as [|x l IH]; simpl.
  - split; [intros _; apply not_elem_of_nil|done].
  - destruct (decide (x = c)) as [->|Hx].
    + split; [done|]. intros H. exfalso. apply H. by left.
    + rewrite not_elem_of_cons. destruct (IndexByte l c); simpl.
      * split; [done|]. intros [_ H]. by apply IH in H.
      * split; [|done]. intros _. split; [congruence|]. by apply IH.
Qed.

(** ** Every loop ends before its bound *)

Lemma quotedField_total fuel recLine r errRead line pos buf :
  length line + length (input r) < fuel →
  ∃ res, quotedField fuel recLine r errRead line pos buf = Some res
    ∧ match res with
      | NextField line' _ r' e' _ =>
          length line' + length (input r') < length line + length (input r)
          ∧ length (input r') ≤ length (input r)
          ∧ FieldsPerRecord r' = FieldsPerRecord r
          ∧ (e' = None → errRead = None)
      | EndRecord r' e' _ =>
          length (input r') ≤ length (input r) ∧ FieldsPerRecord r' = FieldsPerRecord r
          ∧ (e' = None → errRead = None)
      | Abandoned _ e' => e' ≠ None
      | BadQuote _ _ => True
      end.
Proof.
  revert r errRead line pos buf.
  induction fuel as [|fuel IH]; intros r errRead line pos buf Hfuel; [lia|].
  cbn [quotedField]. destruct (IndexByte line quote) as [i|] eqn:Hi.
  - apply IndexByte_Some in Hi as (Hi & _ & _).
    assert (Hdrop : length (drop (i + 1) line) = length line - (i + 1)) by apply length_drop.
    destruct (decide (head (drop (i + 1) line) = Some quote)) as [Hq|Hq].
    + destruct (IH r errRead (drop 1 (drop (i + 1) line))
                  {| line_ := line_ pos; col := col pos + (i + 1) + 1 |}
                  ((buf ++ take i line) ++ [quote])) as (res & Hres & Hb).
      { rewrite length_drop. lia. }
      exists res. split; [exact Hres|]. rewrite length_drop in Hb.
      destruct res as [l' p' r' e' f'|r' e' f'|r' e'|r' e']; [|done..].
      destruct Hb as (Hb1 & Hb2 & Hb3 & Hb4). split_and!; [lia|done|done|done].
    + destruct (decide (head (drop (i + 1) line) = Some Comma)) as [Hc|Hc].
      * eexists. split; [reflexivity|]. cbn. rewrite length_drop.
        split_and!; [lia|done|done|done].
      * destruct (decide _); eexists; (split; [reflexivity|]); done.
  - destruct (decide (0 < length line)) as [Hpos|Hpos].
    + destruct errRead as [e|]; [eexists; split; [reflexivity|done]|].
      destruct (readLine_spec r) as (line' & err & rest & -> & Hlen & _ & _).
      cbv beta iota zeta.
      match goal with
      | |- ∃ res, quotedField fuel recLine ?r' ?e' line' ?pos' ?buf' = Some res ∧ _ =>
          destruct (IH r' e' line' pos' buf') as (res & Hres & Hb)
      end.
      { simpl. lia. }
      exists res. split; [exact Hres|]. cbn [input FieldsPerRecord] in Hb.
      destruct res as [l' p' r' e' f'|r' e' f'|r' e'|r' e']; [| |done|done].
      * destruct Hb as (Hb1 & Hb2 & Hb3 & _). split_and!; [lia|lia|done|done].
      * destruct Hb as (Hb1 & Hb2 & _). split_and!; [lia|done|done].
    + destruct errRead as [e|]; eexists; (split; [reflexivity|]); done.
Qed.

Lemma parseField_total fuel recLine r errRead line pos dst :
  length line + length (input r) < fuel →
  ∃ r' dst' err, parseField fuel recLine r errRead line pos dst = Some (r', dst', err)
    ∧ (err = None →
       errRead = None
       ∧ length (input r') ≤ length (input r)
       ∧ FieldsPerRecord r' = FieldsPerRecord r
       ∧ length dst < length dst').
Proof.
  revert r errRead line pos dst.
  induction fuel as [|fuel IH]; intros r errRead line pos dst Hfuel; [lia|].
  cbn [parseField]. destruct (decide (head line ≠ Some quote)) as [Hh|Hh].
  - destruct (IndexByte line Comma) as [i|] eqn:Hi.
    + apply IndexByte_Some in Hi as (Hi & _ & _).
      destruct (IndexByte (take i line) quote) as [j|] eqn:Hj.
      * eexists _, _, _. split; [reflexivity|]. done.
      * destruct (IH r errRead (drop (i + 1) line)
                    {| line_ := line_ pos; col := col pos + (i + 1) |}
                    (dst ++ [string_of_list_ascii (take i line)]))
          as (r' & dst' & err & Hp & Hok).
        { rewrite length_drop. lia. }
        exists r', dst', err. split; [exact Hp|].
        intros He. destruct (Hok He) as (? & ? & ? & Hdst). split_and!; [done..|].
        rewrite length_app in Hdst. simpl in Hdst. lia.
    + destruct (IndexByte (take (length line - lengthNL line) line) quote) as [j|] eqn:Hj.
      * eexists _, _, _. split; [reflexivity|]. done.
      * eexists _, _, _. split; [reflexivity|]. intros ->. split_and!; [done|lia|done|].
        rewrite length_app. simpl. lia.
  - assert (Hline : 0 < length line).
    { destruct line; [|simpl; lia]. exfalso. apply Hh. done. }
    destruct (quotedField_total fuel recLine r errRead (drop 1 line)
                {| line_ := line_ pos; col := col pos + 1 |} [])
      as (res & -> & Hb).
    { rewrite length_drop. lia. }
    rewrite length_drop in Hb.
    destruct res as [l' p' r' e' f'|r' e' f'|r' e'|r' e'].
    + destruct Hb as (Hb1 & Hb2 & Hb3 & Hb4).
      destruct (IH r' e' l' p' (dst ++ [string_of_list_ascii f']))
        as (r'' & dst' & err & Hp & Hok); [lia|].
      exists r'', dst', err. split; [exact Hp|].
      intros He. destruct (Hok He) as (? & ? & ? & Hdst).
      split_and!; [by apply Hb4|lia|congruence|].
      rewrite length_app in Hdst. simpl in Hdst. lia.
    + destruct Hb as (Hb1 & Hb2 & Hb3). eexists _, _, _. split; [reflexivity|].
      intros ->. split_and!; [by apply Hb3|done..|]. rewrite length_app. simpl. lia.
    + eexists _, _, _. split; [reflexivity|]. done.
    + eexists _, _, _. split; [reflexivity|]. done.
Qed.

Lemma nextLine_total fuel r :
  length (input r) < fuel →
  ∃ line err r', nextLine fuel r = Some (line, err, r')
    ∧ FieldsPerRecord r' = FieldsPerRecord r
    ∧ length line + length (input r') ≤ length (input r)
    ∧ (err = None → length (input r') < length (input r)).
Proof.
  revert r. induction fuel as [|fuel IH]; intros r Hfuel; [lia|].
  cbn [nextLine]. destruct (readLine_spec r) as (line & err & rest & -> & Hlen & Hlt & Heof).
  destruct (decide (err = None ∧ length line = lengthNL line)) as [[He Hl]|Hno].
  - destruct (IH (mkReader rest (fault r) (S (numLine r)) (FieldsPerRecord r)))
      as (line' & err' & r' & -> & Hf & Hb1 & Hb2).
    { simpl. specialize (Hlt He). lia. }
    exists line', err', r'. split; [done|]. split; [done|]. specialize (Hlt He).
    simpl in Hb1, Hb2. split; [lia|]. intros He'. specialize (Hb2 He'). lia.
  - eexists _, _, _. split; [reflexivity|]. split; [done|]. simpl. split; [lia|].
    intros He. specialize (Hlt He). lia.
Qed.

(** What a record that is read tells: input was consumed, the record has
    a field, and its number of fields is the one required from now on,
    which is the one required before if one was. *)
Lemma readRecord_total fuel r :
  length (input r) < fuel →
  ∃ r' rec err, readRecord fuel r = Some (r', rec, err)
    ∧ (err = None →
       length (input r') < length (input r)
       ∧ 0 < length rec
       ∧ FieldsPerRecord r' = length rec
       ∧ (0 < FieldsPerRecord r → FieldsPerRecord r' = FieldsPerRecord r)).
Proof.
  intros Hfuel. unfold readRecord.
  destruct (nextLine_total fuel r Hfuel) as (line & err0 & r1 & -> & Hf1 & Hb1 & Hb2).
  destruct (isEOF err0) eqn:Heof; [by eexists _, _, _|].
  destruct (parseField_total fuel (numLine r1) r1 err0 line (mkPosition (numLine r1) 1) [])
    as (r2 & dst & err & -> & Hok); [lia|].
  destruct (decide (0 < FieldsPerRecord r2)) as [Hpos|Hzero].
  - destruct (decide (length dst ≠ FieldsPerRecord r2 ∧ err = None)) as [Hbad|Hgood].
    + eexists _, _, _. split; [reflexivity|]. done.
    + eexists _, _, _. split; [reflexivity|]. intros ->.
      destruct (Hok eq_refl) as (-> & ? & ? & Hdst). simpl in Hdst.
      specialize (Hb2 eq_refl).
      assert (length dst = FieldsPerRecord r2).
      { destruct (decide (length dst = FieldsPerRecord r2)); [done|]. exfalso. by apply Hgood. }
      split_and!; [lia|lia|done|]. intros _. congruence.
  - eexists _, _, _. split; [reflexivity|]. intros ->.
    destruct (Hok eq_refl) as (-> & ? & ? & Hdst). simpl in Hdst.
    specialize (Hb2 eq_refl).
    cbn [input FieldsPerRecord]. split_and!; [lia|lia|done|]. intros ?. exfalso.
    apply Hzero. lia.
Qed.

Lemma readAllLoop_total fuel r records :
  length (input r) + 1 < fuel → uniform r records →
  ∃ res, readAllLoop fuel r records = Some res
    ∧ match res with
      | inr out => ∃ n, 0 < n ∧ Forall (λ rec, length rec = n) out
      | inl _ => True
      end.
Proof.
  revert r records. induction fuel as [|fuel IH]; intros r records Hfuel Hu; [lia|].
  cbn [readAllLoop].
  destruct (readRecord_total fuel r) as (r' & rec & err & -> & Hok); [lia|].
  destruct err as [[|e|msg]|].
  - eexists. split; [reflexivity|]. destruct Hu as [[_ ->]|[Hpos Hall]].
    + exists 1. split; [lia|done].
    + by exists (FieldsPerRecord r).
  - eexists. split; [reflexivity|]. done.
  - eexists. split; [reflexivity|]. done.
  - destruct (Hok eq_refl) as (Hlt & Hrec & Hf & Hkeep).
    apply IH; [lia|]. right. split; [lia|].
    apply Forall_app. split; [|by apply Forall_singleton].
    destruct Hu as [[_ ->]|[Hpos Hall]]; [done|]. by rewrite Hkeep.
Qed.

(** [ReadAll] is defined by its loop: the bound is never met. *)
Lemma ReadAll_loop f fault :
  readAllLoop (length f + 2) (NewReader f fault) [] = Some (ReadAll f fault).
Proof.
  unfold ReadAll.
  destruct (readAllLoop_total (length f + 2) (NewReader f fault) []) as (res & -> & _).
  - simpl. lia.
  - by left.
  - done.
Qed.

(** The records [ReadAll] returns all have the same number of fields. *)
Lemma ReadAll_uniform f fault records :
  ReadAll f fault = inr records → ∃ n, 0 < n ∧ Forall (λ rec, length rec = n) records.
Proof.
  intros H.
  destruct (readAllLoop_total (length f + 2) (NewReader f fault) []) as (res & Hres & Hb).
  - simpl. lia.
  - by left.
  - rewrite ReadAll_loop in Hres. injection Hres as <-. by rewrite H in Hb.
Qed.

Lemma noCRLF_app a b :
  noCRLF a = true → noCRLF b = true → last a ≠ Some CR ∨ head b ≠ Some LF →
  noCRLF (a ++ b) = true.
Proof.
  intros Ha Hb Hab. induction a as [|c a IH]; [done|].
  simpl in Ha |- *. apply andb_true_iff in Ha as [Hc Ha]. apply andb_true_iff. split.
  - destruct a as [|d a]; [|done]. simpl.
    apply negb_true_iff, andb_false_iff.
    destruct Hab as [Hl|Hh].
    + left. apply bool_decide_eq_false. intros ->. by apply Hl.
    + right. by apply bool_decide_eq_false.
  - apply IH; [done|]. destruct Hab as [Hl|Hh]; [|by right].
    left. destruct a as [|d a]; [done|]. by rewrite last_cons_cons in Hl.
Qed.

Lemma noCRLF_app_r a b : noCRLF (a ++ b) = true → noCRLF b = true.
Proof.
  induction a as [|c a IH]; [done|]. simpl. intros [_ H]%andb_true_iff. by apply IH.
Qed.

Lemma noCRLF_before_LF body rest : noCRLF (body ++ LF :: rest) = true → last body ≠ Some CR.
Proof.
  induction body as [|c body IH]; [done|]. simpl. intros [Hc H]%andb_true_iff.
  destruct body as [|d body].
  - simpl in Hc. intros [= ->]. done.
  - rewrite last_cons_cons. by apply IH.
Qed.

Lemma tidy_nil : tidy [].
Proof. done. Qed.

Lemma tidy_app a b : tidy a → tidy b → tidy (a ++ b).
Proof.
  intros [Ha1 Ha2] [Hb1 Hb2]. split.
  - apply noCRLF_app; auto.
  - rewrite last_app. destruct (last b); [done|]. done.
Qed.

Lemma tidy_byte c : c ≠ CR → tidy [c].
Proof.
  intros Hc. split; [|by intros [= ->]]. simpl.
  rewrite bool_decide_eq_false_2 by done. done.
Qed.

Lemma tidy_no_CR t : CR ∉ t → tidy t.
Proof.
  induction t as [|c t IH]; [done|]. rewrite not_elem_of_cons. intros [Hc Ht].
  apply (tidy_app [c] t); [apply tidy_byte; congruence|by apply IH].
Qed.

Lemma clean_app_r a b : clean (a ++ b) → clean b.
Proof.
  intros [H1 H2]. split; [by eapply noCRLF_app_r|].
  destruct b as [|c b]; [by left|]. right.
  destruct H2 as [H2|H2]; [by destruct a|]. by rewrite last_app_cons in H2.
Qed.

Lemma first_split (c : ascii) t : c ∈ t → ∃ pre post, t = pre ++ c :: post ∧ c ∉ pre.
Proof.
  induction t as [|x t IH]; [by intros ?%elem_of_nil|].
  destruct (decide (x = c)) as [->|Hx].
  - intros _. exists [], t. split; [done|]. apply not_elem_of_nil.
  - intros [?|Hin]%elem_of_cons; [congruence|].
    destruct (IH Hin) as (pre & post & -> & Hpre). exists (x :: pre), post.
    split; [done|]. rewrite not_elem_of_cons. split; [congruence|done].
Qed.

Lemma ReadSlice_found body rest :
  LF ∉ body → ReadSlice (body ++ LF :: rest) = (body ++ [LF], rest, true).
Proof.
  induction body as [|c body IH]; simpl.
  - done.
  - rewrite not_elem_of_cons. intros [Hc Hb]. rewrite decide_False by congruence.
    by rewrite IH.
Qed.

(** The reader takes the first line off a clean text, as it is. *)
Lemma readLine_clean r :
  clean (input r) → input r ≠ [] →
  ∃ body rest,
    input r = body ++ LF :: rest ∧ (LF ∉ body) ∧ clean rest
    ∧ readLine r
      = (body ++ [LF], None, mkReader rest (fault r) (S (numLine r)) (FieldsPerRecord r)).
Proof.
  intros Hclean Hne. destruct Hclean as [Hno Hlast]. destruct Hlast as [|Hlast]; [done|].
  destruct (first_split LF (input r)) as (body & rest & Hin & Hbody).
  { by apply last_Some_elem_of. }
  exists body, rest. split; [done|]. split; [done|]. split.
  { apply (clean_app_r (body ++ [LF])). rewrite <- (assoc_L (++)). simpl.
    rewrite <- Hin. split; [done|]. by right. }
  unfold readLine. rewrite Hin, ReadSlice_found by done.
  rewrite decide_False by (intros [_ ?]; done).
  cbv beta iota zeta. rewrite decide_False; [done|].
  intros (Hn & Hcr & _). rewrite Hin in Hno. apply noCRLF_before_LF in Hno.
  apply Hno. rewrite length_app in Hcr, Hn. simpl in Hcr, Hn.
  replace (length body + 1 - 2) with (length body - 1) in Hcr by lia.
  rewrite lookup_app_l in Hcr by lia. rewrite last_lookup.
  by replace (pred (length body)) with (length body - 1) by lia.
Qed.

(** A line and the input after it, against a known text. *)
Lemma line_prefix line inp pre x T :
  line ++ inp = pre ++ x :: T → lineShape line → LF ∉ pre →
  (x = LF → line = pre ++ [LF] ∧ inp = T)
  ∧ (x ≠ LF → ∃ line', line = pre ++ x :: line' ∧ line' ++ inp = T ∧ lineShape line').
Proof.
  intros Heq (body & -> & Hbody). revert body Heq Hbody.
  induction pre as [|p pre IH]; intros body Heq Hbody Hpre.
  - destruct body as [|c body]; simpl in Heq.
    + injection Heq as <- <-. split; [done|]. done.
    + injection Heq as <- <-. apply not_elem_of_cons in Hbody as [Hc Hbody]. split.
      * intros ->. done.
      * intros _. exists (body ++ [LF]). split_and!; [done|done|]. by exists body.
  - apply not_elem_of_cons in Hpre as [Hp Hpre].
    destruct body as [|c body]; simpl in Heq.
    + injection Heq as <- _. done.
    + injection Heq as <- Heq. apply not_elem_of_cons in Hbody as [Hc Hbody].
      destruct (IH body Heq Hbody Hpre) as [H1 H2]. split.
      * intros Hx. destruct (H1 Hx) as [Hl ->]. split; [|done]. simpl. by f_equal.
      * intros Hx. destruct (H2 Hx) as (line' & Hl & <- & Hshape). exists line'.
        split_and!; [|done|done]. simpl. by f_equal.
Qed.

(** ** Reading what the writer wrote *)

(** A byte that is not a quote moves from the line to the buffer. *)
Lemma quotedField_step fuel recLine r c line pos buf :
  c ≠ quote → line ≠ [] →
  quotedField fuel recLine r None (c :: line) pos buf
  = quotedField fuel recLine r None line (mkPosition (line_ pos) (col pos + 1)) (buf ++ [c]).
Proof.
  intros Hc Hline. destruct fuel as [|fuel]; [done|]. cbn [quotedField IndexByte].
  rewrite decide_False by done. destruct (IndexByte line quote) as [i|]; cbn [fmap option_fmap option_map].
  - cbn [line_ col]. replace (S i + 1) with (S (i + 1)) by lia. cbn [take drop].
    rewrite <- (assoc_L (++) buf [c]). cbn [app].
    replace (col pos + S (i + 1)) with (col pos + 1 + (i + 1)) by lia. done.
  - rewrite decide_True by (simpl; lia).
    rewrite (decide_True (P := 0 < length line)) by (destruct line; [done|simpl; lia]).
    cbn [line_ col length]. rewrite <- (assoc_L (++) buf [c]). cbn [app].
    replace (col pos + S (length line)) with (col pos + 1 + length line) by lia. done.
Qed.

Lemma lineShape_nonempty line : lineShape line → line ≠ [].
Proof. intros (body & -> & _). by destruct body. Qed.

(** The loop over a quoted field reads back the field that was written
    between the quotes, up to the comma or the line feed after the
    closing quote. *)
Lemma quotedField_written fb :
  ∀ fuel recLine r line pos buf tail,
    line ++ input r = quoteBody fb ++ quote :: tail →
    lineShape line → clean (input r) →
    length line + length (input r) < fuel →
    (∀ tail', tail = Comma :: tail' →
       ∃ line' pos' r',
         quotedField fuel recLine r None line pos buf
         = Some (NextField line' pos' r' None (buf ++ fb))
         ∧ line' ++ input r' = tail' ∧ lineShape line' ∧ clean (input r')
         ∧ FieldsPerRecord r' = FieldsPerRecord r ∧ fault r' = fault r
         ∧ length line' + length (input r') < length line + length (input r))
    ∧ (∀ tail', tail = LF :: tail' →
         ∃ r',
           quotedField fuel recLine r None line pos buf = Some (EndRecord r' None (buf ++ fb))
           ∧ input r' = tail' ∧ clean (input r')
           ∧ FieldsPerRecord r' = FieldsPerRecord r ∧ fault r' = fault r).
Proof.
  induction fb as [|c fb IH]; intros fuel recLine r line pos buf tail Heq Hshape Hclean Hfuel.
  - (* the closing quote *)
    cbn [quoteBody app] in Heq.
    destruct (line_prefix line (input r) [] quote tail Heq Hshape) as [_ H];
      [apply not_elem_of_nil|].
    destruct H as (line1 & -> & Heq1 & Hshape1); [done|]. cbn [app] in *.
    destruct fuel as [|fuel]; [lia|]. cbn [quotedField IndexByte].
    rewrite decide_True by done. cbn [take drop Nat.add]. rewrite !app_nil_r. split.
    + intros tail' ->.
      destruct (line_prefix line1 (input r) [] Comma tail' Heq1 Hshape1) as [_ H];
        [apply not_elem_of_nil|].
      destruct H as (line2 & -> & Heq2 & Hshape2); [done|]. cbn [app head drop].
      rewrite decide_False by done. rewrite decide_True by done. rewrite drop_0.
      eexists _, _, _. split; [reflexivity|]. split_and!; [done..|]. simpl. lia.
    + intros tail' ->.
      destruct (line_prefix line1 (input r) [] LF tail' Heq1 Hshape1) as [H _];
        [apply not_elem_of_nil|].
      destruct H as [-> Hin]; [done|]. cbn [app head].
      rewrite decide_False by done. rewrite decide_False by done.
      rewrite decide_True by done.
      eexists. split; [reflexivity|]. done.
  - cbn [quoteBody] in Heq. destruct (decide (c = quote)) as [->|Hq].
    + (* a doubled quote *)
      cbn [app] in Heq.
      destruct (line_prefix line (input r) [] quote _ Heq Hshape) as [_ H];
        [apply not_elem_of_nil|].
      destruct H as (line1 & -> & Heq1 & Hshape1); [done|]. cbn [app] in *.
      destruct (line_prefix line1 (input r) [] quote _ Heq1 Hshape1) as [_ H];
        [apply not_elem_of_nil|].
      destruct H as (line2 & -> & Heq2 & Hshape2); [done|]. cbn [app] in *.
      destruct fuel as [|fuel]; [lia|]. cbn [quotedField IndexByte].
      rewrite decide_True by done. cbn [take drop Nat.add head]. rewrite !app_nil_r.
      rewrite decide_True by done. rewrite drop_0.
      destruct (IH fuel recLine r line2
                  {| line_ := line_ (mkPosition (line_ pos) (col pos + 1));
                     col := col (mkPosition (line_ pos) (col pos + 1)) + 1 |}
                  (buf ++ [quote]) tail Heq2 Hshape2 Hclean) as [IHc IHl].
      { simpl in Hfuel. lia. }
      rewrite <- !(assoc_L (++) buf [quote]) in IHc, IHl. cbn [app] in IHc, IHl. split.
      * intros tail' Ht. destruct (IHc tail' Ht) as (l' & p' & r' & Hq' & ? & ? & ? & ? & ? & Hlt).
        exists l', p', r'. split; [exact Hq'|]. split_and!; [done..|]. simpl. lia.
      * intros tail' Ht. destruct (IHl tail' Ht) as (r' & Hq' & ?).
        exists r'. split; [exact Hq'|]. done.
    + cbn [app] in Heq. destruct (decide (c = LF)) as [->|Hlf].
      * (* a line feed inside the field: the next line is read *)
        destruct (line_prefix line (input r) [] LF _ Heq Hshape) as [H _];
          [apply not_elem_of_nil|].
        destruct H as [-> Hin]; [done|]. cbn [app] in *.
        destruct (readLine_clean r Hclean) as (body & rest & Hinput & Hbody & Hrest & Hread).
        { rewrite Hin. by destruct (quoteBody fb). }
        destruct fuel as [|fuel]; [lia|]. cbn [quotedField IndexByte].
        rewrite decide_False by done. cbn [fmap option_fmap option_map].
        rewrite decide_True by (simpl; lia). rewrite Hread.
        rewrite (decide_True (P := 0 < length (body ++ [LF])))
          by (rewrite length_app; simpl; lia).
        set (r2 := mkReader rest (fault r) (S (numLine r)) (FieldsPerRecord r)).
        destruct (IH fuel recLine r2 (body ++ [LF])
                    {| line_ := S (line_ (mkPosition (line_ pos) (col pos + length [LF])));
                       col := 1 |}
                    (buf ++ [LF]) tail) as [IHc IHl].
        { simpl. rewrite <- (assoc_L (++)). simpl. by rewrite <- Hinput, Hin. }
        { by exists body. }
        { done. }
        { simpl. rewrite length_app. simpl. rewrite Hinput, length_app in Hfuel.
          simpl in Hfuel. lia. }
        rewrite <- !(assoc_L (++) buf [LF]) in IHc, IHl. cbn [app] in IHc, IHl.
        assert (Hlen : length (body ++ [LF]) + length rest = length (input r)).
        { rewrite Hinput, !length_app. simpl. lia. }
        split.
        -- intros tail' Ht.
           destruct (IHc tail' Ht) as (l' & p' & r' & Hq' & ? & ? & ? & ? & ? & Hlt).
           exists l', p', r'. split; [exact Hq'|]. split_and!; [done..|].
           simpl in Hlt |- *. lia.
        -- intros tail' Ht. destruct (IHl tail' Ht) as (r' & Hq' & ?).
           exists r'. split; [exact Hq'|]. done.
      * (* any other byte *)
        destruct (line_prefix line (input r) [] c _ Heq Hshape) as [_ H];
          [apply not_elem_of_nil|].
        destruct H as (line1 & -> & Heq1 & Hshape1); [done|]. cbn [app] in *.
        rewrite quotedField_step by (done || by apply lineShape_nonempty).
        destruct (IH fuel recLine r line1 {| line_ := line_ pos; col := col pos + 1 |}
                    (buf ++ [c]) tail Heq1 Hshape1 Hclean) as [IHc IHl].
        { simpl in Hfuel. lia. }
        rewrite <- !(assoc_L (++) buf [c]) in IHc, IHl. cbn [app] in IHc, IHl. split.
        -- intros tail' Ht.
           destruct (IHc tail' Ht) as (l' & p' & r' & Hq' & ? & ? & ? & ? & ? & Hlt).
           exists l', p', r'. split; [exact Hq'|]. split_and!; [done..|]. simpl. lia.
        -- intros tail' Ht. destruct (IHl tail' Ht) as (r' & Hq' & ?).
           exists r'. split; [exact Hq'|]. done.
Qed.

Lemma fieldNeedsQuotes_false field :
  fieldNeedsQuotes field = false → Forall bare (list_ascii_of_string field).
Proof.
  unfold fieldNeedsQuotes. destruct (decide (field = "")) as [->|_]; [by intros _|].
  destruct (decide (field = "\.")); [done|].
  destruct (existsb _ (list_ascii_of_string field)) eqn:He; [done|]. intros _.
  induction (list_ascii_of_string field) as [|c l IH]; [done|].
  simpl in He. apply orb_false_iff in He as [Hc Hl]. constructor; [|by apply IH].
  apply bool_decide_eq_false in Hc. unfold bare. naive_solver.
Qed.

Lemma bare_not_elem c l : Forall bare l → c = LF ∨ c = CR ∨ c = quote ∨ c = Comma → c ∉ l.
Proof.
  intros Hall Hc Hin. rewrite Forall_forall in Hall. destruct (Hall c Hin) as (? & ? & ? & ?).
  naive_solver.
Qed.

Lemma IndexByte_first pre c post :
  c ∉ pre → IndexByte (pre ++ c :: post) c = Some (length pre).
Proof.
  induction pre as [|x pre IH]; simpl.
  - intros _. by rewrite decide_True.
  - rewrite not_elem_of_cons. intros [Hx Hpre]. rewrite decide_False by congruence.
    by rewrite IH.
Qed.

Lemma writeField_bytes field :
  (fieldNeedsQuotes field = true
   ∧ writeField field = quote :: quoteBody (list_ascii_of_string field) ++ [quote])
  ∨ (fieldNeedsQuotes field = false
     ∧ writeField field = list_ascii_of_string field
     ∧ Forall bare (list_ascii_of_string field)).
Proof.
  unfold writeField. destruct (fieldNeedsQuotes field) eqn:Hq; [by left|].
  right. split_and!; [done..|]. by apply fieldNeedsQuotes_false.
Qed.

(** The loop over the fields of a record reads back the fields that
    were written, up to the line feed that ends the record. *)
Lemma parseField_written fs :
  ∀ f n fuel recLine r line pos dst rest,
    line ++ input r = writeField f ++ writeFields (S n) fs ++ LF :: rest →
    lineShape line → clean (input r) →
    length line + length (input r) < fuel →
    ∃ r', parseField fuel recLine r None line pos dst = Some (r', dst ++ f :: fs, None)
      ∧ input r' = rest ∧ clean (input r')
      ∧ FieldsPerRecord r' = FieldsPerRecord r ∧ fault r' = fault r.
Proof.
  induction fs as [|g fs IH]; intros f n fuel recLine r line pos dst rest Heq Hshape Hclean Hfuel.
  - (* the last field of the record *)
    cbn [writeFields app] in Heq.
    destruct fuel as [|fuel]; [lia|]. cbn [parseField].
    destruct (writeField_bytes f) as [[_ Hw]|(_ & Hw & Hbare)]; rewrite Hw in Heq.
    + cbn [app] in Heq. rewrite <- (assoc_L (++)) in Heq. cbn [app] in Heq.
      destruct (line_prefix line (input r) [] quote _ Heq Hshape) as [_ H];
        [apply not_elem_of_nil|].
      destruct H as (line1 & -> & Heq1 & Hshape1); [done|]. cbn [app head] in *.
      rewrite decide_False by (intros H; by apply H). cbn [drop]. rewrite drop_0.
      destruct (quotedField_written (list_ascii_of_string f) fuel recLine r line1
                  {| line_ := line_ pos; col := col pos + 1 |} [] (LF :: rest)
                  Heq1 Hshape1 Hclean) as [_ Hend]; [simpl in Hfuel; lia|].
      destruct (Hend rest eq_refl) as (r' & -> & Hin & Hcl & Hfpr & Hfault).
      exists r'. cbn [app]. rewrite string_of_list_ascii_of_string. done.
    + destruct (line_prefix line (input r) (list_ascii_of_string f) LF rest Heq Hshape)
        as [H _]; [by apply bare_not_elem; auto|].
      destruct H as [-> Hin]; [done|].
      rewrite decide_True.
      2:{ rewrite head_snoc. destruct (list_ascii_of_string f) as [|c l] eqn:Hf; [done|].
          simpl. apply Forall_cons in Hbare as [(_ & _ & Hc & _) _]. congruence. }
      assert (Hnone : IndexByte (list_ascii_of_string f ++ [LF]) Comma = None).
      { apply IndexByte_None. rewrite not_elem_of_app. split; [by apply bare_not_elem; auto|].
        by intros [=]%list_elem_of_singleton. }
      rewrite Hnone. unfold lengthNL. rewrite last_snoc. cbn [decide].
      rewrite decide_True by done.
      rewrite length_app. cbn [length].
      replace (length (list_ascii_of_string f) + 1 - 1)
        with (length (list_ascii_of_string f)) by lia.
      rewrite take_app_length.
      assert (Hnq : IndexByte (list_ascii_of_string f) quote = None).
      { apply IndexByte_None. by apply bare_not_elem; auto. }
      rewrite Hnq. rewrite string_of_list_ascii_of_string.
      exists r. split_and!; [done|done| |done|done]. by rewrite Hin in Hclean |- *.
  - (* a field followed by a comma *)
    cbn [writeFields] in Heq. rewrite decide_True in Heq by lia.
    rewrite <- !(assoc_L (++)) in Heq. cbn [app] in Heq.
    destruct fuel as [|fuel]; [lia|]. cbn [parseField].
    destruct (writeField_bytes f) as [[_ Hw]|(_ & Hw & Hbare)]; rewrite Hw in Heq.
    + cbn [app] in Heq. rewrite <- !(assoc_L (++)) in Heq. cbn [app] in Heq.
      destruct (line_prefix line (input r) [] quote _ Heq Hshape) as [_ H];
        [apply not_elem_of_nil|].
      destruct H as (line1 & -> & Heq1 & Hshape1); [done|]. cbn [app head] in *.
      rewrite decide_False by (intros H; by apply H). cbn [drop]. rewrite drop_0.
      destruct (quotedField_written (list_ascii_of_string f) fuel recLine r line1
                  {| line_ := line_ pos; col := col pos + 1 |} []
                  (Comma :: writeField g ++ writeFields (S (S n)) fs ++ LF :: rest)
                  Heq1 Hshape1 Hclean) as [Hnext _]; [simpl in Hfuel; lia|].
      destruct (Hnext _ eq_refl)
        as (line' & pos' & r' & -> & Heq' & Hshape' & Hcl' & Hfpr & Hfault & Hlt).
      cbn [app]. rewrite string_of_list_ascii_of_string.
      destruct (IH g (S n) fuel recLine r' line' pos' (dst ++ [f]) rest Heq' Hshape' Hcl')
        as (r'' & -> & Hin & Hcl'' & Hfpr'' & Hfault''); [simpl in Hfuel; lia|].
      exists r''. rewrite <- (assoc_L (++)). cbn [app]. split_and!; [done..| |]; congruence.
    + destruct (line_prefix line (input r) (list_ascii_of_string f) Comma _ Heq Hshape)
        as [_ H]; [by apply bare_not_elem; auto|].
      destruct H as (line' & -> & Heq' & Hshape'); [done|].
      rewrite decide_True.
      2:{ rewrite head_app. destruct (list_ascii_of_string f) as [|c l] eqn:Hf; [done|].
          simpl. apply Forall_cons in Hbare as [(_ & _ & Hc & _) _]. congruence. }
      rewrite IndexByte_first by (by apply bare_not_elem; auto).
      rewrite take_app_length.
      assert (Hnq : IndexByte (list_ascii_of_string f) quote = None).
      { apply IndexByte_None. by apply bare_not_elem; auto. }
      rewrite Hnq. rewrite string_of_list_ascii_of_string.
      rewrite drop_app_add. cbn [drop]. rewrite drop_0.
      destruct (IH g (S n) fuel recLine r line'
                  {| line_ := line_ pos; col := col pos + (length (list_ascii_of_string f) + 1) |}
                  (dst ++ [f]) rest Heq' Hshape' Hclean)
        as (r'' & -> & Hin & Hcl'' & Hfpr'' & Hfault'').
      { rewrite length_app in Hfuel. simpl in Hfuel. lia. }
      exists r''. rewrite <- (assoc_L (++)). cbn [app]. done.
Qed.

Lemma list_ascii_of_string_nil f : list_ascii_of_string f = [] → f = "".
Proof. intros H. by rewrite <- (string_of_list_ascii_of_string f), H. Qed.

(** A record with a field, other than the record of one empty field, is
    not written as an empty line. *)
Lemma writeFields_first rec :
  rec ≠ [] → rec ≠ [""] → ∃ x w, writeFields 0 rec = x :: w ∧ x ≠ LF.
Proof.
  destruct rec as [|f fs]; [done|]. intros _ Hne. cbn [writeFields].
  rewrite decide_False by lia. cbn [app].
  destruct (writeField_bytes f) as [[_ ->]|(_ & -> & Hbare)].
  - eexists _, _. split; [reflexivity|done].
  - destruct (list_ascii_of_string f) as [|c l] eqn:Hf.
    + apply list_ascii_of_string_nil in Hf as ->.
      destruct fs as [|g fs]; [done|]. cbn [writeFields app].
      eexists _, _. split; [reflexivity|done].
    + apply Forall_cons in Hbare as [(Hc & _) _]. eexists _, _. split; [reflexivity|done].
Qed.

Lemma Write_blank rec : blank rec → Write rec = [LF].
Proof. by intros [->| ->]. Qed.

Lemma WriteAll_cons rec records : WriteAll (rec :: records) = Write rec ++ WriteAll records.
Proof. done. Qed.

(** Empty lines are skipped. *)
Lemma nextLine_written k :
  ∀ fuel r T,
    input r = replicate k LF ++ T → T ≠ [] → head T ≠ Some LF →
    clean (input r) → length (input r) < fuel →
    ∃ body rest1 nl,
      nextLine fuel r
      = Some (body ++ [LF], None, mkReader rest1 (fault r) nl (FieldsPerRecord r))
      ∧ T = body ++ LF :: rest1 ∧ (LF ∉ body) ∧ body ≠ [] ∧ clean rest1.
Proof.
  induction k as [|k IH]; intros fuel r T Hin HT Hhead Hclean Hfuel.
  - cbn [replicate app] in Hin.
    destruct (readLine_clean r Hclean) as (body & rest1 & Hinput & Hbody & Hrest1 & Hread).
    { by rewrite Hin. }
    assert (Hb : body ≠ []).
    { intros ->. rewrite Hin in Hinput. rewrite Hinput in Hhead. by apply Hhead. }
    destruct fuel as [|fuel]; [lia|]. cbn [nextLine]. rewrite Hread.
    rewrite decide_False.
    2:{ intros [_ Hl]. unfold lengthNL in Hl. rewrite last_snoc, length_app in Hl.
        simpl in Hl. destruct body; [done|simpl in Hl; lia]. }
    eexists body, rest1, _. split; [reflexivity|]. split_and!; try done. by rewrite <- Hin.
  - cbn [replicate app] in Hin.
    destruct (readLine_clean r Hclean) as (body & rest1 & Hinput & Hbody & Hrest1 & Hread).
    { by rewrite Hin. }
    assert (body = [] ∧ rest1 = replicate k LF ++ T) as [-> ->].
    { rewrite Hin in Hinput. destruct body as [|c body]; simpl in Hinput.
      - by injection Hinput as <-.
      - injection Hinput as <- _. exfalso. apply Hbody. by left. }
    destruct fuel as [|fuel]; [lia|]. cbn [nextLine]. rewrite Hread.
    rewrite decide_True by done.
    destruct (IH fuel (mkReader (replicate k LF ++ T) (fault r) (S (numLine r))
                         (FieldsPerRecord r)) T)
      as (body & rest1 & nl & Hn & ?); [done..| |by eexists body, rest1, nl].
    simpl. rewrite Hin in Hfuel. simpl in Hfuel. lia.
Qed.

Lemma nextLine_eof k :
  ∀ fuel r, input r = replicate k LF → fault r = None → length (input r) < fuel →
    ∃ r', nextLine fuel r = Some ([], Some EOF, r').
Proof.
  induction k as [|k IH]; intros fuel r Hin Hfault Hfuel.
  - destruct r as [inp flt nl fpr]. simpl in Hin, Hfault. subst inp flt.
    destruct fuel as [|fuel]; [lia|]. by eexists.
  - assert (Hclean : clean (input r)).
    { rewrite Hin. split; [|right].
      - clear. induction k as [|k IHk]; [done|]. simpl in *. done.
      - clear. induction k as [|k IHk]; [done|]. by rewrite replicate_S, last_cons, IHk. }
    destruct (readLine_clean r Hclean) as (body & rest1 & Hinput & Hbody & Hrest1 & Hread).
    { by rewrite Hin. }
    assert (body = [] ∧ rest1 = replicate k LF) as [-> ->].
    { rewrite Hin in Hinput. destruct body as [|c body]; simpl in Hinput.
      - by injection Hinput as <-.
      - injection Hinput as <- _. exfalso. apply Hbody. by left. }
    destruct fuel as [|fuel]; [lia|]. cbn [nextLine]. rewrite Hread.
    rewrite decide_True by done. apply IH; [done|done|].
    simpl. rewrite Hin in Hfuel. simpl in Hfuel. lia.
Qed.

(** One record is read back, after the empty lines before it. *)
Lemma readRecord_written k rec fuel r rest :
  input r = replicate k LF ++ Write rec ++ rest → ¬ blank rec →
  clean (input r) → length (input r) < fuel →
  FieldsPerRecord r = 0 ∨ FieldsPerRecord r = length rec →
  ∃ r', readRecord fuel r = Some (r', rec, None)
    ∧ input r' = rest ∧ clean (input r') ∧ FieldsPerRecord r' = length rec
    ∧ fault r' = fault r.
Proof.
  intros Hin Hnb Hclean Hfuel Hfpr. unfold readRecord.
  destruct (writeFields_first rec) as (x & w & Hw & Hx).
  { intros ->. apply Hnb. by left. }
  { intros ->. apply Hnb. by right. }
  destruct (nextLine_written k fuel r (Write rec ++ rest) Hin)
    as (body & rest1 & nl & -> & HT & Hbody & Hb & Hrest1); [| |done|done|].
  { unfold Write. by rewrite Hw. }
  { unfold Write. rewrite Hw. simpl. congruence. }
  cbn [isEOF]. set (r1 := mkReader rest1 (fault r) nl (FieldsPerRecord r)).
  destruct rec as [|f fs]; [exfalso; apply Hnb; by left|].
  destruct (parseField_written fs f 0 fuel (numLine r1) r1 (body ++ [LF])
              (mkPosition (numLine r1) 1) [] rest)
    as (r' & -> & Hin' & Hcl' & Hfpr' & Hfault').
  { simpl. rewrite <- (assoc_L (++)). simpl. rewrite <- HT. unfold Write.
    cbn [writeFields]. rewrite decide_False by lia. cbn [app].
    by rewrite <- !(assoc_L (++)). }
  { by exists body. }
  { done. }
  { simpl. rewrite length_app. simpl.
    assert (length (Write (f :: fs) ++ rest) ≤ length (input r))
      by (rewrite Hin, !length_app; lia).
    rewrite HT, length_app in H. simpl in H. lia. }
  cbn [app]. simpl in Hfpr'.
  destruct (decide (0 < FieldsPerRecord r')) as [Hpos|Hzero].
  - rewrite decide_False.
    2:{ intros [Hlen _]. apply Hlen. simpl in *. lia. }
    exists r'. split_and!; [done..| |done]. simpl in *. lia.
  - eexists. split; [reflexivity|]. done.
Qed.

(** All the records are read back, but those written as empty lines. *)
Lemma readAllLoop_written records :
  ∀ k fuel r acc n,
    input r = replicate k LF ++ WriteAll records → fault r = None →
    Forall (λ rec, length rec = n) records →
    clean (input r) → length (input r) + 1 < fuel →
    FieldsPerRecord r = 0 ∨ FieldsPerRecord r = n →
    readAllLoop fuel r acc = Some (inr (acc ++ filter (λ rec, ¬ blank rec) records)).
Proof.
  induction records as [|rec records IH];
    intros k fuel r acc n Hin Hfault Hall Hclean Hfuel Hfpr.
  - cbn [WriteAll fmap list_fmap concat] in Hin. rewrite app_nil_r in Hin.
    destruct fuel as [|fuel]; [lia|]. cbn [readAllLoop]. unfold readRecord.
    destruct (nextLine_eof k fuel r Hin Hfault) as (r' & ->); [lia|].
    by rewrite filter_nil, app_nil_r.
  - apply Forall_cons in Hall as [Hlen Hall]. rewrite WriteAll_cons in Hin.
    destruct (decide (blank rec)) as [Hb|Hb].
    + rewrite filter_cons_False by (by intros ?).
      apply (IH (S k) fuel r acc n); try done.
      rewrite Hin, (Write_blank rec Hb). rewrite replicate_S_end, <- (assoc_L (++)). done.
    + rewrite filter_cons_True by done.
      destruct fuel as [|fuel]; [lia|]. cbn [readAllLoop].
      destruct (readRecord_written k rec fuel r (WriteAll records) Hin Hb Hclean)
        as (r' & -> & Hin' & Hcl' & Hfpr' & Hfault'); [lia|lia|].
      rewrite (IH 0 fuel r' (acc ++ [rec]) n); [|done|congruence|done|done| |lia].
      * by rewrite <- (assoc_L (++)).
      * rewrite Hin'. rewrite Hin, !length_app in Hfuel. unfold Write in Hfuel.
        rewrite length_app in Hfuel. simpl in Hfuel. lia.
Qed.

Lemma head_quoteBody_LF t : head (quoteBody t) = Some LF ↔ head t = Some LF.
Proof.
  destruct t as [|c t]; [done|]. simpl. destruct (decide (c = quote)) as [->|]; [|done].
  simpl. split; intros [=].
Qed.

Lemma noCRLF_quoteBody t : noCRLF t = true → noCRLF (quoteBody t) = true.
Proof.
  induction t as [|c t IH]; [done|]. simpl. intros [Hc Ht]%andb_true_iff.
  destruct (decide (c = quote)) as [->|Hq].
  - simpl. by apply IH.
  - simpl. apply andb_true_iff. split; [|by apply IH].
    apply negb_true_iff, andb_false_iff. apply negb_true_iff, andb_false_iff in Hc.
    destruct Hc as [Hc|Hc]; [by left|]. right.
    apply bool_decide_eq_false. apply bool_decide_eq_false in Hc.
    by rewrite head_quoteBody_LF.
Qed.

Lemma tidy_writeField f : noCRLF (list_ascii_of_string f) = true → tidy (writeField f).
Proof.
  intros Hf. destruct (writeField_bytes f) as [[_ ->]|(_ & -> & Hbare)].
  - split.
    + change (noCRLF (quoteBody (list_ascii_of_string f) ++ [quote]) = true).
      apply noCRLF_app; [by apply noCRLF_quoteBody|done|by right].
    + rewrite last_cons, last_snoc. done.
  - apply tidy_no_CR. by apply bare_not_elem; auto.
Qed.

Lemma tidy_writeFields n rec :
  Forall (λ f, noCRLF (list_ascii_of_string f) = true) rec → tidy (writeFields n rec).
Proof.
  revert n. induction rec as [|f fs IH]; intros n Hall; [apply tidy_nil|].
  apply Forall_cons in Hall as [Hf Hfs]. cbn [writeFields].
  apply tidy_app; [destruct (decide (0 < n)); [by apply tidy_byte|apply tidy_nil]|].
  apply tidy_app; [by apply tidy_writeField|by apply IH].
Qed.

Lemma clean_WriteAll records :
  Forall (Forall (λ f, noCRLF (list_ascii_of_string f) = true)) records →
  clean (WriteAll records).
Proof.
  intros Hall. assert (tidy (WriteAll records) ∧ (WriteAll records = []
                                                   ∨ last (WriteAll records) = Some LF))
    as [[H1 _] H2]; [|by split].
  induction Hall as [|rec records Hrec Hall [IH1 IH2]]; [split; [apply tidy_nil|by left]|].
  rewrite WriteAll_cons. split.
  - apply tidy_app; [|done]. apply tidy_app; [by apply tidy_writeFields|by apply tidy_byte].
  - right. rewrite last_app. destruct IH2 as [Hnil|Hlast]; [|by rewrite Hlast].
    rewrite Hnil. unfold Write. by rewrite last_snoc.
Qed.

(** The reader returns the records the writer wrote, but those written
    as empty lines, when they all have one number of fields and no field
    holds a carriage return before a line feed. *)
Lemma ReadAll_WriteAll records n :
  Forall (λ rec, length rec = n) records →
  Forall (Forall (λ f, noCRLF (list_ascii_of_string f) = true)) records →
  ReadAll (WriteAll records) None = inr (filter (λ rec, ¬ blank rec) records).
Proof.
  intros Hall Hplain. unfold ReadAll.
  rewrite (readAllLoop_written records 0 _ _ [] n); try done.
  - by apply clean_WriteAll.
  - simpl. lia.
  - by left.
Qed.

End csv_facts.

Import csv_facts.

(* ===================================================================== *)
(** * Properties of csvutil on files                                      *)
(* ===================================================================== *)

(** ** What reading a file returns *)

(** X13. The rows [readFileToArr] returns all have the same number of
    cells, and at least one. *)
Theorem readFileToArr_uniform (sys : os.answers) (fs : os.FS) (filename : string)
    (records : list (list string)) :
  csvfile.readFileToArr sys fs filename = Ok records →
  ∃ n, 0 < n ∧ Forall (λ row, length row = n) records.
Proof.
  unfold csvfile.readFileToArr.
  destruct (os.Open sys fs filename) as [err|[f fault]]; [done|].
  destruct (csv.ReadAll f fault) as [err|recs] eqn:Hall; [done|]. intros [= <-].
  by apply ReadAll_uniform in Hall.
Qed.

Lemma readFileToArr_uniform_witness :
  let fs : os.FS :=
    {[ "people.csv" := csv.WriteAll [["name"; "active"]; ["Ann, B"; "true"]] ]} in
  csvfile.readFileToArr os.succeed fs "people.csv"
  = Ok [["name"; "active"]; ["Ann, B"; "true"]]
  ∧ ∃ n, 0 < n ∧ Forall (λ row, length row = n) [["name"; "active"]; ["Ann, B"; "true"]].
Proof.
  assert (H : csvfile.readFileToArr os.succeed
                ({[ "people.csv" := csv.WriteAll [["name"; "active"]; ["Ann, B"; "true"]] ]}
                 : os.FS) "people.csv"
              = Ok [["name"; "active"]; ["Ann, B"; "true"]])
    by (vm_compute; reflexivity).
  split; [exact H|].
  exact (readFileToArr_uniform os.succeed _ "people.csv" _ H).
Defined.

Lemma cellError_not_ReadFile k name cell e : cellError k name cell ≠ Some (ErrReadFile e).
Proof. destruct k; simpl; try done; case_parse; done. Qed.

(** Nothing after the file is read returns a "read file error". *)
Lemma ReadToStruct_not_ReadFile T (o : range_oracle string nat) records e :
  ReadToStruct T o (Ok records) ≠ Err (ErrReadFile e).
Proof.
  unfold ReadToStruct. destruct records as [|header rows]; [done|].
  cbn [index lookup list_lookup mbind outcome_mbind outcome_bind].
  destruct (readColumnDefCreateStruct T o header) as [conv|e'|p] eqn:Hc; [| |done].
  - apply readColumnDefCreateStruct_Ok in Hc as (HT & colDef & Hb & Hconv).
    cbn [mbind outcome_mbind outcome_bind]. intros H.
    apply decodeRecords_Err in H as (n & row & _ & _ & Hn). rewrite Hconv in Hn.
    unfold decodeRow in Hn. apply forRange_Err in Hn as ([k v] & s & _ & Hs).
    apply decodeField_Err in Hs as [[_ ?]|(fld & _ & [[_ He]|(cell & _ & He)])]; [done|..];
      by apply cellError_not_ReadFile in He.
  - apply readColumnDefCreateStruct_Err in Hc
      as [[_ ->]|(_ & i & f & _ & _ & _ & _ & ->)]; done.
Qed.

(** X14. [ReadToStruct] returns a "read file error" exactly when
    [readFileToArr] fails, that is, when [os.Open] returns an error
    ("unable to read file" with the message of that error), or the file
    is opened and [ReadAll] returns an error ("unable to parse file as
    CSV" with the message of that error, be it a parse error or an error
    of reading). This comes before any look at the type, and no failure
    of the type, of the header or of a cell is reported in this form. *)
Theorem ReadToStruct_file_error (T : rtype) (o : range_oracle string nat)
    (sys : os.answers) (fs : os.FS) (filename : string) (e : error) :
  csvfile.ReadToStruct T o sys fs filename = Err (ErrReadFile e) ↔
  (∃ err, os.Open sys fs filename = inl err ∧ e = ErrUnableToReadFile err)
  ∨ (∃ f fault err, os.Open sys fs filename = inr (f, fault)
       ∧ csv.ReadAll f fault = inl err
       ∧ e = ErrUnableToParse (csv.Error err)).
Proof.
  unfold csvfile.ReadToStruct, csvfile.readFileToArr.
  destruct (os.Open sys fs filename) as [err|[f fault]] eqn:Hopen.
  - cbn [ReadToStruct]. split.
    + intros [= <-]. left. by exists err.
    + intros [(err' & ? & ->)|(f' & fault' & err' & ? & _)]; [congruence|done].
  - destruct (csv.ReadAll f fault) as [err|records] eqn:Hall.
    + cbn [ReadToStruct]. split.
      * intros [= <-]. right. by exists f, fault, err.
      * intros [(err' & ? & _)|(f' & fault' & err' & ? & ? & ->)]; [done|congruence].
    + split; [intros H; by apply ReadToStruct_not_ReadFile in H|].
      intros [(err' & ? & _)|(f' & fault' & err' & ? & ? & _)]; [done|congruence].
Qed.

Lemma readFileToArr_written fs filename rows n :
  Forall (λ row, length row = n) rows → Forall (Forall plainCell) rows →
  csvfile.readFileToArr os.succeed (<[filename := csv.WriteAll rows]> fs) filename
  = Ok (filter (λ row, ¬ blank row) rows).
Proof.
  intros Hlen Hplain. unfold csvfile.readFileToArr, os.Open.
  cbn [os.openErr os.readErr os.succeed]. rewrite lookup_insert_eq.
  by rewrite (ReadAll_WriteAll rows n).
Qed.

Lemma WriteFromStruct_file_Ok T (o : range_oracle nat string) fs filename records rows :
  csvutil.WriteFromStruct T o records = Ok rows →
  csvfile.WriteFromStruct T o os.succeed fs filename records
  = (<[filename := csv.WriteAll rows]> fs, [], Ok tt).
Proof. intros H. unfold csvfile.WriteFromStruct. by rewrite H. Qed.

(** X15. After a call of [WriteFromStruct] that succeeds, the file holds
    the CSV text of the rows built and every other file is as before.
    When no cell has a carriage return directly before a line feed,
    [readFileToArr] reads the rows back, but those written as an empty
    line (a row without cells, or of one empty cell), which are left
    out. *)
Theorem written_file_read_back (T : rtype) (o : range_oracle nat string)
    (fs : os.FS) (filename : string) (records : list (list Value))
    (rows : list (list string)) :
  fair o → csvutil.WriteFromStruct T o records = Ok rows →
  Forall (Forall plainCell) rows →
  ∃ fs',
    csvfile.WriteFromStruct T o os.succeed fs filename records = (fs', [], Ok tt)
    ∧ fs' !! filename = Some (csv.WriteAll rows)
    ∧ (∀ other, other ≠ filename → fs' !! other = fs !! other)
    ∧ csvfile.readFileToArr os.succeed fs' filename
      = Ok (filter (λ row, ¬ blank row) rows)
    ∧ (Forall (λ row, ¬ blank row) rows →
       csvfile.readFileToArr os.succeed fs' filename = Ok rows).
Proof.
  intros Hfair Hrows Hplain.
  destruct (WriteFromStruct_Ok_rows _ _ _ _ Hfair Hrows) as (n & _ & _ & _ & _ & Hlen).
  exists (<[filename := csv.WriteAll rows]> fs).
  split; [by apply WriteFromStruct_file_Ok|]. split; [by rewrite lookup_insert_eq|].
  split; [by intros other Hne; rewrite lookup_insert_ne|].
  rewrite (readFileToArr_written fs filename rows n) by done. split; [done|].
  intros Hnb. f_equal. clear -Hnb. induction Hnb as [|row rows Hrow Hnb IH]; [done|].
  by rewrite filter_cons_True, IH.
Qed.

Lemma fair_key_order_nat : fair (in_key_order (K := nat) (V := string)).
Proof. by intros n m. Qed.

Lemma written_file_read_back_witness :
  let T := examples.Person in
  let records := [[VString ""; VBool true]; [VString "Ann, B"; VBool false]] in
  let rows := [["name"; "active"]; [""; "true"]; ["Ann, B"; "false"]] in
  fair (in_key_order (K := nat) (V := string))
  ∧ csvutil.WriteFromStruct T in_key_order records = Ok rows
  ∧ Forall (Forall plainCell) rows
  ∧ ∃ fs',
      csvfile.WriteFromStruct T in_key_order os.succeed ∅ "people.csv" records
      = (fs', [], Ok tt)
      ∧ fs' !! "people.csv" = Some (csv.WriteAll rows)
      ∧ (∀ other, other ≠ "people.csv" → fs' !! other = (∅ : os.FS) !! other)
      ∧ csvfile.readFileToArr os.succeed fs' "people.csv"
        = Ok (filter (λ row, ¬ blank row) rows)
      ∧ (Forall (λ row, ¬ blank row) rows →
         csvfile.readFileToArr os.succeed fs' "people.csv" = Ok rows).
Proof.
  assert (H1 : csvutil.WriteFromStruct examples.Person in_key_order
                 [[VString ""; VBool true]; [VString "Ann, B"; VBool false]]
               = Ok [["name"; "active"]; [""; "true"]; ["Ann, B"; "false"]])
    by (vm_compute; reflexivity).
  assert (H2 : Forall (Forall plainCell)
                 [["name"; "active"]; [""; "true"]; ["Ann, B"; "false"]]).
  { repeat (apply Forall_cons; split); try apply Forall_nil; reflexivity. }
  split; [apply fair_key_order_nat|]. split; [exact H1|]. split; [exact H2|].
  exact (written_file_read_back examples.Person in_key_order ∅ "people.csv" _ _
           fair_key_order_nat H1 H2).
Defined.

(** ** Records through a file *)

(** Reading the rows written for records that survive. *)
Lemma read_written_rows T n (ord : range_oracle string nat) records :
  fair ord → TypeKind T = KStruct → annotatedPrefix T n →
  NoDup (colOf <$> take n (Fields T)) → NoDup (Name <$> take n (Fields T)) →
  (∀ f, f ∈ take n (Fields T) → IsExported f = true ∧ convertible (FieldKind f) = true) →
  Forall (hasType T) records →
  (∀ r i f v, r ∈ records → take n (Fields T) !! i = Some f → r !! i = Some v →
     survives v = true) →
  csvutil.ReadToStruct T ord (Ok ((colOf <$> take n (Fields T)) :: (rowText T n <$> records)))
  = Ok (keepAnnotated T n <$> records).
Proof.
  intros Hfr HT Hpre Hcols Hnames Hfields Hty Hsurv.
  assert (Hexp : ∀ f, f ∈ take n (Fields T) → IsExported f = true)
    by (intros f Hf; by apply Hfields).
  assert (Hconv : ∀ f, f ∈ take n (Fields T) → convertible (FieldKind f) = true)
    by (intros f Hf; by apply Hfields).
  destruct (getStructTags_written_header T n HT Hpre) as [colDef HcolDef].
  rewrite (ReadToStruct_struct _ _ _ _ _ HT HcolDef).
  rewrite (decodeRecords_written_rows T n HT Hpre Hcols Hnames Hexp Hconv colDef ord
             records 1 []); [|done..|].
  - cbn [app]. f_equal. apply list_fmap_ext. intros j r Hr.
    apply list_elem_of_lookup_2 in Hr. apply readBack_survives.
    intros i f v Hf Hv. by apply (Hsurv r i f v).
  - intros r i f z Hr Hf Hz. by apply (Hsurv r i f (VInt z)).
Qed.

(** X16. Writing records to a file and reading the file gives the
    records back, with the fields beyond the annotated ones zero: for a
    struct type whose annotated fields are its first [n] fields, with
    distinct names and distinct columns, exported and of a kind that
    converts, for records of that type whose values survive the text
    form, when no row written is an empty line and no cell has a
    carriage return directly before a line feed. *)
Theorem write_file_then_read_file (T : rtype) (n : nat)
    (ow : range_oracle nat string) (ord : range_oracle string nat)
    (fs : os.FS) (filename : string) (records : list (list Value)) :
  fair ow → fair ord →
  TypeKind T = KStruct → annotatedPrefix T n →
  NoDup (colOf <$> take n (Fields T)) → NoDup (Name <$> take n (Fields T)) →
  (∀ f, f ∈ take n (Fields T) → IsExported f = true ∧ convertible (FieldKind f) = true) →
  Forall (hasType T) records →
  (∀ r i f v, r ∈ records → take n (Fields T) !! i = Some f → r !! i = Some v →
     survives v = true) →
  let rows := (colOf <$> take n (Fields T)) :: (rowText T n <$> records) in
  Forall (λ row, ¬ blank row) rows → Forall (Forall plainCell) rows →
  ∃ fs',
    csvfile.WriteFromStruct T ow os.succeed fs filename records = (fs', [], Ok tt)
    ∧ fs' !! filename = Some (csv.WriteAll rows)
    ∧ csvfile.ReadToStruct T ord os.succeed fs' filename
      = Ok (keepAnnotated T n <$> records).
Proof.
  intros Hfw Hfr HT Hpre Hcols Hnames Hfields Hty Hsurv rows Hnb Hplain.
  assert (Hrows : csvutil.WriteFromStruct T ow records = Ok rows).
  { apply (WriteFromStruct_prefix T ow n); auto. right. intros f Hf. by apply Hfields. }
  destruct (WriteFromStruct_Ok_rows _ _ _ _ Hfw Hrows) as (n' & _ & _ & _ & _ & Hlen).
  exists (<[filename := csv.WriteAll rows]> fs).
  split; [by apply WriteFromStruct_file_Ok|]. split; [by rewrite lookup_insert_eq|].
  unfold csvfile.ReadToStruct. rewrite (readFileToArr_written fs filename rows n') by done.
  replace (filter (λ row, ¬ blank row) rows) with rows.
  - by apply read_written_rows.
  - clear -Hnb. induction Hnb as [|row rows Hrow Hnb IH]; [done|].
    by rewrite filter_cons_True, <- IH.
Qed.

Lemma write_file_then_read_file_witness :
  let T := readings.Reading in
  let records := [readings.sample] in
  let ow : range_oracle nat string := in_key_order in
  let ord : range_oracle string nat := in_key_order in
  fair ow ∧ fair ord ∧
  TypeKind T = KStruct ∧ annotatedPrefix T 4 ∧
  NoDup (colOf <$> take 4 (Fields T)) ∧ NoDup (Name <$> take 4 (Fields T)) ∧
  (∀ f, f ∈ take 4 (Fields T) → IsExported f = true ∧ convertible (FieldKind f) = true) ∧
  Forall (hasType T) records ∧
  (∀ r i f v, r ∈ records → take 4 (Fields T) !! i = Some f → r !! i = Some v →
     survives v = true) ∧
  let rows := (colOf <$> take 4 (Fields T)) :: (rowText T 4 <$> records) in
  Forall (λ row, ¬ blank row) rows ∧ Forall (Forall plainCell) rows ∧
  ∃ fs',
    csvfile.WriteFromStruct T ow os.succeed ∅ "readings.csv" records = (fs', [], Ok tt)
    ∧ fs' !! "readings.csv" = Some (csv.WriteAll rows)
    ∧ csvfile.ReadToStruct T ord os.succeed fs' "readings.csv"
      = Ok (keepAnnotated T 4 <$> records).
Proof.
  assert (Hfw : fair (in_key_order (K := nat) (V := string))) by (intros ? ?; reflexivity).
  assert (Hfr : fair (in_key_order (K := string) (V := nat))) by (intros ? ?; reflexivity).
  assert (Hpre : annotatedPrefix readings.Reading 4).
  { split; [simpl; lia|]. intros j f Hj.
    destruct j as [|[|[|[|[|j]]]]]; simpl in Hj; try discriminate Hj; injection Hj as <-;
      (split; [intros _; lia|intros _; discriminate])
      || (split; [intros Ha; by destruct Ha|intros ?; lia]). }
  assert (Hcols : NoDup (colOf <$> take 4 (Fields readings.Reading))).
  { apply (bool_decide_unpack _). vm_compute. exact I. }
  assert (Hnames : NoDup (Name <$> take 4 (Fields readings.Reading))).
  { apply (bool_decide_unpack _). vm_compute. exact I. }
  assert (Hfields : ∀ f, f ∈ take 4 (Fields readings.Reading) →
            IsExported f = true ∧ convertible (FieldKind f) = true).
  { intros f Hf. simpl in Hf. repeat (apply elem_of_cons in Hf as [->|Hf]; [by split|]).
    by apply elem_of_nil in Hf. }
  assert (Hty : Forall (hasType readings.Reading) [readings.sample]).
  { apply Forall_singleton. repeat constructor. }
  assert (Hsurv : ∀ r i f v, r ∈ [readings.sample] →
            take 4 (Fields readings.Reading) !! i = Some f → r !! i = Some v →
            survives v = true).
  { intros r i f v Hr Hf Hv. apply list_elem_of_singleton in Hr as ->.
    destruct i as [|[|[|[|i]]]]; simpl in Hf, Hv; try discriminate Hf;
      injection Hf as <-; injection Hv as <-; reflexivity. }
  assert (Hnb : Forall (λ row, ¬ blank row)
                  ((colOf <$> take 4 (Fields readings.Reading))
                     :: (rowText readings.Reading 4 <$> [readings.sample]))).
  { vm_compute. repeat (apply Forall_cons; split); try apply Forall_nil;
      first [exact I | intros [H|H]; discriminate H]. }
  assert (Hplain : Forall (Forall plainCell)
                     ((colOf <$> take 4 (Fields readings.Reading))
                        :: (rowText readings.Reading 4 <$> [readings.sample]))).
  { repeat (apply Forall_cons; split); try apply Forall_nil; vm_compute; reflexivity. }
  cbv zeta.
  split_and!; [exact Hfw|exact Hfr|reflexivity|exact Hpre|exact Hcols|exact Hnames
              |exact Hfields|exact Hty|exact Hsurv|exact Hnb|exact Hplain|].
  exact (write_file_then_read_file readings.Reading 4 in_key_order in_key_order ∅
           "readings.csv" [readings.sample]
           Hfw Hfr eq_refl Hpre Hcols Hnames Hfields Hty Hsurv Hnb Hplain).
Defined.

(** ** A type without an annotated field *)

Lemma WriteAll_empty_rows (rows : list (list string)) :
  Forall (λ row, row = []) rows → csv.WriteAll rows = replicate (length rows) csv.LF.
Proof.
  induction 1 as [|row rows -> _ IH]; [done|]. rewrite WriteAll_cons, IH. done.
Qed.

(** X17. For a struct type without an annotated field, [WriteFromStruct]
    succeeds and writes a file of empty lines, one more than there are
    records; [ReadToStruct] of that file panics with an index out of
    range, as on an empty file. *)
Theorem no_annotated_field_file_unreadable (T : rtype)
    (ow : range_oracle nat string) (ord : range_oracle string nat)
    (fs : os.FS) (filename : string) (records : list (list Value)) :
  fair ow → TypeKind T = KStruct → (∀ f, f ∈ Fields T → colOf f = "") →
  ∃ fs',
    csvfile.WriteFromStruct T ow os.succeed fs filename records = (fs', [], Ok tt)
    ∧ fs' !! filename = Some (replicate (S (length records)) csv.LF)
    ∧ csvfile.ReadToStruct T ord os.succeed fs' filename = Panic (IndexOutOfRange 0 0).
Proof.
  intros Hfw HT Hnone.
  assert (Hpre : annotatedPrefix T 0).
  { split; [lia|]. intros j f Hf. split; [|lia]. intros Ha. exfalso. apply Ha.
    apply Hnone. by eapply list_elem_of_lookup_2. }
  set (rows := (colOf <$> take 0 (Fields T)) :: (rowText T 0 <$> records)).
  assert (Hrows : csvutil.WriteFromStruct T ow records = Ok rows).
  { apply (WriteFromStruct_prefix T ow 0); auto. right. intros f Hf.
    rewrite take_0 in Hf. by apply elem_of_nil in Hf. }
  assert (Hempty : Forall (λ row, row = []) rows).
  { apply Forall_cons. split; [by rewrite take_0|]. apply Forall_fmap, Forall_true.
    intros r. done. }
  assert (Hfile : csv.WriteAll rows = replicate (S (length records)) csv.LF).
  { rewrite WriteAll_empty_rows by done. unfold rows. simpl. by rewrite length_fmap. }
  exists (<[filename := csv.WriteAll rows]> fs).
  split; [by apply WriteFromStruct_file_Ok|].
  split; [by rewrite lookup_insert_eq, Hfile|].
  unfold csvfile.ReadToStruct. rewrite (readFileToArr_written fs filename rows 0).
  - replace (filter (λ row, ¬ blank row) rows) with (@nil (list string)); [done|].
    clear -Hempty. induction Hempty as [|row rows -> _ IH]; [done|].
    rewrite filter_cons_False; [done|]. intros H. apply H. by left.
  - eapply Forall_impl; [exact Hempty|]. by intros row ->.
  - eapply Forall_impl; [exact Hempty|]. by intros row ->.
Qed.

Lemma no_annotated_field_file_unreadable_witness :
  let T := mkType "Bare" KStruct [mkField "Name" "" KString []] in
  fair (in_key_order (K := nat) (V := string)) ∧ TypeKind T = KStruct
  ∧ (∀ f, f ∈ Fields T → colOf f = "")
  ∧ ∃ fs',
      csvfile.WriteFromStruct T in_key_order os.succeed ∅ "bare.csv" [[VString "Ann"]]
      = (fs', [], Ok tt)
      ∧ fs' !! "bare.csv" = Some (replicate (S (length [[VString "Ann"]])) csv.LF)
      ∧ csvfile.ReadToStruct T in_key_order os.succeed fs' "bare.csv"
        = Panic (IndexOutOfRange 0 0).
Proof.
  assert (H : ∀ f, f ∈ Fields (mkType "Bare" KStruct [mkField "Name" "" KString []]) →
              colOf f = "").
  { intros f Hf. apply list_elem_of_singleton in Hf. by subst f. }
  split; [apply fair_key_order_nat|]. split; [reflexivity|]. split; [exact H|].
  exact (no_annotated_field_file_unreadable
           (mkType "Bare" KStruct [mkField "Name" "" KString []])
           in_key_order in_key_order ∅ "bare.csv"
           [[VString "Ann"]] fair_key_order_nat eq_refl H).
Defined.

(** ** Rows of a file are never too short *)

(** X18. On a file, the only index panic of [ReadToStruct] is the one at
    [records[0]] for a file without a record: no row of a file is too
    short for the binding, because the reader requires of every record
    the number of fields of the first. *)
Theorem ReadToStruct_file_index_panic (T : rtype) (o : range_oracle string nat)
    (sys : os.answers) (fs : os.FS) (filename : string) (i l : nat) :
  fair o →
  csvfile.ReadToStruct T o sys fs filename = Panic (IndexOutOfRange i l) →
  i = 0 ∧ l = 0 ∧ csvfile.readFileToArr sys fs filename = Ok [].
Proof.
  intros Hfair. unfold csvfile.ReadToStruct.
  destruct (csvfile.readFileToArr sys fs filename) as [records|e|p] eqn:Hread; [|done|].
  - destruct records as [|header rows].
    + intros [= <- <-]. done.
    + intros H. exfalso.
      apply (ReadToStruct_uniform_rows T o header rows i l Hfair); [|done].
      unfold csvfile.readFileToArr in Hread.
      destruct (os.Open sys fs filename) as [err|[f fault]]; [done|].
      destruct (csv.ReadAll f fault) as [err|recs] eqn:Hall; [done|].
      injection Hread as ->.
      apply ReadAll_uniform in Hall as (n & _ & Hn).
      apply Forall_cons in Hn as [<- Hn]. done.
  - unfold csvfile.readFileToArr in Hread.
    destruct (os.Open sys fs filename) as [err|[f fault]]; [done|].
    by destruct (csv.ReadAll f fault).
Qed.

Lemma ReadToStruct_file_index_panic_witness :
  let fs : os.FS := {[ "empty.csv" := [] ]} in
  fair (in_key_order (K := string) (V := nat))
  ∧ csvfile.ReadToStruct examples.Person in_key_order os.succeed fs "empty.csv"
    = Panic (IndexOutOfRange 0 0)
  ∧ 0 = 0 ∧ 0 = 0 ∧ csvfile.readFileToArr os.succeed fs "empty.csv" = Ok [].
Proof.
  assert (H : csvfile.ReadToStruct examples.Person in_key_order os.succeed
                ({[ "empty.csv" := [] ]} : os.FS) "empty.csv"
              = Panic (IndexOutOfRange 0 0)) by (vm_compute; reflexivity).
  split; [apply fair_in_key_order|]. split; [exact H|].
  exact (ReadToStruct_file_index_panic examples.Person in_key_order os.succeed _
           "empty.csv" 0 0 fair_in_key_order H).
Defined.
